(** * ClearText: the non-printable character scanner and cleaner

    A shallow embedding of [src/lib/nonprintable.ts] and the properties of
    its scanner, aggregator and cleaner.

    JavaScript strings are sequences of UTF-16 code units; they are modelled
    as lists of integers, and the code's loops walk them by code point with
    [codePointAt] and [String.fromCodePoint], exactly as the source does.
    The Unicode general category of a code point, which the source reaches
    through the regular expression classes [\p{Cc}], [\p{Cf}], ..., lives in
    the JavaScript engine and not in the repository: it is a parameter of
    the development ([general_category]). *)

From Stdlib Require Import String Ascii.
From Stdlib Require Import ZArith List Bool Lia Arith.
From Stdlib Require Import Permutation Sorted.
Import ListNotations.

Local Open Scope list_scope.

(* ------------------------------------------------------------------ *)
(** ** JavaScript strings as UTF-16 code units *)

Definition jsstring := list Z.

(** Every element of a well-formed string is a 16-bit code unit. *)
Definition is_code_unit (u : Z) : bool := ((0 <=? u) && (u <=? 0xFFFF))%Z.

Definition wf_jsstring (s : jsstring) : bool := forallb is_code_unit s.

(** An ASCII literal of the source, as code units. *)
Definition lit (s : string) : jsstring :=
  map (fun a => Z.of_nat (nat_of_ascii a)) (list_ascii_of_string s).

Definition is_high_surrogate (u : Z) : bool := ((0xD800 <=? u) && (u <=? 0xDBFF))%Z.
Definition is_low_surrogate (u : Z) : bool := ((0xDC00 <=? u) && (u <=? 0xDFFF))%Z.

Definition surrogate_pair_value (hi lo : Z) : Z :=
  ((hi - 0xD800) * 0x400 + (lo - 0xDC00) + 0x10000)%Z.

(** [String.prototype.codePointAt]: [None] stands for [undefined]. *)
Definition codePointAt (s : jsstring) (pos : nat) : option Z :=
  match nth_error s pos with
  | None => None
  | Some first =>
      if is_high_surrogate first then
        match nth_error s (pos + 1) with
        | None => Some first
        | Some second =>
            if is_low_surrogate second
            then Some (surrogate_pair_value first second)
            else Some first
        end
      else Some first
  end.

(** [String.fromCodePoint] on one code point. *)
Definition fromCodePoint (cp : Z) : jsstring :=
  if (cp <=? 0xFFFF)%Z then [cp]
  else [((cp - 0x10000) / 0x400 + 0xD800)%Z; ((cp - 0x10000) mod 0x400 + 0xDC00)%Z].

(** The string iterator: the code points of a string, with the code-unit
    index each one starts at. *)
Fixpoint codePointsFrom (i : nat) (s : jsstring) : list (nat * Z) :=
  match s with
  | [] => []
  | u :: t =>
      match t with
      | v :: t' =>
          if is_high_surrogate u && is_low_surrogate v
          then (i, surrogate_pair_value u v) :: codePointsFrom (i + 2) t'
          else (i, u) :: codePointsFrom (i + 1) t
      | [] => [(i, u)]
      end
  end.

Definition codePoints (s : jsstring) : list Z := map snd (codePointsFrom 0 s).

Definition codePointCount (s : jsstring) : nat := length (codePoints s).

(** [String.prototype.startsWith]. *)
Fixpoint startsWith (prefix s : jsstring) : bool :=
  match prefix, s with
  | [], _ => true
  | _ :: _, [] => false
  | p :: prefix', c :: s' => (p =? c)%Z && startsWith prefix' s'
  end.

(** [String.prototype.replace] with a global one-character pattern. *)
Definition replaceAll (pat : Z) (by_ : jsstring) (s : jsstring) : jsstring :=
  flat_map (fun u => if (u =? pat)%Z then by_ else [u]) s.

(** [Number.prototype.toString(radix)] on a non-negative integer, digits
    above nine in lower case. *)
Definition digit_unit (d : Z) : Z :=
  if (d <? 10)%Z then (48 + d)%Z else (97 + (d - 10))%Z.

Fixpoint digits_aux (fuel : nat) (radix n : Z) (acc : jsstring) : jsstring :=
  match fuel with
  | O => digit_unit (n mod radix) :: acc
  | S fuel' =>
      if (n <? radix)%Z then digit_unit n :: acc
      else digits_aux fuel' radix (n / radix) (digit_unit (n mod radix) :: acc)
  end.

Definition toStringRadix (radix n : Z) : jsstring :=
  digits_aux (Z.to_nat (Z.log2 n)) radix n [].

Definition toUpperCase_unit (u : Z) : Z :=
  if ((97 <=? u) && (u <=? 122))%Z then (u - 32)%Z else u.

Definition toUpperCase (s : jsstring) : jsstring := map toUpperCase_unit s.

Definition padStart (width : nat) (fill : Z) (s : jsstring) : jsstring :=
  repeat fill (width - length s) ++ s.

(** Template-literal interpolation of a line or column number. *)
Definition nat_to_jsstring (n : nat) : jsstring := toStringRadix 10 (Z.of_nat n).

(* ------------------------------------------------------------------ *)
(** ** Unicode general categories *)

Inductive GeneralCategory : Type :=
| Lu | Ll | Lt | Lm | Lo
| Mn | Mc | Me
| Nd | Nl | No
| Pc | Pd | Ps | Pe | Pi | Pf | Po
| Sm | Sc | Sk | So
| Zs | Zl | Zp
| Cc | Cf | Cs | Co | Cn.

(** An excerpt of the Unicode Character Database, as inclusive ranges:
    Basic Latin, Latin-1 Supplement, General Punctuation, the surrogates and
    the private use area of the BMP.  It is used to instantiate the
    category parameter on concrete inputs. *)
Definition ucd_excerpt_ranges : list (Z * Z * GeneralCategory) :=
  [ (0x0000, 0x001F, Cc); (0x0020, 0x0020, Zs); (0x0021, 0x0023, Po);
    (0x0024, 0x0024, Sc); (0x0025, 0x0027, Po); (0x0028, 0x0028, Ps);
    (0x0029, 0x0029, Pe); (0x002A, 0x002A, Po); (0x002B, 0x002B, Sm);
    (0x002C, 0x002C, Po); (0x002D, 0x002D, Pd); (0x002E, 0x002F, Po);
    (0x0030, 0x0039, Nd); (0x003A, 0x003B, Po); (0x003C, 0x003E, Sm);
    (0x003F, 0x0040, Po); (0x0041, 0x005A, Lu); (0x005B, 0x005B, Ps);
    (0x005C, 0x005C, Po); (0x005D, 0x005D, Pe); (0x005E, 0x005E, Sk);
    (0x005F, 0x005F, Pc); (0x0060, 0x0060, Sk); (0x0061, 0x007A, Ll);
    (0x007B, 0x007B, Ps); (0x007C, 0x007C, Sm); (0x007D, 0x007D, Pe);
    (0x007E, 0x007E, Sm); (0x007F, 0x009F, Cc); (0x00A0, 0x00A0, Zs);
    (0x00A1, 0x00A1, Po); (0x00A2, 0x00A5, Sc); (0x00A6, 0x00A6, So);
    (0x00A7, 0x00A7, Po); (0x00A8, 0x00A8, Sk); (0x00A9, 0x00A9, So);
    (0x00AA, 0x00AA, Lo); (0x00AB, 0x00AB, Pi); (0x00AC, 0x00AC, Sm);
    (0x00AD, 0x00AD, Cf); (0x00AE, 0x00AE, So); (0x00AF, 0x00AF, Sk);
    (0x00B0, 0x00B0, So); (0x00B1, 0x00B1, Sm); (0x00B2, 0x00B3, No);
    (0x00B4, 0x00B4, Sk); (0x00B5, 0x00B5, Ll); (0x00B6, 0x00B7, Po);
    (0x00B8, 0x00B8, Sk); (0x00B9, 0x00B9, No); (0x00BA, 0x00BA, Lo);
    (0x00BB, 0x00BB, Pf); (0x00BC, 0x00BE, No); (0x00BF, 0x00BF, Po);
    (0x00C0, 0x00D6, Lu); (0x00D7, 0x00D7, Sm); (0x00D8, 0x00DE, Lu);
    (0x00DF, 0x00F6, Ll); (0x00F7, 0x00F7, Sm); (0x00F8, 0x00FF, Ll);
    (0x2000, 0x200A, Zs); (0x200B, 0x200F, Cf); (0x2010, 0x2015, Pd);
    (0x2016, 0x2017, Po); (0x2018, 0x2018, Pi); (0x2019, 0x2019, Pf);
    (0x201A, 0x201A, Ps); (0x201B, 0x201C, Pi); (0x201D, 0x201D, Pf);
    (0x201E, 0x201E, Ps); (0x201F, 0x201F, Pi); (0x2020, 0x2027, Po);
    (0x2028, 0x2028, Zl); (0x2029, 0x2029, Zp); (0x202A, 0x202E, Cf);
    (0x202F, 0x202F, Zs); (0x2030, 0x2038, Po); (0x2039, 0x2039, Pi);
    (0x203A, 0x203A, Pf); (0x203B, 0x203E, Po); (0x203F, 0x2040, Pc);
    (0x2041, 0x2043, Po); (0x2044, 0x2044, Sm); (0x2045, 0x2045, Ps);
    (0x2046, 0x2046, Pe); (0x2047, 0x2051, Po); (0x2052, 0x2052, Sm);
    (0x2053, 0x2053, Po); (0x2054, 0x2054, Pc); (0x2055, 0x205E, Po);
    (0x205F, 0x205F, Zs); (0x2060, 0x2064, Cf); (0x2066, 0x206F, Cf);
    (0xD800, 0xDFFF, Cs); (0xE000, 0xF8FF, Co) ]%Z.

Fixpoint range_lookup (cp : Z) (rs : list (Z * Z * GeneralCategory)) : GeneralCategory :=
  match rs with
  | [] => Cn
  | (lo, hi, c) :: rs' =>
      if ((lo <=? cp) && (cp <=? hi))%Z then c else range_lookup cp rs'
  end.

(** Code points outside the excerpt are reported as unassigned. *)
Definition ucd_excerpt (cp : Z) : GeneralCategory := range_lookup cp ucd_excerpt_ranges.

(* ------------------------------------------------------------------ *)
(** ** Tables and records of [nonprintable.ts] *)

Record NonPrintableMatch : Type := mkMatch {
  index : nat;
  char : jsstring;
  codePoint : Z;
  name : jsstring;
  category : jsstring
}.

Record PositionedMatch : Type := mkPositioned {
  pm_match : NonPrintableMatch;
  line : nat;
  column : nat
}.

Record NamedEntry : Type := mkNamed {
  named_name : jsstring;
  named_category : jsstring
}.

(** Property lookup on an object literal with numeric keys. *)
Fixpoint lookup {A : Type} (key : Z) (table : list (Z * A)) : option A :=
  match table with
  | [] => None
  | (k, v) :: rest => if (k =? key)%Z then Some v else lookup key rest
  end.

Definition NAMED : list (Z * NamedEntry) :=
  [ (0x00, mkNamed (lit "NULL") (lit "Cc"));
    (0x09, mkNamed (lit "TAB") (lit "Cc"));
    (0x0a, mkNamed (lit "LINE FEED") (lit "Cc"));
    (0x0d, mkNamed (lit "CARRIAGE RETURN") (lit "Cc"));
    (0x200b, mkNamed (lit "ZERO WIDTH SPACE") (lit "Cf"));
    (0x200c, mkNamed (lit "ZERO WIDTH NON-JOINER") (lit "Cf"));
    (0x200d, mkNamed (lit "ZERO WIDTH JOINER") (lit "Cf"));
    (0x00a0, mkNamed (lit "NO-BREAK SPACE") (lit "Zs"));
    (0x2028, mkNamed (lit "LINE SEPARATOR") (lit "Zl"));
    (0x2029, mkNamed (lit "PARAGRAPH SEPARATOR") (lit "Zp"));
    (0x00ad, mkNamed (lit "SOFT HYPHEN") (lit "Cf"));
    (0x061c, mkNamed (lit "ARABIC LETTER MARK") (lit "Cf"));
    (0x200e, mkNamed (lit "LEFT-TO-RIGHT MARK") (lit "Cf"));
    (0x200f, mkNamed (lit "RIGHT-TO-LEFT MARK") (lit "Cf"));
    (0x202a, mkNamed (lit "LEFT-TO-RIGHT EMBEDDING") (lit "Cf"));
    (0x202b, mkNamed (lit "RIGHT-TO-LEFT EMBEDDING") (lit "Cf"));
    (0x202c, mkNamed (lit "POP DIRECTIONAL FORMATTING") (lit "Cf"));
    (0x202d, mkNamed (lit "LEFT-TO-RIGHT OVERRIDE") (lit "Cf"));
    (0x202e, mkNamed (lit "RIGHT-TO-LEFT OVERRIDE") (lit "Cf"));
    (0x2066, mkNamed (lit "LEFT-TO-RIGHT ISOLATE") (lit "Cf"));
    (0x2067, mkNamed (lit "RIGHT-TO-LEFT ISOLATE") (lit "Cf"));
    (0x2068, mkNamed (lit "FIRST STRONG ISOLATE") (lit "Cf"));
    (0x2069, mkNamed (lit "POP DIRECTIONAL ISOLATE") (lit "Cf")) ]%Z.

Definition hex (codePoint : Z) : jsstring :=
  lit "U+" ++ padStart 4 48 (toUpperCase (toStringRadix 16 codePoint)).

(** [named?.name ?? hex(cp)] and [named?.category ?? "C*"]. *)
Definition name_of (cp : Z) : jsstring :=
  match lookup cp NAMED with
  | Some named => named_name named
  | None => hex cp
  end.

Definition category_of (cp : Z) : jsstring :=
  match lookup cp NAMED with
  | Some named => named_category named
  | None => lit "C*"
  end.

Definition classifyToken (codePoint : Z) (category : jsstring) : jsstring :=
  if (codePoint =? 0x200b)%Z then lit "token-zwsp"
  else if (codePoint =? 0x00a0)%Z then lit "token-nbsp"
  else if (codePoint =? 0x00ad)%Z then lit "token-soft"
  else if ((codePoint =? 0x200e) || (codePoint =? 0x200f) || (codePoint =? 0x202a)
           || (codePoint =? 0x202b) || (codePoint =? 0x202c) || (codePoint =? 0x202d)
           || (codePoint =? 0x202e) || (codePoint =? 0x2066) || (codePoint =? 0x2067)
           || (codePoint =? 0x2068) || (codePoint =? 0x2069))%Z then lit "token-bidi"
  else if startsWith (lit "Cc") category then lit "token-cc"
  else if startsWith (lit "Cf") category then lit "token-cf"
  else if startsWith (lit "Cs") category then lit "token-cs"
  else if startsWith (lit "Co") category then lit "token-co"
  else if startsWith (lit "Cn") category then lit "token-cn"
  else lit "token-cf".

Record CleanOptions : Type := mkOptions {
  removeCc : bool;
  removeCf : bool;
  removeCs : bool;
  removeCo : bool;
  removeCn : bool;
  preserveTab : bool;
  preserveLF : bool;
  preserveCR : bool;
  removeZWSP : bool;
  nbspToSpace : bool;
  normalizeDashes : bool;
  normalizeQuotes : bool
}.

Definition defaultCleanOptions : CleanOptions :=
  {| removeCc := true;
     removeCf := true;
     removeCs := true;
     removeCo := true;
     removeCn := true;
     preserveTab := true;
     preserveLF := true;
     preserveCR := false;
     removeZWSP := true;
     nbspToSpace := true;
     normalizeDashes := true;
     normalizeQuotes := true |}.

Definition DASH_MAP : list (Z * jsstring) :=
  [ (0x2010, lit "-"); (0x2011, lit "-"); (0x2012, lit "-");
    (0x2013, lit "-"); (0x2014, lit "-"); (0x2212, lit "-") ]%Z.

Definition QUOTE_MAP : list (Z * jsstring) :=
  [ (0x2018, lit "'"); (0x2019, lit "'"); (0x201a, lit "'");
    (0x201b, lit "'"); (0x2032, lit "'");
    (0x201c, [34]); (0x201d, [34]); (0x201e, [34]);
    (0x201f, [34]); (0x2033, [34]) ]%Z.

(** Truthiness of [MAP[cp]]: [undefined] and the empty string are falsy. *)
Definition truthy (v : option jsstring) : bool :=
  match v with
  | Some (_ :: _) => true
  | _ => false
  end.

(** The value of [MAP[cp]] where it is appended to a string. *)
Definition value_of (v : option jsstring) : jsstring :=
  match v with
  | Some s => s
  | None => lit "undefined"
  end.

(** [Map.prototype.set] on a map kept in insertion order: an existing key
    keeps its place, a new key goes last.  [Map.prototype.get] is [lookup]. *)
Fixpoint map_set {A : Type} (key : Z) (v : A) (m : list (Z * A)) : list (Z * A) :=
  match m with
  | [] => [(key, v)]
  | (k, w) :: rest =>
      if (k =? key)%Z then (k, v) :: rest else (k, w) :: map_set key v rest
  end.

(** [Array.prototype.sort] with a comparator.  The language fixes the result
    of a sort with a consistent comparator up to the order of elements that
    compare equal, and requires that order to be kept (a stable sort); the
    insertion sort below is one such sort. *)
Fixpoint sort_insert {A : Type} (cmp : A -> A -> Z) (x : A) (l : list A) : list A :=
  match l with
  | [] => [x]
  | y :: l' => if (cmp x y <? 0)%Z then x :: l else y :: sort_insert cmp x l'
  end.

Definition array_sort {A : Type} (cmp : A -> A -> Z) (l : list A) : list A :=
  fold_left (fun acc x => sort_insert cmp x acc) l [].

(** The comparator lets [a] stand before [b]. *)
Definition cmp_le {A : Type} (cmp : A -> A -> Z) (a b : A) : Prop := (cmp a b <= 0)%Z.

Record FrequencyValue : Type := mkFreqValue {
  fv_count : nat;
  fv_name : jsstring;
  fv_category : jsstring
}.

Record FrequencyEntry : Type := mkFreqEntry {
  fe_codePoint : Z;
  fe_name : jsstring;
  fe_category : jsstring;
  fe_count : nat
}.

(** The comparator [b.count - a.count || a.codePoint - b.codePoint]. *)
Definition compare_entries (a b : FrequencyEntry) : Z :=
  let by_count := (Z.of_nat (fe_count b) - Z.of_nat (fe_count a))%Z in
  if (by_count =? 0)%Z then (fe_codePoint a - fe_codePoint b)%Z else by_count.

Definition escape (s : jsstring) : jsstring :=
  replaceAll 62 (lit "&gt;") (replaceAll 60 (lit "&lt;") (replaceAll 38 (lit "&amp;") s)).

(** The tooltip of a placeholder; the dash is U+2014. *)
Definition token_title (cp : Z) (line column : nat) : jsstring :=
  name_of cp ++ lit " (" ++ hex cp ++ lit ") " ++ [0x2014%Z] ++ lit " Category "
    ++ category_of cp ++ lit " " ++ [0x2014%Z] ++ lit " at "
    ++ nat_to_jsstring line ++ lit ":" ++ nat_to_jsstring column.

(** The placeholder element emitted for a hidden code point; 34 is the
    double quote. *)
Definition token_span (cp : Z) (line column : nat) : jsstring :=
  lit "<span class=" ++ [34%Z] ++ lit "token " ++ classifyToken cp (category_of cp)
    ++ [34%Z] ++ lit " title=" ++ [34%Z] ++ escape (token_title cp line column)
    ++ [34%Z] ++ lit ">&#9676;</span>".

(** The object [findNonPrintable] builds from a match of the regular
    expression. *)
Definition match_of (m : nat * jsstring) : list NonPrintableMatch :=
  match codePointAt (snd m) 0 with
  | None => []
  | Some cp => [mkMatch (fst m) (snd m) cp (name_of cp) (category_of cp)]
  end.

(** [next === n] for [next] a number or [undefined]. *)
Definition strict_eq (next : option Z) (n : Z) : bool :=
  match next with
  | Some v => (v =? n)%Z
  | None => false
  end.

(* ------------------------------------------------------------------ *)
(** ** The position rules, over code points *)

(** The forward pass of the specification: the position reached after the
    code points [cps], from [(line, column)].  A CARRIAGE RETURN followed by
    a LINE FEED is one line break; a CARRIAGE RETURN followed by anything
    else, or by nothing, is a line break of its own. *)
Fixpoint spec_forward_pass (cps : list Z) (line column : nat) : nat * nat :=
  match cps with
  | [] => (line, column)
  | cp :: rest =>
      if (cp =? 0x0d)%Z then
        match rest with
        | nx :: rest' =>
            if (nx =? 0x0a)%Z then spec_forward_pass rest' (line + 1) 1
            else spec_forward_pass rest (line + 1) 1
        | [] => (line + 1, 1)
        end
      else if ((cp =? 0x0a) || (cp =? 0x2028) || (cp =? 0x2029))%Z then
        spec_forward_pass rest (line + 1) 1
      else spec_forward_pass rest line (column + 1)
  end.

(** The position after a code point that is not a CARRIAGE RETURN. *)
Definition advance (cp : Z) (line column : nat) : nat * nat :=
  if ((cp =? 0x0a) || (cp =? 0x2028) || (cp =? 0x2029))%Z then (line + 1, 1)
  else (line, column + 1).

(** The traversal the two position-tracking loops share, over the code
    points of the input with their indices: what each visited code point
    emits at its position, and the final position.  The LINE FEED of a
    CARRIAGE RETURN, LINE FEED pair is not visited. *)
Fixpoint walk {B : Type} (emit : nat -> Z -> nat -> nat -> B)
  (cps : list (nat * Z)) (line column : nat) : list B * nat * nat :=
  match cps with
  | [] => ([], line, column)
  | (i, cp) :: rest =>
      let '(r, l, c) :=
        if (cp =? 0x0d)%Z then
          match rest with
          | (_, nx) :: rest' =>
              if (nx =? 0x0a)%Z then walk emit rest' (line + 1) 1
              else walk emit rest (line + 1) 1
          | [] => ([], line + 1, 1)
          end
        else if ((cp =? 0x0a) || (cp =? 0x2028) || (cp =? 0x2029))%Z then
          walk emit rest (line + 1) 1
        else walk emit rest line (column + 1) in
      (emit i cp line column :: r, l, c)
  end.

(** The order [summarizeNonPrintable] sorts by: larger counts first, and
    among equal counts the smaller code point first. *)
Definition entry_before (a b : FrequencyEntry) : Prop :=
  fe_count b < fe_count a \/ (fe_count a = fe_count b /\ (fe_codePoint a < fe_codePoint b)%Z).

Definition total_count (entries : list FrequencyEntry) : nat :=
  list_sum (map fe_count entries).

(** The map of [summarizeNonPrintable] after the matched code points [seen]:
    one key per distinct code point seen, with its number of occurrences and
    its name and category. *)
Definition counts_of (seen : list Z) (freq : list (Z * FrequencyValue)) : Prop :=
  NoDup (map fst freq) /\
  forall cp,
    lookup cp freq =
    if count_occ Z.eq_dec seen cp =? 0 then None
    else Some (mkFreqValue (count_occ Z.eq_dec seen cp) (name_of cp) (category_of cp)).

(** A map entry as the object [summarizeNonPrintable] returns for it. *)
Definition entry_of (kv : Z * FrequencyValue) : FrequencyEntry :=
  mkFreqEntry (fst kv) (fv_name (snd kv)) (fv_category (snd kv)) (fv_count (snd kv)).

(** No CARRIAGE RETURN at the end of [a] meets a LINE FEED at the start of
    [b]. *)
Definition no_crlf_straddle (a b : list Z) : Prop :=
  forall a' b', a = a' ++ [0x0d%Z] -> b = 0x0a%Z :: b' -> False.

(** No CARRIAGE RETURN of the code points [cps] is immediately followed by
    a LINE FEED. *)
Definition no_crlf (cps : list Z) : Prop :=
  forall a b, cps <> a ++ 0x0d%Z :: 0x0a%Z :: b.

(** No high surrogate at the end of [a] meets a low surrogate at the start
    of [b]. *)
Definition no_pair_straddle (a b : jsstring) : Prop :=
  forall a' u v b', a = a' ++ [u] -> b = v :: b' ->
    is_high_surrogate u && is_low_surrogate v = false.

(* ------------------------------------------------------------------ *)
(** ** Inputs of the scenarios *)

(** Options with [nbspToSpace] alone set. *)
Definition nbsp_only : CleanOptions :=
  {| removeCc := false;
     removeCf := false;
     removeCs := false;
     removeCo := false;
     removeCn := false;
     preserveTab := false;
     preserveLF := false;
     preserveCR := false;
     removeZWSP := false;
     nbspToSpace := true;
     normalizeDashes := false;
     normalizeQuotes := false |}.

(** The text of the second scenario of the specification: [caf], U+00E9,
    CARRIAGE RETURN, LINE FEED, NO-BREAK SPACE, [word]. *)
Definition scenario : jsstring :=
  [0x63; 0x61; 0x66; 0xe9; 0x0d; 0x0a; 0xa0; 0x77; 0x6f; 0x72; 0x64]%Z.

(* ------------------------------------------------------------------ *)
(** ** The functions of [nonprintable.ts] *)

Section Engine.

(** The engine's Unicode data. *)
Variable general_category : Z -> GeneralCategory.

(** Membership in the class [[\p{Cc}\p{Cf}\p{Cs}\p{Co}\p{Cn}]]. *)
Definition isNonPrintable (cp : Z) : bool :=
  match general_category cp with
  | Cc | Cf | Cs | Co | Cn => true
  | _ => false
  end.

(** The end of the first code point of the class in [s], whose head has
    index [i]: with the [u] flag the search advances by code point. *)
Fixpoint first_match_end (i : nat) (s : jsstring) : option nat :=
  match s with
  | [] => None
  | u :: t =>
      match t with
      | v :: t' =>
          if is_high_surrogate u && is_low_surrogate v
          then if isNonPrintable (surrogate_pair_value u v) then Some (i + 2)
               else first_match_end (i + 2) t'
          else if isNonPrintable u then Some (i + 1) else first_match_end (i + 1) t
      | [] => if isNonPrintable u then Some (i + 1) else None
      end
  end.

(** [NON_PRINTABLE_REGEX.test(s)].  The regular expression is global, so it
    carries a [lastIndex]: the search starts there, a match moves
    [lastIndex] to its end, and a failure sets it to 0.  The result is the
    answer and the new [lastIndex]. *)
Definition NON_PRINTABLE_REGEX_test (lastIndex : nat) (s : jsstring) : bool * nat :=
  if length s <? lastIndex then (false, 0)
  else
    match first_match_end lastIndex (skipn lastIndex s) with
    | Some e => (true, e)
    | None => (false, 0)
    end.

(** [input.matchAll(NON_PRINTABLE_REGEX)], which searches with a copy of
    the regular expression, from the original's [lastIndex], 0 between the
    calls of this module: every code point of the class is a match, and a
    match carries its code-unit index and the matched text. *)
Fixpoint matchAll_from (i : nat) (s : jsstring) : list (nat * jsstring) :=
  match s with
  | [] => []
  | u :: t =>
      match t with
      | v :: t' =>
          if is_high_surrogate u && is_low_surrogate v
          then (if isNonPrintable (surrogate_pair_value u v) then [(i, [u; v])] else [])
                 ++ matchAll_from (i + 2) t'
          else (if isNonPrintable u then [(i, [u])] else []) ++ matchAll_from (i + 1) t
      | [] => if isNonPrintable u then [(i, [u])] else []
      end
  end.

Definition matchAll (input : jsstring) : list (nat * jsstring) := matchAll_from 0 input.

(** A match has an index and a text, so the guard that opens the loop body
    of the source never skips one; the text is not empty, so its
    [codePointAt(0)] is a number and the [None] branch is not taken. *)
Definition findNonPrintable (input : jsstring) : list NonPrintableMatch :=
  fold_left
    (fun matches m =>
       let char := snd m in
       match codePointAt char 0 with
       | None => matches
       | Some codePoint =>
           matches ++ [mkMatch (fst m) char codePoint (name_of codePoint) (category_of codePoint)]
       end)
    (matchAll input) [].

(** The loop of [findNonPrintableWithPositions]; the state is the loop's
    variables [i], [line], [column] and [results], and the [lastIndex] of
    [NON_PRINTABLE_REGEX].  One unit of fuel is one iteration; [i] grows at
    each one, so [length input] is enough. *)
Fixpoint scan_loop (fuel : nat) (input : jsstring) (i line column : nat)
  (results : list PositionedMatch) (lastIndex : nat)
  : list PositionedMatch * nat * nat * nat :=
  match fuel with
  | O => (results, line, column, lastIndex)
  | S fuel' =>
      if i <? length input then
        match codePointAt input i with
        | None => (results, line, column, lastIndex)
        | Some cp =>
            let ch := fromCodePoint cp in
            let '(hit, _) := NON_PRINTABLE_REGEX_test lastIndex ch in
            let results :=
              if hit
              then results ++ [mkPositioned (mkMatch i ch cp (name_of cp) (category_of cp)) line column]
              else results in
            let lastIndex := 0 in
            if (cp =? 0x0d)%Z then
              let next := codePointAt input (i + length ch) in
              if strict_eq next 0x0a then
                scan_loop fuel' input (i + length ch + length (fromCodePoint 0x0a)) (line + 1) 1
                  results lastIndex
              else
                scan_loop fuel' input (i + length ch) (line + 1) 1 results lastIndex
            else if ((cp =? 0x0a) || (cp =? 0x2028) || (cp =? 0x2029))%Z then
              scan_loop fuel' input (i + length ch) (line + 1) 1 results lastIndex
            else
              scan_loop fuel' input (i + length ch) line (column + 1) results lastIndex
        end
      else (results, line, column, lastIndex)
  end.

(** The loop from its initial state.  [NON_PRINTABLE_REGEX.lastIndex] is 0
    when a function of the module is called: it is 0 when the module is
    loaded, and every loop leaves it at 0. *)
Definition scan_run (input : jsstring) : list PositionedMatch * nat * nat * nat :=
  scan_loop (length input) input 0 1 1 [] 0.

(** The values of [line] and [column] when the loop ends. *)
Definition scan_final_position (input : jsstring) : nat * nat :=
  let '(_, line, column, _) := scan_run input in (line, column).

Definition findNonPrintableWithPositions (input : jsstring) : list PositionedMatch :=
  let '(results, _, _, _) := scan_run input in results.

(** The body of the loop of [summarizeNonPrintable] on a match [m]; the
    object [current] is updated and stored back under its key. *)
Definition summarize_step (freq : list (Z * FrequencyValue)) (m : nat * jsstring)
  : list (Z * FrequencyValue) :=
  match codePointAt (snd m) 0 with
  | None => freq
  | Some cp =>
      let current :=
        match lookup cp freq with
        | Some v => v
        | None => mkFreqValue 0 (name_of cp) (category_of cp)
        end in
      map_set cp (mkFreqValue (fv_count current + 1) (fv_name current) (fv_category current)) freq
  end.

Definition summarizeNonPrintable (input : jsstring) : list FrequencyEntry :=
  let freq := fold_left summarize_step (matchAll input) [] in
  array_sort compare_entries (map entry_of freq).

(** The loop of [visualizeWithTokens], with state [i], [line], [column],
    [result] and [count], and the [lastIndex] of [NON_PRINTABLE_REGEX]. *)
Fixpoint visualize_loop (fuel : nat) (input : jsstring) (i line column : nat)
  (result : jsstring) (count : nat) (lastIndex : nat)
  : jsstring * nat * nat * nat * nat :=
  match fuel with
  | O => (result, count, line, column, lastIndex)
  | S fuel' =>
      if i <? length input then
        match codePointAt input i with
        | None => (result, count, line, column, lastIndex)
        | Some cp =>
            let char := fromCodePoint cp in
            let '(isHidden, _) := NON_PRINTABLE_REGEX_test lastIndex char in
            let lastIndex := 0 in
            let count := if isHidden then count + 1 else count in
            let result :=
              if isHidden then result ++ token_span cp line column
              else result ++ escape char in
            if (cp =? 0x0d)%Z then
              let next := codePointAt input (i + length char) in
              if strict_eq next 0x0a then
                visualize_loop fuel' input (i + length char + length (fromCodePoint 0x0a))
                  (line + 1) 1 result count lastIndex
              else
                visualize_loop fuel' input (i + length char) (line + 1) 1 result count lastIndex
            else if ((cp =? 0x0a) || (cp =? 0x2028) || (cp =? 0x2029))%Z then
              visualize_loop fuel' input (i + length char) (line + 1) 1 result count lastIndex
            else
              visualize_loop fuel' input (i + length char) line (column + 1) result count lastIndex
        end
      else (result, count, line, column, lastIndex)
  end.

(** The loop started at a given line and column, with empty markup and no
    count: the markup, the count and the position it ends at. *)
Definition visualize_from (input : jsstring) (line column : nat)
  : jsstring * nat * nat * nat :=
  let '(result, count, line, column, _) :=
    visualize_loop (length input) input 0 line column [] 0 0 in
  (result, count, line, column).

(** The returned object [{ html: result, count }] as a pair. *)
Definition visualizeWithTokens (input : jsstring) : jsstring * nat :=
  let '(result, count, _, _) := visualize_from input 1 1 in (result, count).

(** The loop of [cleanText], with state [i] and [out], and the [lastIndex]
    of [NON_PRINTABLE_REGEX]: a successful test is followed by
    [lastIndex = 0], a failed one has set it to 0 itself. *)
Fixpoint cleanText_loop (fuel : nat) (input : jsstring) (options : CleanOptions)
  (i : nat) (out : jsstring) (lastIndex : nat) : jsstring * nat :=
  match fuel with
  | O => (out, lastIndex)
  | S fuel' =>
      if i <? length input then
        match codePointAt input i with
        | None => (out, lastIndex)
        | Some cp =>
            let ch := fromCodePoint cp in
            if nbspToSpace options && (cp =? 0x00a0)%Z then
              cleanText_loop fuel' input options (i + length ch) (out ++ lit " ") lastIndex
            else if normalizeDashes options && truthy (lookup cp DASH_MAP) then
              cleanText_loop fuel' input options (i + length ch)
                (out ++ value_of (lookup cp DASH_MAP)) lastIndex
            else if normalizeQuotes options && truthy (lookup cp QUOTE_MAP) then
              cleanText_loop fuel' input options (i + length ch)
                (out ++ value_of (lookup cp QUOTE_MAP)) lastIndex
            else if removeZWSP options && (cp =? 0x200b)%Z then
              cleanText_loop fuel' input options (i + length ch) out lastIndex
            else
              let '(hit, lastIndex) := NON_PRINTABLE_REGEX_test lastIndex ch in
              if hit then
                let lastIndex := 0 in
                let out :=
                  if (cp =? 0x09)%Z && preserveTab options then out ++ ch
                  else if (cp =? 0x0a)%Z && preserveLF options then out ++ ch
                  else if (cp =? 0x0d)%Z && preserveCR options then out ++ ch
                  else
                    let cat := category_of cp in
                    let shouldRemove :=
                      (startsWith (lit "Cc") cat && removeCc options)
                      || (startsWith (lit "Cf") cat && removeCf options)
                      || (startsWith (lit "Cs") cat && removeCs options)
                      || (startsWith (lit "Co") cat && removeCo options)
                      || (startsWith (lit "Cn") cat && removeCn options) in
                    if negb shouldRemove then out ++ ch else out in
                cleanText_loop fuel' input options (i + length ch) out lastIndex
              else
                cleanText_loop fuel' input options (i + length ch) (out ++ ch) lastIndex
        end
      else (out, lastIndex)
  end.

Definition cleanText (input : jsstring) (options : CleanOptions) : jsstring :=
  fst (cleanText_loop (length input) input options 0 [] 0).

(** *** The loops, one code point at a time *)

(** What [findNonPrintableWithPositions] pushes at a code point. *)
Definition emit_scan (i : nat) (cp : Z) (line column : nat) : list PositionedMatch :=
  if isNonPrintable cp
  then [mkPositioned (mkMatch i (fromCodePoint cp) cp (name_of cp) (category_of cp)) line column]
  else [].

(** What [findNonPrintable] pushes at a code point. *)
Definition match_at (p : nat * Z) : list NonPrintableMatch :=
  if isNonPrintable (snd p)
  then [mkMatch (fst p) (fromCodePoint (snd p)) (snd p) (name_of (snd p)) (category_of (snd p))]
  else [].

(** What [visualizeWithTokens] appends and counts at a code point. *)
Definition emit_visualize (i : nat) (cp : Z) (line column : nat) : jsstring * nat :=
  if isNonPrintable cp then (token_span cp line column, 1)
  else (escape (fromCodePoint cp), 0).

(** What [cleanText] appends at a code point. *)
Definition clean_piece (options : CleanOptions) (cp : Z) : jsstring :=
  let ch := fromCodePoint cp in
  if nbspToSpace options && (cp =? 0x00a0)%Z then lit " "
  else if normalizeDashes options && truthy (lookup cp DASH_MAP) then value_of (lookup cp DASH_MAP)
  else if normalizeQuotes options && truthy (lookup cp QUOTE_MAP) then value_of (lookup cp QUOTE_MAP)
  else if removeZWSP options && (cp =? 0x200b)%Z then []
  else if isNonPrintable cp then
    if (cp =? 0x09)%Z && preserveTab options then ch
    else if (cp =? 0x0a)%Z && preserveLF options then ch
    else if (cp =? 0x0d)%Z && preserveCR options then ch
    else
      let cat := category_of cp in
      let shouldRemove :=
        (startsWith (lit "Cc") cat && removeCc options)
        || (startsWith (lit "Cf") cat && removeCf options)
        || (startsWith (lit "Cs") cat && removeCs options)
        || (startsWith (lit "Co") cat && removeCo options)
        || (startsWith (lit "Cn") cat && removeCn options) in
      if negb shouldRemove then ch else []
  else ch.

(** The detected occurrences of a text: its code points of the class. *)
Definition occurrences (input : jsstring) : list Z :=
  filter isNonPrintable (codePoints input).

(** What [summarizeNonPrintable] does to its map at a matched code point. *)
Definition bump (freq : list (Z * FrequencyValue)) (cp : Z) : list (Z * FrequencyValue) :=
  let current :=
    match lookup cp freq with
    | Some v => v
    | None => mkFreqValue 0 (name_of cp) (category_of cp)
    end in
  map_set cp (mkFreqValue (fv_count current + 1) (fv_name current) (fv_category current)) freq.

End Engine.

(* ------------------------------------------------------------------ *)
(** ** The other functions of [nonprintable.ts] and of [page.tsx] *)

(** [String.prototype.replace] with a global regular expression and a
    replacement text without patterns: the text between the matches [ms],
    with the replacement in place of each match.  [i] is the index of the
    head of [s] in the whole text. *)
Fixpoint replace_matches (i : nat) (ms : list (nat * jsstring)) (replacement s : jsstring)
  : jsstring :=
  match ms with
  | [] => s
  | (k, text) :: ms' =>
      firstn (k - i) s ++ replacement
        ++ replace_matches (k + length text) ms' replacement (skipn (k - i + length text) s)
  end.

(** [input.replace(NON_PRINTABLE_REGEX, "")]: the search starts at index 0
    and finds the matches [matchAll] finds; [lastIndex] is 0 afterwards. *)
Definition stripNonPrintable (general_category : Z -> GeneralCategory) (input : jsstring)
  : jsstring :=
  replace_matches 0 (matchAll general_category input) [] input.

(** The loop of [positionToIndex] in [page.tsx], with state [i], [curLine]
    and [curCol]; [line] and [column] are the integers [parseInt] gave.  One
    unit of fuel is one iteration. *)
Fixpoint positionToIndex_loop (fuel : nat) (src : jsstring) (line column : Z)
  (i curLine curCol : nat) : nat :=
  match fuel with
  | O => length src
  | S fuel' =>
      if i <? length src then
        if (Z.of_nat curLine =? line)%Z && (Z.of_nat curCol =? column)%Z then i
        else
          match codePointAt src i with
          | None => length src
          | Some cp =>
              let ch := fromCodePoint cp in
              if (cp =? 0x0d)%Z then
                let next := codePointAt src (i + length ch) in
                if strict_eq next 0x0a then
                  positionToIndex_loop fuel' src line column
                    (i + (length ch + length (fromCodePoint 0x0a))) (curLine + 1) 1
                else
                  positionToIndex_loop fuel' src line column (i + length ch) (curLine + 1) 1
              else if ((cp =? 0x0a) || (cp =? 0x2028) || (cp =? 0x2029))%Z then
                positionToIndex_loop fuel' src line column (i + length ch) (curLine + 1) 1
              else
                positionToIndex_loop fuel' src line column (i + length ch) curLine (curCol + 1)
          end
      else length src
  end.

Definition positionToIndex (src : jsstring) (line column : Z) : nat :=
  if ((line <? 1) || (column <? 1))%Z then 0
  else positionToIndex_loop (length src) src line column 0 1 1.

(** The range [jumpToIndex] of [page.tsx] passes to [setSelectionRange],
    for a text of [text_length] code units. *)
Definition jumpToIndex (text_length : nat) (index length : Z) : Z * Z :=
  let start := Z.max 0 (Z.min index (Z.of_nat text_length)) in
  let end_ := Z.max start (Z.min (start + length) (Z.of_nat text_length)) in
  (start, end_).

(** *** What the properties of these functions are stated with *)

(** A code point the position-tracking loops visit: its index, the code
    point, and the line and column it is at. *)
Definition emit_visit (i : nat) (cp : Z) (line column : nat) : nat * Z * nat * nat :=
  (i, cp, line, column).

(** The code points the loops visit in a text, from line 1, column 1. *)
Definition visits (input : jsstring) : list (nat * Z * nat * nat) :=
  fst (fst (walk emit_visit (codePointsFrom 0 input) 1 1)).

(** The visit is at the line and column [positionToIndex] looks for. *)
Definition visit_at (line column : Z) (v : nat * Z * nat * nat) : bool :=
  let '(_, _, l, c) := v in ((Z.of_nat l =? line) && (Z.of_nat c =? column))%Z.

(** The index, the code point and the position of a visit. *)
Definition visit_index (v : nat * Z * nat * nat) : nat := fst (fst (fst v)).
Definition visit_code_point (v : nat * Z * nat * nat) : Z := snd (fst (fst v)).
Definition visit_position (v : nat * Z * nat * nat) : nat * nat := (snd (fst v), snd v).

(** A position comes before another. *)
Definition position_lt (p q : nat * nat) : Prop :=
  fst p < fst q \/ (fst p = fst q /\ snd p < snd q).

(** The code units [escape] writes for one code unit. *)
Definition escape_unit (u : Z) : jsstring :=
  if (u =? 38)%Z then lit "&amp;"
  else if (u =? 60)%Z then lit "&lt;"
  else if (u =? 62)%Z then lit "&gt;"
  else [u].

(** A code unit with no meaning in HTML text or in a double-quoted attribute
    value: not the double quote, the ampersand or an angle bracket. *)
Definition markup_free (u : Z) : bool :=
  negb ((u =? 34) || (u =? 38) || (u =? 60) || (u =? 62))%Z.

(** The value of a text of upper-case hexadecimal digits. *)
Definition hex_digit_value (u : Z) : Z :=
  if ((48 <=? u) && (u <=? 57))%Z then (u - 48)%Z else (u - 55)%Z.

Definition parse_hex (s : jsstring) : Z :=
  fold_left (fun acc u => (acc * 16 + hex_digit_value u)%Z) s 0%Z.

(** A decimal digit, or an upper-case hexadecimal digit. *)
Definition is_upper_hex_digit (u : Z) : bool :=
  ((48 <=? u) && (u <=? 57) || (65 <=? u) && (u <=? 70))%Z.

(** Options with every rule switched off. *)
Definition no_rule (options : CleanOptions) : bool :=
  negb (removeCc options) && negb (removeCf options) && negb (removeCs options)
  && negb (removeCo options) && negb (removeCn options) && negb (removeZWSP options)
  && negb (nbspToSpace options) && negb (normalizeDashes options)
  && negb (normalizeQuotes options).

(** The code points the smart-replace rules and the ZERO WIDTH SPACE rule
    rewrite. *)
Definition is_dash_variant (u : Z) : bool :=
  ((u =? 0x2010) || (u =? 0x2011) || (u =? 0x2012) || (u =? 0x2013) || (u =? 0x2014)
   || (u =? 0x2212))%Z.

Definition is_quote_variant (u : Z) : bool :=
  ((u =? 0x2018) || (u =? 0x2019) || (u =? 0x201a) || (u =? 0x201b) || (u =? 0x2032)
   || (u =? 0x201c) || (u =? 0x201d) || (u =? 0x201e) || (u =? 0x201f) || (u =? 0x2033))%Z.

(** The name table gives the code point a control or format category. *)
Definition named_control_or_format (cp : Z) : bool :=
  match lookup cp NAMED with
  | Some named => startsWith (lit "Cc") (named_category named)
                  || startsWith (lit "Cf") (named_category named)
  | None => false
  end.

(** The engine's table agrees with the name table on its control and
    format code points: they are in the class of [NON_PRINTABLE_REGEX]. *)
Definition named_are_hidden (general_category : Z -> GeneralCategory) : bool :=
  forallb (fun kv => negb (named_control_or_format (fst kv))
                     || isNonPrintable general_category (fst kv)) NAMED.

(** The engine's table has the surrogate code points in category Cs. *)
Definition surrogates_are_Cs (general_category : Z -> GeneralCategory) : Prop :=
  forall u, is_high_surrogate u || is_low_surrogate u = true -> general_category u = Cs.

(** A text with a letter, ZERO WIDTH SPACE, CARRIAGE RETURN, LINE FEED, a
    less-than sign and BELL, the occurrence of its ZERO WIDTH SPACE, and
    options with every rule switched off. *)
Definition sample_text : jsstring := [0x41; 0x200b; 0x0d; 0x0a; 0x3c; 0x07]%Z.

Definition sample_match : PositionedMatch :=
  mkPositioned (mkMatch 1 [0x200b%Z] 0x200b (lit "ZERO WIDTH SPACE") (lit "Cf")) 1 2.

Definition no_rules : CleanOptions :=
  {| removeCc := false;
     removeCf := false;
     removeCs := false;
     removeCo := false;
     removeCn := false;
     preserveTab := true;
     preserveLF := true;
     preserveCR := false;
     removeZWSP := false;
     nbspToSpace := false;
     normalizeDashes := false;
     normalizeQuotes := false |}.


(* ------------------------------------------------------------------ *)
(** ** UTF-16 decoding *)

Lemma jsstring_ind2 (P : jsstring -> Prop) :
  P [] -> (forall u, P [u]) ->
  (forall u v t, P t -> P (v :: t) -> P (u :: v :: t)) ->
  forall s, P s.
Proof.
  intros Hnil Hone Hstep s.
  assert (H : P s /\ forall u, P (u :: s)).
  { induction s as [|v t [IHt IHvt]].
    - split; [exact Hnil | exact Hone].
    - split; [apply IHvt | intro u; apply Hstep; [exact IHt | apply IHvt]]. }
  exact (proj1 H).
Qed.

Lemma wf_cons u s : wf_jsstring (u :: s) = true <-> is_code_unit u = true /\ wf_jsstring s = true.
Proof. unfold wf_jsstring; simpl; apply andb_true_iff. Qed.

Lemma wf_app a b : wf_jsstring (a ++ b) = true <-> wf_jsstring a = true /\ wf_jsstring b = true.
Proof. unfold wf_jsstring; rewrite forallb_app; apply andb_true_iff. Qed.

Lemma wf_skipn n s : wf_jsstring s = true -> wf_jsstring (skipn n s) = true.
Proof.
  intros H. rewrite <- (firstn_skipn n s) in H. apply wf_app in H. tauto.
Qed.

Lemma wf_firstn n s : wf_jsstring s = true -> wf_jsstring (firstn n s) = true.
Proof.
  intros H. rewrite <- (firstn_skipn n s) in H. apply wf_app in H. tauto.
Qed.

Lemma code_unit_bound u : is_code_unit u = true -> (0 <= u <= 0xFFFF)%Z.
Proof. unfold is_code_unit; intros H; apply andb_true_iff in H; lia. Qed.

Lemma surrogate_pair_range u v :
  is_high_surrogate u = true -> is_low_surrogate v = true ->
  (0x10000 <= surrogate_pair_value u v <= 0x10FFFF)%Z.
Proof.
  unfold is_high_surrogate, is_low_surrogate, surrogate_pair_value.
  intros Hu Hv. apply andb_true_iff in Hu, Hv. lia.
Qed.

Lemma fromCodePoint_pair u v :
  is_high_surrogate u = true -> is_low_surrogate v = true ->
  fromCodePoint (surrogate_pair_value u v) = [u; v].
Proof.
  intros Hu Hv. pose proof (surrogate_pair_range u v Hu Hv) as Hr.
  unfold fromCodePoint. destruct (Z.leb_spec (surrogate_pair_value u v) 0xFFFF); [lia|].
  unfold is_high_surrogate, is_low_surrogate in *. apply andb_true_iff in Hu, Hv.
  unfold surrogate_pair_value.
  replace ((u - 0xD800) * 0x400 + (v - 0xDC00) + 0x10000 - 0x10000)%Z
    with ((v - 0xDC00) + (u - 0xD800) * 0x400)%Z by lia.
  rewrite Z.div_add by lia. rewrite Z.mod_add by lia.
  rewrite Z.div_small by lia. rewrite Z.mod_small by lia.
  f_equal; [lia | f_equal; lia].
Qed.

Lemma fromCodePoint_unit u : is_code_unit u = true -> fromCodePoint u = [u].
Proof.
  intros H. apply code_unit_bound in H. unfold fromCodePoint.
  destruct (Z.leb_spec u 0xFFFF); [reflexivity | lia].
Qed.

Lemma fromCodePoint_length cp : 1 <= length (fromCodePoint cp) <= 2.
Proof. unfold fromCodePoint; destruct (cp <=? 0xFFFF)%Z; simpl; lia. Qed.

Lemma codePointAt_skipn s i : codePointAt s i = codePointAt (skipn i s) 0.
Proof.
  unfold codePointAt. rewrite !nth_error_skipn.
  rewrite Nat.add_0_r. reflexivity.
Qed.

Lemma codePointAt_beyond s i : length s <= i -> codePointAt s i = None.
Proof.
  intros H. unfold codePointAt.
  destruct (nth_error s i) eqn:E; [|reflexivity].
  assert (nth_error s i <> None) as Hn by congruence.
  apply nth_error_Some in Hn. lia.
Qed.

Lemma codePointsFrom_shift s : forall i j,
  map snd (codePointsFrom i s) = map snd (codePointsFrom j s).
Proof.
  induction s as [| u | u v t IHt IHvt] using jsstring_ind2; intros i j.
  - reflexivity.
  - reflexivity.
  - cbn [codePointsFrom].
    destruct (is_high_surrogate u && is_low_surrogate v).
    + cbn [map snd]. f_equal. apply IHt.
    + cbn [map snd]. f_equal. apply (IHvt (i + 1) (j + 1)).
Qed.

(** Unfolding the decoder at a code unit that starts no pair, and at a pair. *)
Lemma codePointsFrom_lone i u t :
  (forall v t', t = v :: t' -> is_high_surrogate u && is_low_surrogate v = false) ->
  codePointsFrom i (u :: t) = (i, u) :: codePointsFrom (i + 1) t.
Proof.
  intros H. destruct t as [|v t']; [reflexivity|].
  cbn [codePointsFrom]. rewrite (H v t' eq_refl). reflexivity.
Qed.

Lemma codePointsFrom_pair i u v t :
  is_high_surrogate u && is_low_surrogate v = true ->
  codePointsFrom i (u :: v :: t) = (i, surrogate_pair_value u v) :: codePointsFrom (i + 2) t.
Proof. intros H. cbn [codePointsFrom]. rewrite H. reflexivity. Qed.

Lemma codePoints_from i s : map snd (codePointsFrom i s) = codePoints s.
Proof. apply codePointsFrom_shift. Qed.

(** The head of a well-formed string decodes to one code point, which
    [String.fromCodePoint] turns back into the code units it came from. *)
Lemma decode_head i u t :
  wf_jsstring (u :: t) = true ->
  exists cp,
    codePointAt (u :: t) 0 = Some cp /\
    length (fromCodePoint cp) <= length (u :: t) /\
    fromCodePoint cp = firstn (length (fromCodePoint cp)) (u :: t) /\
    codePointsFrom i (u :: t) =
      (i, cp) :: codePointsFrom (i + length (fromCodePoint cp))
                   (skipn (length (fromCodePoint cp)) (u :: t)) /\
    codePoints (fromCodePoint cp) = [cp].
Proof.
  intros Hwf. apply wf_cons in Hwf as [Hu Hwf].
  unfold codePointAt. cbn [nth_error Nat.add].
  destruct t as [|v t'].
  - exists u. rewrite (fromCodePoint_unit u Hu). cbn.
    destruct (is_high_surrogate u); repeat split; auto.
  - cbn [nth_error codePointsFrom].
    destruct (is_high_surrogate u) eqn:Eh; cbn [andb].
    + destruct (is_low_surrogate v) eqn:El.
      * exists (surrogate_pair_value u v). rewrite (fromCodePoint_pair u v Eh El).
        cbn [length firstn skipn]. repeat split; auto.
        -- lia.
        -- unfold codePoints. cbn [codePointsFrom]. rewrite Eh, El. reflexivity.
      * exists u. rewrite (fromCodePoint_unit u Hu). cbn [length firstn skipn].
        repeat split; auto. lia.
    + exists u. rewrite (fromCodePoint_unit u Hu). cbn [length firstn skipn].
      repeat split; auto. lia.
Qed.

Lemma skipn_nonempty {A : Type} (s : list A) i :
  i < length s -> exists u t, skipn i s = u :: t.
Proof.
  intros H. destruct (skipn i s) as [|u t] eqn:E.
  - apply skipn_all_iff in E. lia.
  - eauto.
Qed.

(** The decoding step every loop of the source takes at index [i]. *)
Lemma decode_at s i :
  wf_jsstring s = true -> i < length s ->
  exists cp,
    codePointAt s i = Some cp /\
    1 <= length (fromCodePoint cp) /\
    i + length (fromCodePoint cp) <= length s /\
    fromCodePoint cp = firstn (length (fromCodePoint cp)) (skipn i s) /\
    codePointsFrom i (skipn i s) =
      (i, cp) :: codePointsFrom (i + length (fromCodePoint cp))
                   (skipn (i + length (fromCodePoint cp)) s) /\
    codePoints (fromCodePoint cp) = [cp].
Proof.
  intros Hwf Hi.
  destruct (skipn_nonempty s i Hi) as (u & t & E).
  pose proof (wf_skipn i s Hwf) as Hwf'. rewrite E in Hwf'.
  destruct (decode_head i u t Hwf') as (cp & H1 & H2 & H3 & H4 & H5).
  exists cp. rewrite codePointAt_skipn, E.
  repeat split; auto.
  - apply fromCodePoint_length.
  - assert (length (skipn i s) = length s - i) by apply length_skipn.
    rewrite E in H. lia.
  - rewrite H4. do 2 f_equal. rewrite <- E, skipn_skipn. f_equal. lia.
Qed.

(** What the loops see when they look one code point past a CARRIAGE
    RETURN, at index [j]. *)
Lemma lookahead s j :
  wf_jsstring s = true ->
  (strict_eq (codePointAt s j) 0x0a = true /\
   codePointsFrom j (skipn j s) = (j, 0x0a%Z) :: codePointsFrom (j + 1) (skipn (j + 1) s))
  \/ (strict_eq (codePointAt s j) 0x0a = false /\
      (codePointsFrom j (skipn j s) = [] \/
       exists cp rest, codePointsFrom j (skipn j s) = (j, cp) :: rest /\ (cp =? 0x0a)%Z = false)).
Proof.
  intros Hwf. destruct (Nat.lt_ge_cases j (length s)) as [Hj | Hj].
  - destruct (decode_at s j Hwf Hj) as (cp & Hcp & _ & _ & _ & Hcps & _).
    rewrite Hcp. cbn [strict_eq]. destruct (Z.eqb_spec cp 0x0a) as [-> | Hne].
    + left. split; [reflexivity | exact Hcps].
    + right. split; [reflexivity | right]. exists cp. eexists. split; [exact Hcps|].
      apply Z.eqb_neq; exact Hne.
  - right. rewrite codePointAt_beyond by exact Hj. split; [reflexivity | left].
    rewrite skipn_all2 by exact Hj. reflexivity.
Qed.

(* ------------------------------------------------------------------ *)
(** ** The loops of the source, by code point *)

Section Loops.

Variable general_category : Z -> GeneralCategory.

(** On the text of one code point, a test started at [lastIndex = 0] says
    whether the code point is in the class. *)
Lemma test_single cp :
  codePoints (fromCodePoint cp) = [cp] ->
  NON_PRINTABLE_REGEX_test general_category 0 (fromCodePoint cp) =
  (isNonPrintable general_category cp,
   if isNonPrintable general_category cp then length (fromCodePoint cp) else 0).
Proof.
  unfold NON_PRINTABLE_REGEX_test, fromCodePoint, codePoints.
  destruct (cp <=? 0xFFFF)%Z; cbn [length Nat.ltb Nat.leb skipn first_match_end codePointsFrom].
  - intros _. destruct (isNonPrintable general_category cp); reflexivity.
  - destruct (is_high_surrogate _ && is_low_surrogate _); cbn [map snd]; [|discriminate].
    intros [= ->]. destruct (isNonPrintable general_category cp); reflexivity.
Qed.

Lemma cleanText_loop_pieces options : forall fuel input i out,
  wf_jsstring input = true -> length input - i <= fuel ->
  cleanText_loop general_category fuel input options i out 0 =
  (out ++ flat_map (clean_piece general_category options)
            (map snd (codePointsFrom i (skipn i input))), 0).
Proof.
  induction fuel as [|fuel IH]; intros input i out Hwf Hfuel.
  - cbn. rewrite skipn_all2 by lia. cbn. rewrite app_nil_r. reflexivity.
  - cbn [cleanText_loop]. destruct (Nat.ltb_spec i (length input)) as [Hi | Hi].
    + destruct (decode_at input i Hwf Hi) as (cp & Hcp & Hn1 & Hn2 & _ & Hcps & Hrt).
      rewrite Hcp, Hcps. cbn [map snd flat_map]. cbv zeta.
      rewrite (test_single cp Hrt). unfold clean_piece at 1. cbv zeta.
      repeat match goal with
             | |- context [if ?b then _ else _] => destruct b
             end;
        cbv beta iota; rewrite IH by (auto; lia); rewrite <- ?app_assoc; reflexivity.
    + rewrite skipn_all2 by lia. cbn. rewrite app_nil_r. reflexivity.
Qed.

(** [cleanText] emits one piece per code point of its input. *)
Lemma cleanText_pieces input options :
  wf_jsstring input = true ->
  cleanText general_category input options =
  flat_map (clean_piece general_category options) (codePoints input).
Proof.
  intros Hwf. unfold cleanText.
  rewrite cleanText_loop_pieces by (auto; lia). reflexivity.
Qed.

Lemma scan_loop_walk : forall fuel input i line column results,
  wf_jsstring input = true -> length input - i <= fuel ->
  scan_loop general_category fuel input i line column results 0 =
  let '(es, l, c) := walk (emit_scan general_category)
                       (codePointsFrom i (skipn i input)) line column in
  (results ++ concat es, l, c, 0).
Proof.
  induction fuel as [|fuel IH]; intros input i line column results Hwf Hfuel.
  - cbn. rewrite skipn_all2 by lia. cbn. rewrite app_nil_r. reflexivity.
  - cbn [scan_loop]. destruct (Nat.ltb_spec i (length input)) as [Hi | Hi].
    + destruct (decode_at input i Hwf Hi) as (cp & Hcp & Hn1 & Hn2 & _ & Hcps & Hrt).
      rewrite Hcp, Hcps. cbn [walk]. cbv zeta. rewrite (test_single cp Hrt).
      cbv beta iota.
      assert (Hemit : forall es,
                 (if isNonPrintable general_category cp
                  then results ++ [mkPositioned (mkMatch i (fromCodePoint cp) cp (name_of cp) (category_of cp)) line column]
                  else results) ++ concat es =
                 results ++ concat (emit_scan general_category i cp line column :: es)).
      { intros es. unfold emit_scan. cbn [concat].
        destruct (isNonPrintable general_category cp); rewrite <- ?app_assoc; reflexivity. }
      destruct (Z.eqb_spec cp 0x0d) as [-> | Hcr].
      * change (length (fromCodePoint 13)) with 1 in *.
        change (length (fromCodePoint 10)) with 1.
        destruct (lookahead input (i + 1) Hwf) as [[Hlf Hrest] | [Hlf [Hrest | (cp' & rest' & Hrest & Hne)]]];
          rewrite Hlf, Hrest.
        -- rewrite Z.eqb_refl. rewrite IH by (auto; lia).
           destruct (walk _ _ _ _) as [[es l] c]. rewrite Hemit. reflexivity.
        -- rewrite IH by (auto; lia). rewrite Hrest. cbn [walk]. rewrite Hemit. reflexivity.
        -- rewrite Hne. rewrite IH by (auto; lia). rewrite Hrest.
           destruct (walk _ _ _ _) as [[es l] c]. rewrite Hemit. reflexivity.
      * destruct ((cp =? 10) || (cp =? 8232) || (cp =? 8233))%Z;
          rewrite IH by (auto; lia);
          destruct (walk _ _ _ _) as [[es l] c]; rewrite Hemit; reflexivity.
    + rewrite skipn_all2 by lia. cbn. rewrite app_nil_r. reflexivity.
Qed.

(** The positioned scan is the traversal of the code points of its input;
    it leaves [lastIndex] at 0. *)
Lemma scan_run_walk input :
  wf_jsstring input = true ->
  scan_run general_category input =
  let '(es, l, c) := walk (emit_scan general_category) (codePointsFrom 0 input) 1 1 in
  (concat es, l, c, 0).
Proof.
  intros Hwf. unfold scan_run. rewrite scan_loop_walk by (auto; lia).
  rewrite skipn_O. reflexivity.
Qed.

Lemma visualize_loop_walk : forall fuel input i line column result count,
  wf_jsstring input = true -> length input - i <= fuel ->
  visualize_loop general_category fuel input i line column result count 0 =
  let '(es, l, c) := walk (emit_visualize general_category)
                       (codePointsFrom i (skipn i input)) line column in
  (result ++ concat (map fst es), count + list_sum (map snd es), l, c, 0).
Proof.
  induction fuel as [|fuel IH]; intros input i line column result count Hwf Hfuel.
  - cbn. rewrite skipn_all2 by lia. cbn. rewrite app_nil_r, Nat.add_0_r. reflexivity.
  - cbn [visualize_loop]. destruct (Nat.ltb_spec i (length input)) as [Hi | Hi].
    + destruct (decode_at input i Hwf Hi) as (cp & Hcp & Hn1 & Hn2 & _ & Hcps & Hrt).
      rewrite Hcp, Hcps. cbn [walk]. cbv zeta. rewrite (test_single cp Hrt).
      cbv beta iota.
      assert (Hemit : forall (es : list (jsstring * nat)) (l c : nat),
                 ((if isNonPrintable general_category cp then result ++ token_span cp line column
                   else result ++ escape (fromCodePoint cp)) ++ concat (map fst es),
                  (if isNonPrintable general_category cp then count + 1 else count) + list_sum (map snd es), l, c, 0) =
                 (result ++ concat (map fst (emit_visualize general_category i cp line column :: es)),
                  count + list_sum (map snd (emit_visualize general_category i cp line column :: es)), l, c, 0)).
      { intros es l c. unfold emit_visualize.
        destruct (isNonPrintable general_category cp); cbn [map fst snd concat];
          unfold list_sum; cbn [fold_right Nat.add];
          rewrite <- ?app_assoc, <- ?Nat.add_assoc; reflexivity. }
      destruct (Z.eqb_spec cp 0x0d) as [-> | Hcr].
      * change (length (fromCodePoint 13)) with 1 in *.
        change (length (fromCodePoint 10)) with 1.
        destruct (lookahead input (i + 1) Hwf) as [[Hlf Hrest] | [Hlf [Hrest | (cp' & rest' & Hrest & Hne)]]];
          rewrite Hlf, Hrest.
        -- rewrite Z.eqb_refl. rewrite IH by (auto; lia).
           destruct (walk _ _ _ _) as [[es l] c]. apply Hemit.
        -- rewrite IH by (auto; lia). rewrite Hrest. cbn [walk]. apply Hemit.
        -- rewrite Hne. rewrite IH by (auto; lia). rewrite Hrest.
           destruct (walk _ _ _ _) as [[es l] c]. apply Hemit.
      * destruct ((cp =? 10) || (cp =? 8232) || (cp =? 8233))%Z;
          rewrite IH by (auto; lia);
          destruct (walk _ _ _ _) as [[es l] c]; apply Hemit.
    + rewrite skipn_all2 by lia. cbn. rewrite app_nil_r, Nat.add_0_r. reflexivity.
Qed.

(** The rendering loop is the traversal of the code points of its input. *)
Lemma visualize_from_walk input line column :
  wf_jsstring input = true ->
  visualize_from general_category input line column =
  let '(es, l, c) := walk (emit_visualize general_category)
                       (codePointsFrom 0 input) line column in
  (concat (map fst es), list_sum (map snd es), l, c).
Proof.
  intros Hwf. unfold visualize_from. rewrite visualize_loop_walk by (auto; lia).
  rewrite skipn_O. destruct (walk _ _ _ _) as [[es l] c]. reflexivity.
Qed.

End Loops.

(* ------------------------------------------------------------------ *)
(** ** The default options *)

(** C7: [defaultCleanOptions] has the five category removal flags set,
    keeps TAB and LINE FEED but not CARRIAGE RETURN, removes ZERO WIDTH
    SPACE, and has the three smart-replace flags set. *)
Theorem defaultCleanOptions_flags :
  removeCc defaultCleanOptions = true /\
  removeCf defaultCleanOptions = true /\
  removeCs defaultCleanOptions = true /\
  removeCo defaultCleanOptions = true /\
  removeCn defaultCleanOptions = true /\
  preserveTab defaultCleanOptions = true /\
  preserveLF defaultCleanOptions = true /\
  preserveCR defaultCleanOptions = false /\
  removeZWSP defaultCleanOptions = true /\
  nbspToSpace defaultCleanOptions = true /\
  normalizeDashes defaultCleanOptions = true /\
  normalizeQuotes defaultCleanOptions = true.
Proof. repeat split. Qed.

(* ------------------------------------------------------------------ *)
(** ** Cleaning *)

Section Cleaning.

Variable general_category : Z -> GeneralCategory.

Lemma isNonPrintable_Cc cp :
  general_category cp = Cc -> isNonPrintable general_category cp = true.
Proof. unfold isNonPrintable; intros ->; reflexivity. Qed.

Lemma lookup_NAMED_ascii u :
  (0x20 <= u <= 0x7E)%Z -> lookup u NAMED = None.
Proof.
  intros Hu. unfold NAMED, lookup.
  repeat match goal with
         | |- context [(?k =? u)%Z] =>
             replace (k =? u)%Z with false by (symmetry; apply Z.eqb_neq; lia)
         end.
  reflexivity.
Qed.

Lemma clean_piece_printable_ascii options u :
  (0x20 <= u <= 0x7E)%Z -> clean_piece general_category options u = [u].
Proof.
  intros Hu. unfold clean_piece, category_of. rewrite (lookup_NAMED_ascii u Hu).
  unfold DASH_MAP, QUOTE_MAP, lookup.
  repeat match goal with
         | |- context [(?k =? ?n)%Z] =>
             replace (k =? n)%Z with false by (symmetry; apply Z.eqb_neq; lia)
         end.
  cbn [truthy andb]. rewrite !andb_false_r.
  change (startsWith (lit "Cc") (lit "C*")) with false.
  change (startsWith (lit "Cf") (lit "C*")) with false.
  change (startsWith (lit "Cs") (lit "C*")) with false.
  change (startsWith (lit "Co") (lit "C*")) with false.
  change (startsWith (lit "Cn") (lit "C*")) with false.
  cbn [andb orb negb].
  assert (fromCodePoint u = [u]) as ->.
  { unfold fromCodePoint. destruct (Z.leb_spec u 0xFFFF); [reflexivity | lia]. }
  destruct (isNonPrintable general_category u); reflexivity.
Qed.

Lemma codePoints_no_high (s : jsstring) :
  Forall (fun u => is_high_surrogate u = false) s -> codePoints s = s.
Proof.
  unfold codePoints. generalize 0.
  induction s as [|u t IH]; intros n H; [reflexivity|].
  inversion H as [|? ? Hu Hrest]; subst.
  rewrite codePointsFrom_lone by (intros; rewrite Hu; reflexivity).
  cbn [map snd]. f_equal. apply IH. exact Hrest.
Qed.

Lemma cleanText_printable_ascii options s :
  Forall (fun u => (0x20 <= u <= 0x7E)%Z) s ->
  cleanText general_category s options = s.
Proof.
  intros H. rewrite cleanText_pieces.
  - rewrite codePoints_no_high.
    + induction H as [|u t Hu Ht IH]; [reflexivity|].
      cbn [flat_map]. rewrite (clean_piece_printable_ascii options u Hu), IH. reflexivity.
    + eapply Forall_impl; [|exact H]. cbv beta. intros u Hu.
      unfold is_high_surrogate. apply andb_false_iff. left. apply Z.leb_gt. lia.
  - unfold wf_jsstring. apply forallb_forall. intros u Hin.
    rewrite Forall_forall in H. specialize (H u Hin).
    unfold is_code_unit. apply andb_true_iff. split; apply Z.leb_le; lia.
Qed.

(** C9: on a string of printable ASCII code points, cleaning with the
    default options a second time changes nothing: [clean (clean s o) o]
    is [clean s o]. *)
Theorem cleanText_idempotent_printable_ascii s :
  Forall (fun u => (0x20 <= u <= 0x7E)%Z) s ->
  cleanText general_category
    (cleanText general_category s defaultCleanOptions) defaultCleanOptions =
  cleanText general_category s defaultCleanOptions.
Proof.
  intros H. rewrite !(cleanText_printable_ascii defaultCleanOptions s H).
  reflexivity.
Qed.

(** C1, at U+0001: a control character that the name table does not list
    is classified non-printable and [removeCc] is set, yet [cleanText]
    passes it through. *)
Theorem cleanText_keeps_unnamed_control :
  general_category 0x01%Z = Cc ->
  isNonPrintable general_category 0x01 = true /\
  removeCc defaultCleanOptions = true /\
  cleanText general_category [0x01%Z] defaultCleanOptions = [0x01%Z].
Proof.
  intros H. pose proof (isNonPrintable_Cc _ H) as Hnp.
  repeat split; [exact Hnp|].
  rewrite cleanText_pieces by reflexivity.
  change (codePoints [1%Z]) with [1%Z]. cbn [flat_map].
  unfold clean_piece. rewrite Hnp. reflexivity.
Qed.

End Cleaning.

Lemma cleanText_idempotent_printable_ascii_witness :
  Forall (fun u => (0x20 <= u <= 0x7E)%Z) (lit "plain text") /\
  cleanText ucd_excerpt
    (cleanText ucd_excerpt (lit "plain text") defaultCleanOptions) defaultCleanOptions =
  cleanText ucd_excerpt (lit "plain text") defaultCleanOptions.
Proof.
  assert (H : Forall (fun u => (0x20 <= u <= 0x7E)%Z) (lit "plain text")).
  { let l := eval vm_compute in (lit "plain text") in change (lit "plain text") with l.
    repeat constructor; lia. }
  split; [exact H | apply (cleanText_idempotent_printable_ascii ucd_excerpt _ H)].
Defined.

Lemma cleanText_keeps_unnamed_control_witness :
  ucd_excerpt 0x01%Z = Cc /\
  isNonPrintable ucd_excerpt 0x01 = true /\
  removeCc defaultCleanOptions = true /\
  cleanText ucd_excerpt [0x01%Z] defaultCleanOptions = [0x01%Z].
Proof.
  split; [reflexivity | apply (cleanText_keeps_unnamed_control ucd_excerpt); reflexivity].
Defined.

(* ------------------------------------------------------------------ *)
(** ** Counting code points *)

Lemma codePointCount_from i s : length (codePointsFrom i s) = codePointCount s.
Proof.
  unfold codePointCount. rewrite <- (codePoints_from i s). symmetry; apply length_map.
Qed.

Lemma codePointCount_cons2 u v t :
  codePointCount (u :: v :: t) =
  if is_high_surrogate u && is_low_surrogate v
  then 1 + codePointCount t else 1 + codePointCount (v :: t).
Proof.
  rewrite <- (codePointCount_from 0 (u :: v :: t)).
  destruct (is_high_surrogate u && is_low_surrogate v) eqn:E.
  - rewrite codePointsFrom_pair by exact E. cbn [length].
    rewrite codePointCount_from. reflexivity.
  - rewrite codePointsFrom_lone by (intros ? ? [= <- <-]; exact E). cbn [length].
    rewrite codePointCount_from. reflexivity.
Qed.

(** One more code unit in front adds at most one code point, and removes
    none. *)
Lemma codePointCount_cons (t : jsstring) : forall u,
  codePointCount t <= codePointCount (u :: t) <= 1 + codePointCount t.
Proof.
  induction t as [|v t' IH]; intros u.
  - cbn. lia.
  - rewrite codePointCount_cons2. specialize (IH v).
    destruct (is_high_surrogate u && is_low_surrogate v); lia.
Qed.

(** Concatenation can only merge code points (an unpaired high surrogate
    with an unpaired low one), never create any. *)
Lemma codePointCount_app (a : jsstring) : forall b,
  codePointCount (a ++ b) <= codePointCount a + codePointCount b.
Proof.
  induction a as [| u | u v t IHt IHvt] using jsstring_ind2; intros b.
  - cbn [app]. change (codePointCount []) with 0. lia.
  - cbn [app]. change (codePointCount [u]) with 1.
    pose proof (codePointCount_cons b u). lia.
  - change ((u :: v :: t) ++ b) with (u :: v :: (t ++ b)).
    rewrite !codePointCount_cons2.
    specialize (IHt b). specialize (IHvt b). cbn [app] in IHvt.
    destruct (is_high_surrogate u && is_low_surrogate v); lia.
Qed.

Lemma codePointCount_flat_map {A : Type} (f : A -> jsstring) (l : list A) :
  Forall (fun x => codePointCount (f x) <= 1) l ->
  codePointCount (flat_map f l) <= length l.
Proof.
  induction 1 as [|x l Hx Hl IH]; [cbn; lia|].
  cbn [flat_map length]. pose proof (codePointCount_app (f x) (flat_map f l)). lia.
Qed.

(** Every code point decoded from a well-formed string is a Unicode scalar
    value or a lone surrogate: encoding it and decoding again gives it back. *)
Lemma codePoints_roundtrip (s : jsstring) :
  wf_jsstring s = true ->
  Forall (fun cp => codePoints (fromCodePoint cp) = [cp]) (codePoints s).
Proof.
  unfold codePoints at 2. generalize 0.
  induction s as [| u | u v t IHt IHvt] using jsstring_ind2; intros n Hwf.
  - constructor.
  - apply wf_cons in Hwf as [Hu _]. cbn. constructor; [|constructor].
    rewrite (fromCodePoint_unit u Hu). reflexivity.
  - apply wf_cons in Hwf as [Hu Hwf].
    destruct (is_high_surrogate u && is_low_surrogate v) eqn:E;
      [rewrite codePointsFrom_pair by exact E
      |rewrite codePointsFrom_lone by (intros ? ? [= <- <-]; exact E)]; cbn [map snd].
    + apply andb_true_iff in E as [Eh El]. constructor.
      * rewrite (fromCodePoint_pair u v Eh El). unfold codePoints.
        rewrite codePointsFrom_pair by (rewrite Eh, El; reflexivity). reflexivity.
      * apply IHt. apply wf_cons in Hwf. tauto.
    + constructor.
      * rewrite (fromCodePoint_unit u Hu). reflexivity.
      * apply IHvt. exact Hwf.
Qed.

Lemma DASH_MAP_value cp :
  truthy (lookup cp DASH_MAP) = true -> value_of (lookup cp DASH_MAP) = lit "-".
Proof.
  unfold DASH_MAP, lookup.
  repeat match goal with
         | |- context [(?k =? cp)%Z] => destruct (k =? cp)%Z; [intros _; reflexivity|]
         end.
  discriminate.
Qed.

Lemma QUOTE_MAP_value cp :
  truthy (lookup cp QUOTE_MAP) = true ->
  value_of (lookup cp QUOTE_MAP) = lit "'" \/ value_of (lookup cp QUOTE_MAP) = [34%Z].
Proof.
  unfold QUOTE_MAP, lookup.
  repeat match goal with
         | |- context [(?k =? cp)%Z] =>
             destruct (k =? cp)%Z; [intros _; (left; reflexivity) || (right; reflexivity)|]
         end.
  discriminate.
Qed.

(** Every rule of [cleanText] emits at most one code point. *)
Lemma clean_piece_count general_category options cp :
  codePoints (fromCodePoint cp) = [cp] ->
  codePointCount (clean_piece general_category options cp) <= 1.
Proof.
  intros Hrt.
  assert (Hch : codePointCount (fromCodePoint cp) <= 1).
  { unfold codePointCount. rewrite Hrt. cbn. lia. }
  assert (Hnil : codePointCount [] <= 1) by (cbn; lia).
  unfold clean_piece.
  destruct (nbspToSpace options && (cp =? 160)%Z); [cbn; lia|].
  destruct (normalizeDashes options && truthy (lookup cp DASH_MAP)) eqn:Ed.
  { apply andb_true_iff in Ed as [_ Ed]. rewrite (DASH_MAP_value cp Ed). cbn; lia. }
  destruct (normalizeQuotes options && truthy (lookup cp QUOTE_MAP)) eqn:Eq.
  { apply andb_true_iff in Eq as [_ Eq].
    destruct (QUOTE_MAP_value cp Eq) as [-> | ->]; cbn; lia. }
  repeat match goal with
         | |- context [if ?b then _ else _] => destruct b
         end; assumption.
Qed.

(** C6: cleaning never increases the number of code points of a text. *)
Theorem cleanText_code_point_count general_category input options :
  wf_jsstring input = true ->
  codePointCount (cleanText general_category input options) <= codePointCount input.
Proof.
  intros Hwf. rewrite (cleanText_pieces general_category input options Hwf).
  unfold codePointCount at 2.
  apply codePointCount_flat_map.
  eapply Forall_impl; [|apply (codePoints_roundtrip input Hwf)].
  intros cp Hrt. apply clean_piece_count. exact Hrt.
Qed.

Lemma cleanText_code_point_count_witness :
  wf_jsstring [0xD83D; 0x200B; 0xDE00; 0x2014; 0x41]%Z = true /\
  codePointCount (cleanText ucd_excerpt [0xD83D; 0x200B; 0xDE00; 0x2014; 0x41]%Z defaultCleanOptions)
  <= codePointCount [0xD83D; 0x200B; 0xDE00; 0x2014; 0x41]%Z.
Proof.
  split; [reflexivity|].
  apply (cleanText_code_point_count ucd_excerpt [0xD83D; 0x200B; 0xDE00; 0x2014; 0x41]%Z
           defaultCleanOptions).
  reflexivity.
Defined.

(* ------------------------------------------------------------------ *)
(** ** The scanner on CARRIAGE RETURN, LINE FEED *)

Section CrLf.

Variable general_category : Z -> GeneralCategory.
Hypothesis cr_is_control : general_category 0x0d%Z = Cc.
Hypothesis lf_is_control : general_category 0x0a%Z = Cc.

(** C2, at ["\r\n"]: the frequency table counts the CARRIAGE RETURN and the
    LINE FEED, two occurrences, while the positioned scan reports the
    CARRIAGE RETURN alone. *)
Theorem summarize_counts_what_scan_skips :
  total_count (summarizeNonPrintable general_category [0x0d; 0x0a]%Z) = 2 /\
  length (findNonPrintableWithPositions general_category [0x0d; 0x0a]%Z) = 1.
Proof.
  split.
  - unfold summarizeNonPrintable, matchAll. cbn.
    unfold isNonPrintable. rewrite cr_is_control, lf_is_control. reflexivity.
  - unfold findNonPrintableWithPositions. cbn.
    unfold NON_PRINTABLE_REGEX_test, isNonPrintable. cbn.
    rewrite cr_is_control. reflexivity.
Qed.

(** C3, at ["\r\n"]: the flat list has the CARRIAGE RETURN at index 0 and
    the LINE FEED at index 1; the positioned scan, stripped of line and
    column, has the CARRIAGE RETURN only. *)
Theorem flat_list_has_what_scan_skips :
  findNonPrintable general_category [0x0d; 0x0a]%Z =
    [ mkMatch 0 [0x0d%Z] 0x0d (lit "CARRIAGE RETURN") (lit "Cc");
      mkMatch 1 [0x0a%Z] 0x0a (lit "LINE FEED") (lit "Cc") ] /\
  map pm_match (findNonPrintableWithPositions general_category [0x0d; 0x0a]%Z) =
    [ mkMatch 0 [0x0d%Z] 0x0d (lit "CARRIAGE RETURN") (lit "Cc") ].
Proof.
  split.
  - unfold findNonPrintable, matchAll. cbn.
    unfold isNonPrintable. rewrite cr_is_control, lf_is_control. reflexivity.
  - unfold findNonPrintableWithPositions. cbn.
    unfold NON_PRINTABLE_REGEX_test, isNonPrintable. cbn.
    rewrite cr_is_control. reflexivity.
Qed.

End CrLf.

(* ------------------------------------------------------------------ *)
(** ** Scenario: NO-BREAK SPACE after a line break *)

Section NbspScenario.

Variable general_category : Z -> GeneralCategory.

Hypothesis cr_is_control : general_category 0x0d%Z = Cc.
Hypothesis nbsp_is_space : general_category 0xa0%Z = Zs.
Hypothesis letters :
  Forall (fun cp => general_category cp = Ll) [0x63; 0x61; 0x66; 0xe9; 0x77; 0x6f; 0x72; 0x64]%Z.

Lemma clean_piece_nbsp_only cp :
  clean_piece general_category nbsp_only cp =
  if (cp =? 0xa0)%Z then lit " " else fromCodePoint cp.
Proof.
  unfold clean_piece, nbsp_only. cbn [nbspToSpace normalizeDashes normalizeQuotes removeZWSP
    preserveTab preserveLF preserveCR removeCc removeCf removeCs removeCo removeCn andb].
  rewrite !andb_false_r. cbn [orb negb].
  destruct (cp =? 160)%Z; [reflexivity|].
  destruct (isNonPrintable general_category cp); reflexivity.
Qed.

(** C4: on the scenario text, cleaning with [nbspToSpace] alone turns the
    NO-BREAK SPACE into a space and keeps the rest (with the default options
    the CARRIAGE RETURN goes too), and the positioned scan reports one
    occurrence, the CARRIAGE RETURN at line 1, column 5: the NO-BREAK SPACE,
    of category Zs, is not reported. *)
Theorem scan_misses_no_break_space :
  cleanText general_category scenario nbsp_only =
    [0x63; 0x61; 0x66; 0xe9; 0x0d; 0x0a; 0x20; 0x77; 0x6f; 0x72; 0x64]%Z /\
  cleanText general_category scenario defaultCleanOptions =
    [0x63; 0x61; 0x66; 0xe9; 0x0a; 0x20; 0x77; 0x6f; 0x72; 0x64]%Z /\
  findNonPrintableWithPositions general_category scenario =
    [ mkPositioned (mkMatch 4 [0x0d%Z] 0x0d (lit "CARRIAGE RETURN") (lit "Cc")) 1 5 ].
Proof.
  pose proof letters as HL.
  repeat match goal with
         | H : Forall _ (_ :: _) |- _ => inversion H; clear H; subst
         end.
  split; [|split].
  - rewrite cleanText_pieces by reflexivity.
    change (codePoints scenario) with scenario. unfold scenario. cbn [flat_map].
    rewrite !clean_piece_nbsp_only. reflexivity.
  - rewrite cleanText_pieces by reflexivity.
    change (codePoints scenario) with scenario. unfold scenario. cbn [flat_map].
    unfold clean_piece, isNonPrintable.
    repeat match goal with
           | H : general_category _ = _ |- _ => rewrite H; clear H
           end.
    cbn. destruct (general_category 10); reflexivity.
  - unfold findNonPrintableWithPositions.
    rewrite scan_run_walk by reflexivity.
    change (codePointsFrom 0 scenario) with (combine (seq 0 11) scenario).
    unfold scenario. cbn [combine seq walk Z.eqb Pos.eqb orb].
    unfold emit_scan, isNonPrintable.
    repeat match goal with
           | H : general_category _ = _ |- _ => rewrite H; clear H
           end.
    reflexivity.
Qed.

End NbspScenario.

(* ------------------------------------------------------------------ *)
(** ** Insertion-ordered maps *)

Section InsertionOrderedMap.

Context {A : Type}.

Lemma lookup_None (k : Z) (m : list (Z * A)) :
  lookup k m = None <-> ~ In k (map fst m).
Proof.
  induction m as [|[k' v] m IH]; cbn [lookup map fst In].
  - tauto.
  - destruct (Z.eqb_spec k' k).
    + split; [discriminate | intros H; exfalso; apply H; left; assumption].
    + rewrite IH. tauto.
Qed.

Lemma lookup_In (k : Z) (v : A) (m : list (Z * A)) :
  NoDup (map fst m) -> In (k, v) m -> lookup k m = Some v.
Proof.
  induction m as [|[k' v'] m IH]; cbn [lookup map fst In]; intros Hnd Hin; [contradiction|].
  inversion Hnd as [|? ? Hk' Hnd']; subst.
  destruct Hin as [[= -> ->] | Hin].
  - rewrite Z.eqb_refl. reflexivity.
  - destruct (Z.eqb_spec k' k) as [-> | Hne].
    + exfalso. apply Hk'. apply (in_map fst) in Hin. exact Hin.
    + apply IH; assumption.
Qed.

Lemma lookup_Some_In (k : Z) (v : A) (m : list (Z * A)) :
  lookup k m = Some v -> In (k, v) m.
Proof.
  induction m as [|[k' v'] m IH]; cbn [lookup In]; [discriminate|].
  destruct (Z.eqb_spec k' k) as [-> | Hne].
  - intros [= ->]. left; reflexivity.
  - intros H. right. apply IH; exact H.
Qed.

Lemma lookup_map_set_eq (k : Z) (v : A) (m : list (Z * A)) :
  lookup k (map_set k v m) = Some v.
Proof.
  induction m as [|[k' v'] m IH]; cbn [map_set lookup].
  - rewrite Z.eqb_refl. reflexivity.
  - destruct (Z.eqb_spec k' k) as [-> | Hne]; cbn [lookup].
    + rewrite Z.eqb_refl. reflexivity.
    + destruct (Z.eqb_spec k' k); [contradiction | exact IH].
Qed.

Lemma lookup_map_set_ne (k k' : Z) (v : A) (m : list (Z * A)) :
  k <> k' -> lookup k' (map_set k v m) = lookup k' m.
Proof.
  intros Hne. induction m as [|[k0 v0] m IH]; cbn [map_set lookup].
  - destruct (Z.eqb_spec k k'); [contradiction | reflexivity].
  - destruct (Z.eqb_spec k0 k) as [-> | Hne0]; cbn [lookup].
    + destruct (Z.eqb_spec k k'); [contradiction | reflexivity].
    + rewrite IH. reflexivity.
Qed.

(** Setting an existing key keeps the key order; a new key goes last. *)
Lemma map_set_keys (k : Z) (v : A) (m : list (Z * A)) :
  map fst (map_set k v m) =
  match lookup k m with
  | Some _ => map fst m
  | None => map fst m ++ [k]
  end.
Proof.
  induction m as [|[k' v'] m IH]; cbn [map_set lookup map fst app]; [reflexivity|].
  destruct (Z.eqb_spec k' k) as [-> | Hne]; cbn [map fst]; [reflexivity|].
  rewrite IH. destruct (lookup k m); reflexivity.
Qed.

Lemma map_set_NoDup (k : Z) (v : A) (m : list (Z * A)) :
  NoDup (map fst m) -> NoDup (map fst (map_set k v m)).
Proof.
  intros Hnd. rewrite map_set_keys. destruct (lookup k m) eqn:E; [exact Hnd|].
  apply lookup_None in E.
  apply NoDup_rev in Hnd. rewrite <- (rev_involutive (map fst m ++ [k])).
  apply NoDup_rev. rewrite rev_app_distr. cbn [rev app].
  constructor; [|exact Hnd]. rewrite <- in_rev. exact E.
Qed.

End InsertionOrderedMap.

(* ------------------------------------------------------------------ *)
(** ** Sorting with a comparator *)

Section Sorting.

Context {A : Type}.
Variable cmp : A -> A -> Z.

Hypothesis cmp_total : forall a b, (cmp a b < 0)%Z \/ (cmp b a <= 0)%Z.
Hypothesis cmp_trans : forall a b c, cmp_le cmp a b -> cmp_le cmp b c -> cmp_le cmp a c.

Lemma sort_insert_perm x l : Permutation (sort_insert cmp x l) (x :: l).
Proof.
  induction l as [|y l IH]; cbn [sort_insert]; [reflexivity|].
  destruct (cmp x y <? 0)%Z; [reflexivity|].
  rewrite IH. apply perm_swap.
Qed.

Lemma array_sort_perm l : Permutation (array_sort cmp l) l.
Proof.
  unfold array_sort.
  assert (H : forall acc, Permutation (fold_left (fun acc x => sort_insert cmp x acc) l acc) (acc ++ l)).
  { induction l as [|x l IH]; intros acc; cbn [fold_left].
    - rewrite app_nil_r. reflexivity.
    - rewrite IH, sort_insert_perm. apply Permutation_middle. }
  apply (H []).
Qed.

Lemma sort_insert_sorted x l :
  StronglySorted (cmp_le cmp) l -> StronglySorted (cmp_le cmp) (sort_insert cmp x l).
Proof.
  induction 1 as [|y l Hs IH Hy]; cbn [sort_insert].
  - constructor; constructor.
  - destruct (Z.ltb_spec (cmp x y) 0) as [Hlt | Hge].
    + constructor; [constructor; assumption|].
      assert (Hxy : cmp_le cmp x y) by (unfold cmp_le; lia).
      constructor; [exact Hxy|].
      eapply Forall_impl; [|exact Hy]. intros z Hz. exact (cmp_trans _ _ _ Hxy Hz).
    + constructor; [exact IH|].
      assert (Hyx : cmp_le cmp y x) by (destruct (cmp_total x y); [lia | assumption]).
      rewrite Forall_forall. intros z Hz.
      apply (Permutation_in _ (sort_insert_perm x l)) in Hz.
      destruct Hz as [<- | Hz]; [exact Hyx|].
      rewrite Forall_forall in Hy. apply Hy; exact Hz.
Qed.

Lemma array_sort_sorted l : StronglySorted (cmp_le cmp) (array_sort cmp l).
Proof.
  unfold array_sort.
  assert (H : forall acc, StronglySorted (cmp_le cmp) acc ->
                StronglySorted (cmp_le cmp) (fold_left (fun acc x => sort_insert cmp x acc) l acc)).
  { induction l as [|x l IH]; intros acc Hacc; cbn [fold_left]; [exact Hacc|].
    apply IH. apply sort_insert_sorted. exact Hacc. }
  apply H. constructor.
Qed.

End Sorting.

(* ------------------------------------------------------------------ *)
(** ** The frequency table *)

Lemma codePointAt_single u : codePointAt [u] 0 = Some u.
Proof. unfold codePointAt. cbn. destruct (is_high_surrogate u); reflexivity. Qed.

Lemma codePointAt_pair u v :
  is_high_surrogate u && is_low_surrogate v = true ->
  codePointAt [u; v] 0 = Some (surrogate_pair_value u v).
Proof.
  intros H. apply andb_true_iff in H as [Hu Hv].
  unfold codePointAt. cbn. rewrite Hu, Hv. reflexivity.
Qed.

Lemma compare_entries_total a b :
  (compare_entries a b < 0)%Z \/ (compare_entries b a <= 0)%Z.
Proof.
  unfold compare_entries. cbv zeta.
  destruct (Z.eqb_spec (Z.of_nat (fe_count b) - Z.of_nat (fe_count a)) 0);
    destruct (Z.eqb_spec (Z.of_nat (fe_count a) - Z.of_nat (fe_count b)) 0); lia.
Qed.

Lemma compare_entries_trans a b c :
  cmp_le compare_entries a b -> cmp_le compare_entries b c -> cmp_le compare_entries a c.
Proof.
  unfold cmp_le, compare_entries. cbv zeta.
  destruct (Z.eqb_spec (Z.of_nat (fe_count b) - Z.of_nat (fe_count a)) 0);
    destruct (Z.eqb_spec (Z.of_nat (fe_count c) - Z.of_nat (fe_count b)) 0);
    destruct (Z.eqb_spec (Z.of_nat (fe_count c) - Z.of_nat (fe_count a)) 0); lia.
Qed.

Lemma compare_entries_strict a b :
  cmp_le compare_entries a b -> fe_codePoint a <> fe_codePoint b -> entry_before a b.
Proof.
  unfold cmp_le, compare_entries, entry_before. cbv zeta.
  destruct (Z.eqb_spec (Z.of_nat (fe_count b) - Z.of_nat (fe_count a)) 0); lia.
Qed.

Lemma sorted_strict (l : list FrequencyEntry) :
  NoDup (map fe_codePoint l) ->
  StronglySorted (cmp_le compare_entries) l -> StronglySorted entry_before l.
Proof.
  induction 2 as [|a l Hs IH Ha]; [constructor|].
  cbn [map] in H. inversion H as [|? ? Hnotin Hnd]; subst.
  constructor; [apply IH; exact Hnd|].
  rewrite Forall_forall in *. intros b Hb.
  apply compare_entries_strict; [apply Ha; exact Hb|].
  intros Heq. apply Hnotin. rewrite Heq. apply in_map. exact Hb.
Qed.

Lemma entry_before_asym a b : entry_before a b -> entry_before b a -> False.
Proof. unfold entry_before. lia. Qed.

(** The sorted order of the entries is unique: whatever sorting algorithm
    the engine runs, it returns the list [array_sort] returns. *)
Lemma sorted_entries_unique (l1 : list FrequencyEntry) : forall l2,
  Permutation l1 l2 ->
  StronglySorted entry_before l1 -> StronglySorted entry_before l2 -> l1 = l2.
Proof.
  induction l1 as [|a l1 IH]; intros l2 Hperm Hs1 Hs2.
  - apply Permutation_nil in Hperm. subst. reflexivity.
  - destruct l2 as [|b l2].
    + apply Permutation_sym, Permutation_nil in Hperm. discriminate.
    + apply StronglySorted_inv in Hs1 as [Hs1 Ha].
      apply StronglySorted_inv in Hs2 as [Hs2 Hb].
      rewrite Forall_forall in Ha, Hb.
      assert (Hab : a = b).
      { assert (Hin_a : In a (b :: l2)) by (apply (Permutation_in _ Hperm); left; reflexivity).
        assert (Hin_b : In b (a :: l1))
          by (apply (Permutation_in _ (Permutation_sym Hperm)); left; reflexivity).
        destruct Hin_a as [-> | Hin_a]; [reflexivity|].
        destruct Hin_b as [-> | Hin_b]; [reflexivity|].
        exfalso. apply (entry_before_asym a b); [apply Ha | apply Hb]; assumption. }
      subst b. f_equal. apply IH; [|assumption|assumption].
      apply (Permutation_cons_inv Hperm).
Qed.

Section FrequencyTable.

Variable general_category : Z -> GeneralCategory.

Lemma matchAll_from_pair i u v t :
  is_high_surrogate u && is_low_surrogate v = true ->
  matchAll_from general_category i (u :: v :: t) =
  (if isNonPrintable general_category (surrogate_pair_value u v) then [(i, [u; v])] else [])
    ++ matchAll_from general_category (i + 2) t.
Proof. intros H. cbn [matchAll_from]. rewrite H. reflexivity. Qed.

Lemma matchAll_from_lone i u t :
  (forall v t', t = v :: t' -> is_high_surrogate u && is_low_surrogate v = false) ->
  matchAll_from general_category i (u :: t) =
  (if isNonPrintable general_category u then [(i, [u])] else [])
    ++ matchAll_from general_category (i + 1) t.
Proof.
  intros H. destruct t as [|v t'].
  - cbn [matchAll_from]. rewrite app_nil_r. reflexivity.
  - cbn [matchAll_from]. rewrite (H v t' eq_refl). reflexivity.
Qed.

(** The matches of [matchAll] are the code points of the class, in order. *)
Lemma matchAll_code_points (s : jsstring) : forall i,
  map (fun m => codePointAt (snd m) 0) (matchAll_from general_category i s) =
  map Some (filter (isNonPrintable general_category) (map snd (codePointsFrom i s))).
Proof.
  induction s as [| u | u v t IHt IHvt] using jsstring_ind2; intros i.
  - reflexivity.
  - cbn [matchAll_from codePointsFrom map snd filter].
    destruct (isNonPrintable general_category u); [|reflexivity].
    cbn [map snd]. rewrite codePointAt_single. reflexivity.
  - destruct (is_high_surrogate u && is_low_surrogate v) eqn:E.
    + rewrite matchAll_from_pair, codePointsFrom_pair by exact E.
      rewrite map_app. cbn [map snd filter]. rewrite IHt.
      destruct (isNonPrintable general_category (surrogate_pair_value u v)); [|reflexivity].
      cbn [map snd app]. rewrite (codePointAt_pair u v E). reflexivity.
    + rewrite matchAll_from_lone, codePointsFrom_lone by (intros ? ? [= <- <-]; exact E).
      rewrite map_app. cbn [map snd filter]. rewrite IHvt.
      destruct (isNonPrintable general_category u); [|reflexivity].
      cbn [map snd app]. rewrite codePointAt_single. reflexivity.
Qed.

Lemma summarize_fold_bump : forall (ms : list (nat * jsstring)) (cps : list Z) freq,
  map (fun m => codePointAt (snd m) 0) ms = map Some cps ->
  fold_left summarize_step ms freq = fold_left bump cps freq.
Proof.
  induction ms as [|m ms IH]; intros [|cp cps] freq H; try discriminate; [reflexivity|].
  cbn [map] in H. injection H as Hm Hrest.
  cbn [fold_left]. unfold summarize_step at 2. rewrite Hm.
  apply (IH cps). exact Hrest.
Qed.

Lemma bump_counts seen freq cp :
  counts_of seen freq -> counts_of (seen ++ [cp]) (bump freq cp).
Proof.
  intros [Hnd Hlook]. split.
  - unfold bump. apply map_set_NoDup. exact Hnd.
  - intros k. rewrite count_occ_app. cbn [count_occ].
    unfold bump. destruct (Z.eq_dec cp k) as [-> | Hne].
    + rewrite lookup_map_set_eq. rewrite (Hlook k).
      destruct (Nat.eqb_spec (count_occ Z.eq_dec seen k) 0) as [E | E].
      * rewrite E. cbn. reflexivity.
      * destruct (Nat.eqb_spec (count_occ Z.eq_dec seen k + 1) 0); [lia|].
        cbn [fv_count fv_name fv_category]. reflexivity.
    + rewrite lookup_map_set_ne by exact Hne. rewrite Nat.add_0_r. apply Hlook.
Qed.

Lemma fold_bump_counts cps : forall seen freq,
  counts_of seen freq -> counts_of (seen ++ cps) (fold_left bump cps freq).
Proof.
  induction cps as [|cp cps IH]; intros seen freq H; cbn [fold_left].
  - rewrite app_nil_r. exact H.
  - replace (seen ++ cp :: cps) with ((seen ++ [cp]) ++ cps)
      by (rewrite <- app_assoc; reflexivity).
    apply IH. apply bump_counts. exact H.
Qed.

Lemma summarize_map_counts input :
  counts_of (occurrences general_category input)
    (fold_left summarize_step (matchAll general_category input) []).
Proof.
  rewrite (summarize_fold_bump _ (occurrences general_category input)).
  - apply (fold_bump_counts _ [] []). split; [constructor | reflexivity].
  - unfold matchAll, occurrences, codePoints. apply matchAll_code_points.
Qed.

Lemma summarize_keys_NoDup input :
  NoDup (map fe_codePoint (summarizeNonPrintable general_category input)).
Proof.
  destruct (summarize_map_counts input) as [Hnd _].
  unfold summarizeNonPrintable.
  apply (Permutation_NoDup
           (l := map fe_codePoint
                   (map entry_of (fold_left summarize_step (matchAll general_category input) [])))).
  - apply Permutation_map. symmetry. apply array_sort_perm.
  - rewrite map_map. exact Hnd.
Qed.

Lemma summarize_sorted input :
  StronglySorted entry_before (summarizeNonPrintable general_category input).
Proof.
  apply sorted_strict; [apply summarize_keys_NoDup|].
  apply array_sort_sorted; [apply compare_entries_total | apply compare_entries_trans].
Qed.

(** Whatever stable or unstable sort the engine runs with the comparator,
    it returns the list the model returns. *)
Lemma summarize_any_sort input (l : list FrequencyEntry) :
  Permutation l (map entry_of (fold_left summarize_step (matchAll general_category input) [])) ->
  StronglySorted entry_before l ->
  l = summarizeNonPrintable general_category input.
Proof.
  intros Hperm Hsorted. apply sorted_entries_unique.
  - rewrite Hperm. symmetry. apply array_sort_perm.
  - exact Hsorted.
  - apply summarize_sorted.
Qed.

(** C8: [summarizeNonPrintable] returns exactly one entry per distinct
    detected code point, with its number of occurrences (and its name and
    category), and the entries are sorted by descending count, ties broken
    by ascending code point. *)
Theorem summarizeNonPrintable_spec input :
  let entries := summarizeNonPrintable general_category input in
  let occ := occurrences general_category input in
  NoDup (map fe_codePoint entries) /\
  (forall cp, In cp occ <-> In cp (map fe_codePoint entries)) /\
  (forall e, In e entries ->
     fe_count e = count_occ Z.eq_dec occ (fe_codePoint e) /\
     fe_name e = name_of (fe_codePoint e) /\
     fe_category e = category_of (fe_codePoint e)) /\
  StronglySorted entry_before entries.
Proof.
  intros entries occ.
  destruct (summarize_map_counts input) as [Hnd Hlook]. fold occ in Hlook.
  set (freq := fold_left summarize_step (matchAll general_category input) []) in *.
  assert (Hperm : Permutation entries (map entry_of freq)).
  { apply array_sort_perm. }
  assert (Hkeys : map fe_codePoint (map entry_of freq) = map fst freq).
  { rewrite map_map. reflexivity. }
  split; [apply summarize_keys_NoDup|]. split; [|split].
  - intros cp. split.
    + intros Hin.
      apply (Permutation_in _ (Permutation_map fe_codePoint (Permutation_sym Hperm))).
      rewrite Hkeys.
      destruct (in_dec Z.eq_dec cp (map fst freq)) as [Hyes | Hno]; [exact Hyes|].
      apply lookup_None in Hno. rewrite Hlook in Hno.
      apply (count_occ_In Z.eq_dec) in Hin.
      destruct (Nat.eqb_spec (count_occ Z.eq_dec occ cp) 0); [lia | discriminate].
    + intros Hin.
      apply (Permutation_in _ (Permutation_map fe_codePoint Hperm)) in Hin.
      rewrite Hkeys in Hin.
      apply (count_occ_In Z.eq_dec).
      destruct (Nat.eqb_spec (count_occ Z.eq_dec occ cp) 0) as [E | E]; [|lia].
      exfalso. apply (proj1 (lookup_None cp freq)); [|exact Hin].
      rewrite Hlook. rewrite E. reflexivity.
  - intros e He. apply (Permutation_in _ Hperm) in He.
    apply in_map_iff in He as ([k v] & <- & Hkv).
    apply (lookup_In k v freq Hnd) in Hkv. rewrite Hlook in Hkv.
    destruct (count_occ Z.eq_dec occ k =? 0); [discriminate|].
    injection Hkv as <-. cbn. auto.
  - apply summarize_sorted.
Qed.

End FrequencyTable.

(* ------------------------------------------------------------------ *)
(** ** Positions *)

Lemma list_ind2 {A : Type} (P : list A -> Prop) :
  P [] -> (forall x, P [x]) ->
  (forall x y t, P t -> P (y :: t) -> P (x :: y :: t)) ->
  forall l, P l.
Proof.
  intros Hnil Hone Hstep l.
  assert (H : P l /\ forall x, P (x :: l)).
  { induction l as [|y t [IHt IHyt]].
    - split; [exact Hnil | exact Hone].
    - split; [apply IHyt | intro x; apply Hstep; [exact IHt | apply IHyt]]. }
  exact (proj1 H).
Qed.

Section Walk.

Context {B : Type}.
Variable emit : nat -> Z -> nat -> nat -> B.

Lemma walk_crlf i j t l c :
  walk emit ((i, 0x0d%Z) :: (j, 0x0a%Z) :: t) l c =
  let '(r, l', c') := walk emit t (l + 1) 1 in (emit i 0x0d%Z l c :: r, l', c').
Proof. reflexivity. Qed.

Lemma walk_cr_other i j nx t l c :
  nx <> 0x0a%Z ->
  walk emit ((i, 0x0d%Z) :: (j, nx) :: t) l c =
  let '(r, l', c') := walk emit ((j, nx) :: t) (l + 1) 1 in (emit i 0x0d%Z l c :: r, l', c').
Proof.
  intros H. apply Z.eqb_neq in H.
  change (walk emit ((i, 13%Z) :: (j, nx) :: t) l c)
    with (let '(r, l', c') :=
            if (nx =? 10)%Z then walk emit t (l + 1) 1 else walk emit ((j, nx) :: t) (l + 1) 1 in
          (emit i 13%Z l c :: r, l', c')).
  rewrite H. reflexivity.
Qed.

Lemma walk_cr_end i l c :
  walk emit [(i, 0x0d%Z)] l c = ([emit i 0x0d%Z l c], l + 1, 1).
Proof. reflexivity. Qed.

Lemma walk_not_cr i cp t l c :
  cp <> 0x0d%Z ->
  walk emit ((i, cp) :: t) l c =
  let '(r, l', c') := walk emit t (fst (advance cp l c)) (snd (advance cp l c)) in
  (emit i cp l c :: r, l', c').
Proof.
  intros H. apply Z.eqb_neq in H.
  change (walk emit ((i, cp) :: t) l c)
    with (let '(r, l', c') :=
            if (cp =? 13)%Z then
              match t with
              | (_, nx) :: rest' =>
                  if (nx =? 10)%Z then walk emit rest' (l + 1) 1 else walk emit t (l + 1) 1
              | [] => ([], l + 1, 1)
              end
            else if ((cp =? 10) || (cp =? 8232) || (cp =? 8233))%Z then walk emit t (l + 1) 1
            else walk emit t l (c + 1) in
          (emit i cp l c :: r, l', c')).
  rewrite H. unfold advance.
  destruct ((cp =? 10) || (cp =? 8232) || (cp =? 8233))%Z; reflexivity.
Qed.

End Walk.

Lemma forward_pass_crlf t l c :
  spec_forward_pass (0x0d%Z :: 0x0a%Z :: t) l c = spec_forward_pass t (l + 1) 1.
Proof. reflexivity. Qed.

Lemma forward_pass_cr_other nx t l c :
  nx <> 0x0a%Z ->
  spec_forward_pass (0x0d%Z :: nx :: t) l c = spec_forward_pass (nx :: t) (l + 1) 1.
Proof.
  intros H. apply Z.eqb_neq in H.
  change (spec_forward_pass (13%Z :: nx :: t) l c)
    with (if (nx =? 10)%Z then spec_forward_pass t (l + 1) 1 else spec_forward_pass (nx :: t) (l + 1) 1).
  rewrite H. reflexivity.
Qed.

Lemma forward_pass_cr_end l c : spec_forward_pass [0x0d%Z] l c = (l + 1, 1).
Proof. reflexivity. Qed.

Lemma forward_pass_not_cr cp t l c :
  cp <> 0x0d%Z ->
  spec_forward_pass (cp :: t) l c = spec_forward_pass t (fst (advance cp l c)) (snd (advance cp l c)).
Proof.
  intros H. apply Z.eqb_neq in H.
  change (spec_forward_pass (cp :: t) l c)
    with (if (cp =? 13)%Z then
            match t with
            | nx :: rest' =>
                if (nx =? 10)%Z then spec_forward_pass rest' (l + 1) 1 else spec_forward_pass t (l + 1) 1
            | [] => (l + 1, 1)
            end
          else if ((cp =? 10) || (cp =? 8232) || (cp =? 8233))%Z then spec_forward_pass t (l + 1) 1
          else spec_forward_pass t l (c + 1)).
  rewrite H. unfold advance.
  destruct ((cp =? 10) || (cp =? 8232) || (cp =? 8233))%Z; reflexivity.
Qed.

Section WalkProperties.

Context {B : Type}.
Variable emit : nat -> Z -> nat -> nat -> B.

(** The traversal ends where the forward pass of the specification ends. *)
Lemma walk_position (cps : list (nat * Z)) : forall l c,
  (snd (fst (walk emit cps l c)), snd (walk emit cps l c)) = spec_forward_pass (map snd cps) l c.
Proof.
  induction cps as [| [i cp] | [i cp] [j nx] t IHt IHnt] using list_ind2; intros l c.
  - reflexivity.
  - destruct (Z.eq_dec cp 0x0d) as [-> | Hcp]; [reflexivity|].
    rewrite walk_not_cr by exact Hcp. cbn [map snd].
    rewrite forward_pass_not_cr by exact Hcp. reflexivity.
  - cbn [map snd]. destruct (Z.eq_dec cp 0x0d) as [-> | Hcp].
    + destruct (Z.eq_dec nx 0x0a) as [-> | Hnx].
      * rewrite walk_crlf, forward_pass_crlf. rewrite <- IHt.
        destruct (walk emit t (l + 1) 1) as [[r l'] c']. reflexivity.
      * rewrite walk_cr_other, forward_pass_cr_other by exact Hnx.
        change (nx :: map snd t) with (map snd ((j, nx) :: t)). rewrite <- IHnt.
        destruct (walk emit ((j, nx) :: t) (l + 1) 1) as [[r l'] c']. reflexivity.
    + rewrite walk_not_cr, forward_pass_not_cr by exact Hcp.
      change (nx :: map snd t) with (map snd ((j, nx) :: t)). rewrite <- IHnt.
      destruct (walk emit ((j, nx) :: t) _ _) as [[r l'] c']. reflexivity.
Qed.

(** Whatever the traversal emits, it emits at a code point of the input,
    at the position the forward pass reaches after the code points before
    it. *)
Lemma walk_visit (cps : list (nat * Z)) : forall l c e,
  In e (fst (fst (walk emit cps l c))) ->
  exists a i cp b l1 c1,
    cps = a ++ (i, cp) :: b /\ e = emit i cp l1 c1 /\
    spec_forward_pass (map snd a) l c = (l1, c1).
Proof.
  induction cps as [| [i cp] | [i cp] [j nx] t IHt IHnt] using list_ind2; intros l c e He.
  - contradiction.
  - assert (Hhead : e = emit i cp l c).
    { destruct (Z.eq_dec cp 0x0d) as [-> | Hcp].
      - rewrite walk_cr_end in He. destruct He as [<- | []]. reflexivity.
      - rewrite walk_not_cr in He by exact Hcp. destruct He as [<- | []]. reflexivity. }
    exists [], i, cp, [], l, c. auto.
  - assert (Hcases : e = emit i cp l c \/
                     (cp = 0x0d%Z /\ nx = 0x0a%Z /\ In e (fst (fst (walk emit t (l + 1) 1)))) \/
                     (cp = 0x0d%Z /\ nx <> 0x0a%Z /\
                      In e (fst (fst (walk emit ((j, nx) :: t) (l + 1) 1)))) \/
                     (cp <> 0x0d%Z /\
                      In e (fst (fst (walk emit ((j, nx) :: t)
                                        (fst (advance cp l c)) (snd (advance cp l c))))))).
    { destruct (Z.eq_dec cp 0x0d) as [-> | Hcp].
      - destruct (Z.eq_dec nx 0x0a) as [-> | Hnx].
        + rewrite walk_crlf in He.
          destruct (walk emit t (l + 1) 1) as [[r l'] c'].
          destruct He as [<- | He]; [left; reflexivity | right; left; auto].
        + rewrite walk_cr_other in He by exact Hnx.
          destruct (walk emit ((j, nx) :: t) (l + 1) 1) as [[r l'] c'].
          destruct He as [<- | He]; [left; reflexivity | right; right; left; auto].
      - rewrite walk_not_cr in He by exact Hcp.
        destruct (walk emit ((j, nx) :: t) _ _) as [[r l'] c'].
        destruct He as [<- | He]; [left; reflexivity | right; right; right; auto]. }
    destruct Hcases as [-> | [(-> & -> & He') | [(-> & Hnx & He') | (Hcp & He')]]].
    + exists [], i, cp, ((j, nx) :: t), l, c. auto.
    + destruct (IHt _ _ _ He') as (a & i' & cp' & b & l1 & c1 & -> & -> & Hfp).
      exists ((i, 0x0d%Z) :: (j, 0x0a%Z) :: a), i', cp', b, l1, c1.
      repeat split. cbn [map snd]. rewrite forward_pass_crlf. exact Hfp.
    + destruct (IHnt _ _ _ He') as (a & i' & cp' & b & l1 & c1 & Hsplit & -> & Hfp).
      exists ((i, 0x0d%Z) :: a), i', cp', b, l1, c1.
      rewrite Hsplit. repeat split. cbn [map snd].
      destruct a as [|[j' nx'] a'].
      * cbn in Hfp. rewrite forward_pass_cr_end. exact Hfp.
      * cbn [app] in Hsplit. injection Hsplit as <- <- _.
        cbn [map snd] in *. rewrite forward_pass_cr_other by exact Hnx. exact Hfp.
    + destruct (IHnt _ _ _ He') as (a & i' & cp' & b & l1 & c1 & Hsplit & -> & Hfp).
      exists ((i, cp) :: a), i', cp', b, l1, c1.
      rewrite Hsplit. repeat split. cbn [map snd].
      rewrite forward_pass_not_cr by exact Hcp. exact Hfp.
Qed.

End WalkProperties.

Lemma no_pair_straddle_tail u (a b : jsstring) :
  no_pair_straddle (u :: a) b -> no_pair_straddle a b.
Proof.
  intros H a' x v b' -> ->. apply (H (u :: a') x v b'); reflexivity.
Qed.

Lemma no_crlf_straddle_tail x (a b : list Z) :
  no_crlf_straddle (x :: a) b -> no_crlf_straddle a b.
Proof.
  intros H a' b' -> ->. apply (H (x :: a') b'); reflexivity.
Qed.

(** Decoding commutes with concatenation where no surrogate pair straddles
    the seam. *)
Lemma codePointsFrom_app (a : jsstring) : forall i b,
  no_pair_straddle a b ->
  codePointsFrom i (a ++ b) = codePointsFrom i a ++ codePointsFrom (i + length a) b.
Proof.
  induction a as [| u | u v t IHt IHvt] using jsstring_ind2; intros i b H.
  - cbn [app length codePointsFrom]. rewrite Nat.add_0_r. reflexivity.
  - cbn [app]. rewrite codePointsFrom_lone.
    + reflexivity.
    + intros v t' ->. apply (H [] u v t'); reflexivity.
  - change ((u :: v :: t) ++ b) with (u :: v :: (t ++ b)).
    destruct (is_high_surrogate u && is_low_surrogate v) eqn:E.
    + rewrite !codePointsFrom_pair by exact E.
      rewrite IHt by (apply (no_pair_straddle_tail v), (no_pair_straddle_tail u); exact H).
      cbn [app length]. replace (i + S (S (length t))) with (i + 2 + length t) by lia.
      reflexivity.
    + rewrite (codePointsFrom_lone i u (v :: t ++ b)), (codePointsFrom_lone i u (v :: t))
        by (intros ? ? [= <- <-]; exact E).
      change (v :: t ++ b) with ((v :: t) ++ b).
      rewrite IHvt by (apply (no_pair_straddle_tail u); exact H).
      cbn [app length]. replace (i + S (S (length t))) with (i + 1 + S (length t)) by lia.
      reflexivity.
Qed.

(** The code points before a decoded code point are the code points of the
    text before its index. *)
Lemma codePointsFrom_prefix (s : jsstring) : forall k a i cp b,
  codePointsFrom k s = a ++ (i, cp) :: b ->
  k <= i /\ map snd a = codePoints (firstn (i - k) s).
Proof.
  induction s as [| u | u v t IHt IHvt] using jsstring_ind2; intros k a i cp b H.
  - cbn in H. destruct a; discriminate.
  - cbn in H. destruct a as [|x a'].
    + injection H as <- _. rewrite Nat.sub_diag. split; [lia | reflexivity].
    + injection H as _ H. destruct a'; discriminate.
  - destruct (is_high_surrogate u && is_low_surrogate v) eqn:E.
    + rewrite codePointsFrom_pair in H by exact E. destruct a as [|x a'].
      * injection H as <- _. rewrite Nat.sub_diag. split; [lia | reflexivity].
      * injection H as <- H. destruct (IHt _ _ _ _ _ H) as [Hle Hpre]. split; [lia|].
        replace (i - k) with (S (S (i - (k + 2)))) by lia. cbn [firstn map snd].
        unfold codePoints. rewrite codePointsFrom_pair by exact E.
        cbn [map snd]. f_equal. rewrite codePoints_from. exact Hpre.
    + rewrite codePointsFrom_lone in H by (intros ? ? [= <- <-]; exact E).
      destruct a as [|x a'].
      * injection H as <- _. rewrite Nat.sub_diag. split; [lia | reflexivity].
      * injection H as <- H. destruct (IHvt _ _ _ _ _ H) as [Hle Hpre]. split; [lia|].
        replace (i - k) with (S (i - (k + 1))) by lia. cbn [firstn map snd].
        unfold codePoints. rewrite codePointsFrom_lone.
        -- cbn [map snd]. f_equal. rewrite codePoints_from. exact Hpre.
        -- intros v' t' Heq. destruct (i - (k + 1)); [discriminate|].
           cbn [firstn] in Heq. injection Heq as <- _. exact E.
Qed.

Section WalkConcatenation.

Context {B : Type}.
Variable emit : nat -> Z -> nat -> nat -> B.

(** The traversal of a concatenation is the traversal of its parts, where no
    CARRIAGE RETURN, LINE FEED pair straddles the seam. *)
Lemma walk_app (a : list (nat * Z)) : forall b l c,
  no_crlf_straddle (map snd a) (map snd b) ->
  walk emit (a ++ b) l c =
  let '(ea, l1, c1) := walk emit a l c in
  let '(eb, l2, c2) := walk emit b l1 c1 in
  (ea ++ eb, l2, c2).
Proof.
  induction a as [| [i cp] | [i cp] [j nx] t IHt IHnt] using list_ind2; intros b l c H.
  - cbn [app walk]. destruct (walk emit b l c) as [[eb l2] c2]. reflexivity.
  - cbn [app]. destruct (Z.eq_dec cp 0x0d) as [-> | Hcp].
    + rewrite walk_cr_end. destruct b as [|[j nx] b'].
      * rewrite walk_cr_end. reflexivity.
      * assert (Hnx : nx <> 0x0a%Z).
        { intros ->. apply (H [] (map snd b')); reflexivity. }
        rewrite walk_cr_other by exact Hnx.
        destruct (walk emit ((j, nx) :: b') (l + 1) 1) as [[eb l2] c2]. reflexivity.
    + rewrite (walk_not_cr emit i cp b), (walk_not_cr emit i cp []) by exact Hcp. cbn [walk].
      destruct (walk emit b _ _) as [[eb l2] c2]. reflexivity.
  - change (((i, cp) :: (j, nx) :: t) ++ b) with ((i, cp) :: (j, nx) :: (t ++ b)).
    cbn [map snd] in H.
    destruct (Z.eq_dec cp 0x0d) as [-> | Hcp].
    + destruct (Z.eq_dec nx 0x0a) as [-> | Hnx].
      * rewrite !walk_crlf.
        rewrite IHt by (apply (no_crlf_straddle_tail 10%Z), (no_crlf_straddle_tail 13%Z); exact H).
        destruct (walk emit t (l + 1) 1) as [[ea l1] c1].
        destruct (walk emit b l1 c1) as [[eb l2] c2]. reflexivity.
      * rewrite (walk_cr_other emit i j nx (t ++ b)), (walk_cr_other emit i j nx t) by exact Hnx.
        change ((j, nx) :: t ++ b) with (((j, nx) :: t) ++ b).
        rewrite IHnt by (apply (no_crlf_straddle_tail 13%Z); exact H).
        destruct (walk emit ((j, nx) :: t) (l + 1) 1) as [[ea l1] c1].
        destruct (walk emit b l1 c1) as [[eb l2] c2]. reflexivity.
    + rewrite (walk_not_cr emit i cp ((j, nx) :: t ++ b)), (walk_not_cr emit i cp ((j, nx) :: t))
        by exact Hcp.
      change ((j, nx) :: t ++ b) with (((j, nx) :: t) ++ b).
      rewrite IHnt by (apply (no_crlf_straddle_tail cp); exact H).
      destruct (walk emit ((j, nx) :: t) _ _) as [[ea l1] c1].
      destruct (walk emit b l1 c1) as [[eb l2] c2]. reflexivity.
Qed.

(** Where what is emitted does not depend on the index, the traversal
    depends on the code points only. *)
Lemma walk_indices (cps : list (nat * Z)) : forall cps' l c,
  (forall i j cp l c, emit i cp l c = emit j cp l c) ->
  map snd cps = map snd cps' ->
  walk emit cps l c = walk emit cps' l c.
Proof.
  induction cps as [| [i cp] | [i cp] [j nx] t IHt IHnt] using list_ind2;
    intros cps' l c Hemit Hmap.
  - destruct cps'; [reflexivity | discriminate].
  - destruct cps' as [|[i' cp'] [|? ?]]; try discriminate.
    cbn in Hmap. injection Hmap as <-.
    destruct (Z.eq_dec cp 0x0d) as [-> | Hcp].
    + rewrite !walk_cr_end, (Hemit i i'). reflexivity.
    + rewrite (walk_not_cr emit i cp []), (walk_not_cr emit i' cp []) by exact Hcp.
      cbn [walk]. rewrite (Hemit i i'). reflexivity.
  - destruct cps' as [|[i' cp'] [|[j' nx'] t']]; try discriminate.
    cbn [map snd] in Hmap. injection Hmap as <- <- Ht.
    assert (Hnt : map snd ((j, nx) :: t) = map snd ((j', nx) :: t')).
    { cbn [map snd]. rewrite Ht. reflexivity. }
    destruct (Z.eq_dec cp 0x0d) as [-> | Hcp].
    + destruct (Z.eq_dec nx 0x0a) as [-> | Hnx].
      * rewrite !walk_crlf, (IHt t') by assumption. rewrite (Hemit i i'). reflexivity.
      * rewrite (walk_cr_other emit i j nx t), (walk_cr_other emit i' j' nx t') by exact Hnx.
        rewrite (IHnt ((j', nx) :: t')) by assumption. rewrite (Hemit i i'). reflexivity.
    + rewrite (walk_not_cr emit i cp ((j, nx) :: t)), (walk_not_cr emit i' cp ((j', nx) :: t'))
        by exact Hcp.
      rewrite (IHnt ((j', nx) :: t')) by assumption. rewrite (Hemit i i'). reflexivity.
Qed.

End WalkConcatenation.

(** A CARRIAGE RETURN that ends the text is a line break. *)
Lemma forward_pass_trailing_cr (a : list Z) : forall l c,
  spec_forward_pass (a ++ [0x0d%Z]) l c = (fst (spec_forward_pass a l c) + 1, 1).
Proof.
  induction a as [| x | x y t IHt IHyt] using list_ind2; intros l c.
  - reflexivity.
  - cbn [app]. destruct (Z.eq_dec x 0x0d) as [-> | Hx].
    + reflexivity.
    + rewrite (forward_pass_not_cr x [13%Z]), (forward_pass_not_cr x []) by exact Hx.
      reflexivity.
  - change ((x :: y :: t) ++ [13%Z]) with (x :: y :: (t ++ [13%Z])).
    destruct (Z.eq_dec x 0x0d) as [-> | Hx].
    + destruct (Z.eq_dec y 0x0a) as [-> | Hy].
      * rewrite !forward_pass_crlf. apply IHt.
      * rewrite (forward_pass_cr_other y (t ++ [13%Z])), (forward_pass_cr_other y t) by exact Hy.
        apply (IHyt (l + 1) 1).
    + rewrite (forward_pass_not_cr x (y :: t ++ [13%Z])), (forward_pass_not_cr x (y :: t))
        by exact Hx.
      apply IHyt.
Qed.

Section ScannerPositions.

Variable general_category : Z -> GeneralCategory.

Lemma scan_final_position_forward_pass input :
  wf_jsstring input = true ->
  scan_final_position general_category input = spec_forward_pass (codePoints input) 1 1.
Proof.
  intros Hwf. unfold scan_final_position.
  rewrite scan_run_walk by exact Hwf.
  rewrite <- (codePoints_from 0 input).
  rewrite <- (walk_position (emit_scan general_category)).
  destruct (walk _ _ _ _) as [[es l] c]. reflexivity.
Qed.

(** C5: every occurrence the scan reports carries the line and column that
    the forward pass of the specification, started at line 1, column 1,
    reaches over the text before the occurrence's index; the scan itself
    ends where the forward pass over the whole text ends, and a CARRIAGE
    RETURN that ends the text is a line break. *)
Theorem scan_positions_match_forward_pass input :
  wf_jsstring input = true ->
  (forall m, In m (findNonPrintableWithPositions general_category input) ->
     spec_forward_pass (codePoints (firstn (index (pm_match m)) input)) 1 1 = (line m, column m)) /\
  scan_final_position general_category input = spec_forward_pass (codePoints input) 1 1 /\
  scan_final_position general_category (input ++ [0x0d%Z]) =
    (fst (scan_final_position general_category input) + 1, 1).
Proof.
  intros Hwf. split; [|split].
  - intros m Hm. unfold findNonPrintableWithPositions in Hm.
    rewrite scan_run_walk in Hm by exact Hwf.
    destruct (walk (emit_scan general_category) (codePointsFrom 0 input) 1 1)
      as [[es l] c] eqn:Ew.
    apply in_concat in Hm as (e & He & Hme).
    assert (He' : In e (fst (fst (walk (emit_scan general_category) (codePointsFrom 0 input) 1 1))))
      by (rewrite Ew; exact He).
    apply walk_visit in He' as (a & i & cp & b & l1 & c1 & Hsplit & -> & Hfp).
    apply codePointsFrom_prefix in Hsplit as [_ Hpre]. rewrite Nat.sub_0_r in Hpre.
    unfold emit_scan in Hme.
    destruct (isNonPrintable general_category cp); [|contradiction].
    destruct Hme as [<- | []]. cbn [pm_match index line column].
    rewrite <- Hpre. exact Hfp.
  - apply scan_final_position_forward_pass. exact Hwf.
  - assert (Hwf' : wf_jsstring (input ++ [0x0d%Z]) = true).
    { apply wf_app. split; [exact Hwf | reflexivity]. }
    rewrite !scan_final_position_forward_pass by assumption.
    assert (Hcps : codePoints (input ++ [0x0d%Z]) = codePoints input ++ [0x0d%Z]).
    { unfold codePoints. rewrite codePointsFrom_app.
      - rewrite map_app. reflexivity.
      - intros a' u v b' _ [= <- _]. apply andb_false_r. }
    rewrite Hcps. apply forward_pass_trailing_cr.
Qed.

Lemma emit_visualize_index i j cp l c :
  emit_visualize general_category i cp l c = emit_visualize general_category j cp l c.
Proof. reflexivity. Qed.

(** Where a CARRIAGE RETURN is immediately followed by a LINE FEED, the
    markup of [visualizeWithTokens] is the markup of the text before them,
    what the loop appends for the CARRIAGE RETURN, and the markup of the
    text after them, started on the next line; the count is the count
    before, one for the CARRIAGE RETURN, and the count after. *)
Lemma visualize_crlf_split pre post :
  wf_jsstring (pre ++ [0x0d; 0x0a]%Z ++ post) = true ->
  general_category 0x0d%Z = Cc ->
  let '(h1, n1, l, c) := visualize_from general_category pre 1 1 in
  let '(h2, n2, _, _) := visualize_from general_category post (l + 1) 1 in
  visualizeWithTokens general_category (pre ++ [0x0d; 0x0a]%Z ++ post) =
  (h1 ++ token_span 0x0d l c ++ h2, n1 + 1 + n2).
Proof.
  intros Hwf Hcr.
  pose proof Hwf as Hwf0. apply wf_app in Hwf0 as [Hpre Hrest].
  apply wf_app in Hrest as [_ Hpost].
  unfold visualizeWithTokens.
  rewrite (visualize_from_walk _ (pre ++ [0x0d; 0x0a]%Z ++ post)) by exact Hwf.
  rewrite (visualize_from_walk _ pre) by exact Hpre.
  assert (Hcps : codePointsFrom 0 (pre ++ [0x0d; 0x0a]%Z ++ post) =
                 codePointsFrom 0 pre ++
                 (length pre, 0x0d%Z) :: (length pre + 1, 0x0a%Z)
                   :: codePointsFrom (length pre + 1 + 1) post).
  { rewrite codePointsFrom_app by (intros a' u v b' _ [= <- _]; apply andb_false_r).
    cbn [app Nat.add].
    rewrite (codePointsFrom_lone _ 13%Z) by (intros; reflexivity).
    rewrite (codePointsFrom_lone _ 10%Z) by (intros; reflexivity).
    reflexivity. }
  rewrite Hcps.
  rewrite walk_app by (cbn [map snd]; intros a' b' _ Hb; discriminate Hb).
  destruct (walk (emit_visualize general_category) (codePointsFrom 0 pre) 1 1)
    as [[ea l] c].
  rewrite (visualize_from_walk _ post) by exact Hpost.
  rewrite walk_crlf.
  rewrite (walk_indices (emit_visualize general_category)
             (codePointsFrom (length pre + 1 + 1) post) (codePointsFrom 0 post) (l + 1) 1)
    by (auto using emit_visualize_index, codePointsFrom_shift).
  destruct (walk (emit_visualize general_category) (codePointsFrom 0 post) (l + 1) 1)
    as [[eb l2] c2].
  rewrite !map_app, concat_app, list_sum_app. cbn [map concat].
  unfold list_sum. cbn [fold_right].
  unfold emit_visualize at 1 2. rewrite (isNonPrintable_Cc general_category _ Hcr).
  cbn [fst snd]. f_equal. lia.
Qed.

End ScannerPositions.

(* ------------------------------------------------------------------ *)
(** ** Where the three views agree *)

Lemma no_crlf_tail x cps : no_crlf (x :: cps) -> no_crlf cps.
Proof. intros H a b ->. apply (H (x :: a) b). reflexivity. Qed.

Section Agreement.

Variable general_category : Z -> GeneralCategory.

(** A non-printable code point that the tables do not list is kept, whatever
    the options. *)
Lemma clean_piece_unnamed options cp :
  isNonPrintable general_category cp = true ->
  lookup cp NAMED = None -> lookup cp DASH_MAP = None -> lookup cp QUOTE_MAP = None ->
  clean_piece general_category options cp = fromCodePoint cp.
Proof.
  intros Hnp Hnamed Hdash Hquote.
  unfold clean_piece, category_of. rewrite Hnp, Hnamed, Hdash, Hquote.
  cbn [truthy]. rewrite !andb_false_r.
  assert (Hne : forall k v, lookup k NAMED = Some v -> (cp =? k)%Z = false).
  { intros k v Hk. destruct (Z.eqb_spec cp k) as [-> | _]; [congruence | reflexivity]. }
  rewrite (Hne 0xa0%Z _ eq_refl), (Hne 0x200b%Z _ eq_refl), (Hne 0x09%Z _ eq_refl),
    (Hne 0x0a%Z _ eq_refl), (Hne 0x0d%Z _ eq_refl).
  rewrite !andb_false_r. cbn [andb]. reflexivity.
Qed.

Lemma findNonPrintable_push (ms : list (nat * jsstring)) : forall acc,
  fold_left
    (fun matches m =>
       let char := snd m in
       match codePointAt char 0 with
       | None => matches
       | Some codePoint =>
           matches ++ [mkMatch (fst m) char codePoint (name_of codePoint) (category_of codePoint)]
       end) ms acc =
  acc ++ flat_map match_of ms.
Proof.
  induction ms as [|m ms IH]; intros acc; cbn [fold_left flat_map].
  - symmetry; apply app_nil_r.
  - rewrite IH. unfold match_of at 2. cbv zeta.
    destruct (codePointAt (snd m) 0); rewrite <- ?app_assoc; reflexivity.
Qed.

(** The flat list, one code point at a time. *)
Lemma findNonPrintable_flat input :
  wf_jsstring input = true ->
  findNonPrintable general_category input =
  flat_map (match_at general_category) (codePointsFrom 0 input).
Proof.
  intros Hwf. unfold findNonPrintable, matchAll. rewrite findNonPrintable_push.
  - cbn [app]. revert Hwf. generalize 0.
    induction input as [| u | u v t IHt IHvt] using jsstring_ind2; intros i Hwf.
    + reflexivity.
    + apply wf_cons in Hwf as [Hu _].
      cbn [matchAll_from codePointsFrom flat_map]. unfold match_at. cbn [fst snd].
      destruct (isNonPrintable general_category u); [|reflexivity].
      cbn [flat_map]. unfold match_of. cbn [fst snd].
      rewrite codePointAt_single, (fromCodePoint_unit u Hu). reflexivity.
    + pose proof Hwf as Hwf0. apply wf_cons in Hwf0 as [Hu Hvt].
      destruct (is_high_surrogate u && is_low_surrogate v) eqn:E.
      * rewrite matchAll_from_pair, codePointsFrom_pair by exact E.
        rewrite flat_map_app. cbn [flat_map].
        rewrite IHt by (apply wf_cons in Hvt; tauto).
        f_equal. unfold match_at. cbn [fst snd].
        destruct (isNonPrintable general_category (surrogate_pair_value u v)); [|reflexivity].
        cbn [flat_map]. unfold match_of. cbn [fst snd]. rewrite (codePointAt_pair u v E).
        apply andb_true_iff in E as [Eh El]. rewrite (fromCodePoint_pair u v Eh El).
        reflexivity.
      * rewrite matchAll_from_lone, codePointsFrom_lone by (intros ? ? [= <- <-]; exact E).
        rewrite flat_map_app. cbn [flat_map]. rewrite IHvt by exact Hvt.
        f_equal. unfold match_at. cbn [fst snd].
        destruct (isNonPrintable general_category u); [|reflexivity].
        cbn [flat_map]. unfold match_of. cbn [fst snd].
        rewrite codePointAt_single, (fromCodePoint_unit u Hu). reflexivity.
Qed.

(** Without a CARRIAGE RETURN, LINE FEED pair the traversal visits every
    code point. *)
Lemma walk_scan_no_crlf (cps : list (nat * Z)) : forall l c,
  no_crlf (map snd cps) ->
  map pm_match (concat (fst (fst (walk (emit_scan general_category) cps l c)))) =
  flat_map (match_at general_category) cps.
Proof.
  assert (Hemit : forall i cp l c,
            map pm_match (emit_scan general_category i cp l c) =
            match_at general_category (i, cp)).
  { intros i cp l c. unfold emit_scan, match_at. cbn [fst snd].
    destruct (isNonPrintable general_category cp); reflexivity. }
  induction cps as [| [i cp] | [i cp] [j nx] t IHt IHnt] using list_ind2; intros l c H.
  - reflexivity.
  - assert (E : fst (fst (walk (emit_scan general_category) [(i, cp)] l c)) =
                [emit_scan general_category i cp l c]).
    { destruct (Z.eq_dec cp 0x0d) as [-> | Hcp]; [reflexivity|].
      rewrite walk_not_cr by exact Hcp. reflexivity. }
    rewrite E. cbn [concat flat_map]. rewrite !app_nil_r. apply Hemit.
  - assert (Hnot : ~ (cp = 0x0d%Z /\ nx = 0x0a%Z)).
    { intros [-> ->]. apply (H [] (map snd t)). reflexivity. }
    assert (E : exists l' c',
               fst (fst (walk (emit_scan general_category) ((i, cp) :: (j, nx) :: t) l c)) =
               emit_scan general_category i cp l c
                 :: fst (fst (walk (emit_scan general_category) ((j, nx) :: t) l' c'))).
    { destruct (Z.eq_dec cp 0x0d) as [-> | Hcp].
      - assert (Hnx : nx <> 0x0a%Z) by (intros ->; apply Hnot; split; reflexivity).
        rewrite walk_cr_other by exact Hnx. exists (l + 1), 1.
        destruct (walk _ ((j, nx) :: t) _ _) as [[r l'] c']. reflexivity.
      - rewrite walk_not_cr by exact Hcp.
        exists (fst (advance cp l c)), (snd (advance cp l c)).
        destruct (walk _ ((j, nx) :: t) _ _) as [[r l'] c']. reflexivity. }
    destruct E as (l' & c' & ->).
    cbn [concat]. rewrite map_app, Hemit. rewrite IHnt by (apply (no_crlf_tail cp); exact H).
    reflexivity.
Qed.

(** On a text in which no CARRIAGE RETURN is immediately followed by a LINE
    FEED, the flat list is the positioned scan without its lines and
    columns. *)
Lemma flat_list_is_stripped_scan_without_crlf input :
  wf_jsstring input = true ->
  no_crlf (codePoints input) ->
  findNonPrintable general_category input =
  map pm_match (findNonPrintableWithPositions general_category input).
Proof.
  intros Hwf Hno. rewrite (findNonPrintable_flat input Hwf).
  unfold findNonPrintableWithPositions.
  rewrite scan_run_walk by exact Hwf.
  rewrite <- (walk_scan_no_crlf (codePointsFrom 0 input) 1 1)
    by (rewrite codePoints_from; exact Hno).
  destruct (walk _ _ _ _) as [[es l] c]. reflexivity.
Qed.

Lemma match_of_code_points (ms : list (nat * jsstring)) : forall cps,
  map (fun m => codePointAt (snd m) 0) ms = map Some cps ->
  map codePoint (flat_map match_of ms) = cps.
Proof.
  induction ms as [|m ms IH]; intros [|cp cps] H; try discriminate; [reflexivity|].
  cbn [map] in H. injection H as Hm Hrest.
  cbn [flat_map]. unfold match_of at 1. rewrite Hm.
  cbn [app map codePoint]. f_equal. apply (IH cps Hrest).
Qed.

(** The code points of the flat list are the detected occurrences. *)
Lemma findNonPrintable_code_points input :
  map codePoint (findNonPrintable general_category input) =
  occurrences general_category input.
Proof.
  unfold findNonPrintable. rewrite findNonPrintable_push. cbn [app].
  apply match_of_code_points.
  unfold matchAll, occurrences, codePoints. apply matchAll_code_points.
Qed.

Lemma bump_total freq cp :
  list_sum (map (fun kv => fv_count (snd kv)) (bump freq cp)) =
  list_sum (map (fun kv => fv_count (snd kv)) freq) + 1.
Proof.
  unfold bump. induction freq as [|[k w] rest IH]; cbn [lookup map_set].
  - reflexivity.
  - destruct (Z.eqb_spec k cp) as [-> | Hne].
    + unfold list_sum. cbn [map snd fv_count fold_right]. lia.
    + unfold list_sum in *. cbn [map snd fold_right]. rewrite IH. lia.
Qed.

(** The counts of the frequency table add up to the number of matches of
    the flat list. *)
Lemma summarize_counts_flat_list input :
  total_count (summarizeNonPrintable general_category input) =
  length (findNonPrintable general_category input).
Proof.
  unfold total_count, summarizeNonPrintable.
  rewrite (Permutation_list_sum
             (Permutation_map fe_count (array_sort_perm compare_entries _))).
  rewrite map_map. cbn [entry_of fe_count].
  assert (Hocc : map (fun m => codePointAt (snd m) 0) (matchAll general_category input) =
                 map Some (occurrences general_category input)).
  { unfold matchAll, occurrences, codePoints. apply matchAll_code_points. }
  rewrite (summarize_fold_bump _ _ [] Hocc).
  assert (Hsum : forall cps freq,
            list_sum (map (fun kv => fv_count (snd kv)) (fold_left bump cps freq)) =
            list_sum (map (fun kv => fv_count (snd kv)) freq) + length cps).
  { induction cps as [|cp cps IH]; intros freq; cbn [fold_left length]; [lia|].
    rewrite IH, bump_total. lia. }
  rewrite Hsum. cbn [map list_sum fold_right Nat.add].
  rewrite <- (length_map codePoint), findNonPrintable_code_points. reflexivity.
Qed.

End Agreement.

(* ------------------------------------------------------------------ *)
(** ** The scenarios of the specification, on the excerpt of the database *)

Example hex_pads_to_four_digits : hex 0x09 = lit "U+0009".
Proof. reflexivity. Qed.

Example hex_keeps_longer_numbers : hex 0x1F600 = lit "U+1F600".
Proof. reflexivity. Qed.

Example scenario_1_scan :
  findNonPrintableWithPositions ucd_excerpt [0x41; 0x200b; 0x42]%Z =
  [ mkPositioned (mkMatch 1 [0x200b%Z] 0x200b (lit "ZERO WIDTH SPACE") (lit "Cf")) 1 2 ].
Proof. reflexivity. Qed.

Example scenario_1_clean :
  cleanText ucd_excerpt [0x41; 0x200b; 0x42]%Z defaultCleanOptions = [0x41; 0x42]%Z.
Proof. reflexivity. Qed.

Example scenario_3_dashes :
  cleanText ucd_excerpt (lit "2020" ++ [0x2014%Z] ++ lit "2021") defaultCleanOptions =
  lit "2020-2021".
Proof. reflexivity. Qed.

Example scenario_4_quotes :
  cleanText ucd_excerpt (lit "He said " ++ [0x201c%Z] ++ lit "hello" ++ [0x201d%Z])
    defaultCleanOptions =
  lit "He said " ++ [34%Z] ++ lit "hello" ++ [34%Z].
Proof. reflexivity. Qed.

Example scenario_5_tab_and_line_feed_kept :
  cleanText ucd_excerpt [0x09; 0x0a]%Z defaultCleanOptions = [0x09; 0x0a]%Z.
Proof. reflexivity. Qed.

Example scenario_5_tab_removed :
  cleanText ucd_excerpt [0x09; 0x0a]%Z
    {| removeCc := true; removeCf := true; removeCs := true; removeCo := true;
       removeCn := true; preserveTab := false; preserveLF := true; preserveCR := false;
       removeZWSP := true; nbspToSpace := true; normalizeDashes := true;
       normalizeQuotes := true |} = [0x0a%Z].
Proof. reflexivity. Qed.

Example scenario_6_empty options :
  findNonPrintableWithPositions ucd_excerpt [] = [] /\
  summarizeNonPrintable ucd_excerpt [] = [] /\
  visualizeWithTokens ucd_excerpt [] = ([], 0) /\
  cleanText ucd_excerpt [] options = [].
Proof. repeat split. Qed.

Example visualize_escapes_markup :
  visualizeWithTokens ucd_excerpt (lit "a<b&c>") = (lit "a&lt;b&amp;c&gt;", 0).
Proof. reflexivity. Qed.

Example summarize_orders_by_count_then_code_point :
  map (fun e => (fe_codePoint e, fe_count e))
    (summarizeNonPrintable ucd_excerpt [0x200b; 0x09; 0x00; 0x200b; 0x09; 0x0d]%Z) =
  [(0x09%Z, 2); (0x200b%Z, 2); (0x00%Z, 1); (0x0d%Z, 1)].
Proof. reflexivity. Qed.

(* ------------------------------------------------------------------ *)
(** ** The theorems on concrete texts *)

Lemma summarize_counts_what_scan_skips_witness :
  ucd_excerpt 0x0d%Z = Cc /\ ucd_excerpt 0x0a%Z = Cc /\
  total_count (summarizeNonPrintable ucd_excerpt [0x0d; 0x0a]%Z) = 2 /\
  length (findNonPrintableWithPositions ucd_excerpt [0x0d; 0x0a]%Z) = 1.
Proof.
  split; [reflexivity|]. split; [reflexivity|].
  apply (summarize_counts_what_scan_skips ucd_excerpt); reflexivity.
Defined.

Lemma flat_list_has_what_scan_skips_witness :
  ucd_excerpt 0x0d%Z = Cc /\ ucd_excerpt 0x0a%Z = Cc /\
  findNonPrintable ucd_excerpt [0x0d; 0x0a]%Z =
    [ mkMatch 0 [0x0d%Z] 0x0d (lit "CARRIAGE RETURN") (lit "Cc");
      mkMatch 1 [0x0a%Z] 0x0a (lit "LINE FEED") (lit "Cc") ] /\
  map pm_match (findNonPrintableWithPositions ucd_excerpt [0x0d; 0x0a]%Z) =
    [ mkMatch 0 [0x0d%Z] 0x0d (lit "CARRIAGE RETURN") (lit "Cc") ].
Proof.
  split; [reflexivity|]. split; [reflexivity|].
  apply (flat_list_has_what_scan_skips ucd_excerpt); reflexivity.
Defined.

Lemma scan_misses_no_break_space_witness :
  ucd_excerpt 0x0d%Z = Cc /\ ucd_excerpt 0xa0%Z = Zs /\
  Forall (fun cp => ucd_excerpt cp = Ll) [0x63; 0x61; 0x66; 0xe9; 0x77; 0x6f; 0x72; 0x64]%Z /\
  cleanText ucd_excerpt scenario nbsp_only =
    [0x63; 0x61; 0x66; 0xe9; 0x0d; 0x0a; 0x20; 0x77; 0x6f; 0x72; 0x64]%Z /\
  cleanText ucd_excerpt scenario defaultCleanOptions =
    [0x63; 0x61; 0x66; 0xe9; 0x0a; 0x20; 0x77; 0x6f; 0x72; 0x64]%Z /\
  findNonPrintableWithPositions ucd_excerpt scenario =
    [ mkPositioned (mkMatch 4 [0x0d%Z] 0x0d (lit "CARRIAGE RETURN") (lit "Cc")) 1 5 ].
Proof.
  assert (HL : Forall (fun cp => ucd_excerpt cp = Ll)
                 [0x63; 0x61; 0x66; 0xe9; 0x77; 0x6f; 0x72; 0x64]%Z)
    by (repeat constructor).
  split; [reflexivity|]. split; [reflexivity|]. split; [exact HL|].
  apply (scan_misses_no_break_space ucd_excerpt); [reflexivity | reflexivity | exact HL].
Defined.

Lemma scan_positions_match_forward_pass_witness :
  wf_jsstring [0x41; 0x0d; 0x0a; 0x200b; 0x0d; 0x200b]%Z = true /\
  (forall m,
     In m (findNonPrintableWithPositions ucd_excerpt [0x41; 0x0d; 0x0a; 0x200b; 0x0d; 0x200b]%Z) ->
     spec_forward_pass
       (codePoints (firstn (index (pm_match m)) [0x41; 0x0d; 0x0a; 0x200b; 0x0d; 0x200b]%Z)) 1 1 =
     (line m, column m)) /\
  scan_final_position ucd_excerpt [0x41; 0x0d; 0x0a; 0x200b; 0x0d; 0x200b]%Z =
    spec_forward_pass (codePoints [0x41; 0x0d; 0x0a; 0x200b; 0x0d; 0x200b]%Z) 1 1 /\
  scan_final_position ucd_excerpt ([0x41; 0x0d; 0x0a; 0x200b; 0x0d; 0x200b]%Z ++ [0x0d%Z]) =
    (fst (scan_final_position ucd_excerpt [0x41; 0x0d; 0x0a; 0x200b; 0x0d; 0x200b]%Z) + 1, 1).
Proof.
  split; [reflexivity|].
  apply (scan_positions_match_forward_pass ucd_excerpt
           [0x41; 0x0d; 0x0a; 0x200b; 0x0d; 0x200b]%Z).
  reflexivity.
Defined.

(* ------------------------------------------------------------------ *)
(** ** The visited code points *)

Lemma walk_map {B C : Type} (f : B -> C) (emit : nat -> Z -> nat -> nat -> B)
  (cps : list (nat * Z)) : forall l c,
  walk (fun i cp l c => f (emit i cp l c)) cps l c =
  let '(es, l', c') := walk emit cps l c in (map f es, l', c').
Proof.
  induction cps as [| [i cp] | [i cp] [j nx] t IHt IHnt] using list_ind2; intros l c.
  - reflexivity.
  - destruct (Z.eq_dec cp 0x0d) as [-> | Hcp]; [reflexivity|].
    rewrite !walk_not_cr by exact Hcp. reflexivity.
  - destruct (Z.eq_dec cp 0x0d) as [-> | Hcp].
    + destruct (Z.eq_dec nx 0x0a) as [-> | Hnx].
      * rewrite !walk_crlf, IHt. destruct (walk emit t (l + 1) 1) as [[es l'] c']. reflexivity.
      * rewrite (walk_cr_other (fun i cp l c => f (emit i cp l c)) i j nx t),
          (walk_cr_other emit i j nx t) by exact Hnx.
        rewrite IHnt. destruct (walk emit ((j, nx) :: t) (l + 1) 1) as [[es l'] c']. reflexivity.
    + rewrite (walk_not_cr (fun i cp l c => f (emit i cp l c)) i cp ((j, nx) :: t)),
        (walk_not_cr emit i cp ((j, nx) :: t)) by exact Hcp.
      rewrite IHnt. destruct (walk emit ((j, nx) :: t) _ _) as [[es l'] c']. reflexivity.
Qed.

(** The forward pass never goes back, and keeps columns at 1 or more. *)
Lemma forward_pass_monotone (cps : list Z) : forall l c l1 c1,
  spec_forward_pass cps l c = (l1, c1) ->
  (l < l1 \/ (l = l1 /\ c <= c1)) /\ (1 <= c -> 1 <= c1).
Proof.
  induction cps as [| x | x y t IHt IHyt] using list_ind2; intros l c l1 c1 H.
  - cbn in H. injection H as <- <-. lia.
  - destruct (Z.eq_dec x 0x0d) as [-> | Hx].
    + rewrite forward_pass_cr_end in H. injection H as <- <-. lia.
    + rewrite forward_pass_not_cr in H by exact Hx. cbn in H. unfold advance in H.
      destruct ((x =? 10) || (x =? 8232) || (x =? 8233))%Z;
        cbn in H; injection H as <- <-; lia.
  - destruct (Z.eq_dec x 0x0d) as [-> | Hx].
    + destruct (Z.eq_dec y 0x0a) as [-> | Hy].
      * rewrite forward_pass_crlf in H. apply IHt in H. lia.
      * rewrite forward_pass_cr_other in H by exact Hy. apply IHyt in H. lia.
    + rewrite forward_pass_not_cr in H by exact Hx. apply IHyt in H.
      unfold advance in H.
      destruct ((x =? 10) || (x =? 8232) || (x =? 8233))%Z; cbn [fst snd] in H; lia.
Qed.

(** One step of the forward pass goes strictly forward. *)
Lemma forward_pass_progress x (cps : list Z) l c l1 c1 :
  spec_forward_pass (x :: cps) l c = (l1, c1) ->
  position_lt (l, c) (l1, c1).
Proof.
  intros H. unfold position_lt. cbn [fst snd].
  destruct (Z.eq_dec x 0x0d) as [-> | Hx].
  - destruct cps as [|y t].
    + rewrite forward_pass_cr_end in H. injection H as <- <-. lia.
    + destruct (Z.eq_dec y 0x0a) as [-> | Hy].
      * rewrite forward_pass_crlf in H. apply forward_pass_monotone in H. lia.
      * rewrite forward_pass_cr_other in H by exact Hy. apply forward_pass_monotone in H. lia.
  - rewrite forward_pass_not_cr in H by exact Hx. apply forward_pass_monotone in H.
    unfold advance in H.
    destruct ((x =? 10) || (x =? 8232) || (x =? 8233))%Z; cbn [fst snd] in H; lia.
Qed.

(** One iteration of the position-tracking loops: the code point at the
    head is visited, and the traversal goes on, strictly further, at the
    next code point or, after a CARRIAGE RETURN, LINE FEED pair, at the one
    after. *)
Lemma walk_step {B : Type} (emit : nat -> Z -> nat -> nat -> B) i cp rest l c :
  exists rest' l' c',
    position_lt (l, c) (l', c') /\ 1 <= c' /\
    (rest' = rest \/ exists x, rest = x :: rest') /\
    walk emit ((i, cp) :: rest) l c =
    let '(r, lf, cf) := walk emit rest' l' c' in (emit i cp l c :: r, lf, cf).
Proof.
  unfold position_lt. cbn [fst snd].
  destruct (Z.eq_dec cp 0x0d) as [-> | Hcp].
  - destruct rest as [|[j nx] t].
    + exists [], (l + 1), 1.
      split; [lia|]. split; [lia|]. split; [left; reflexivity|]. reflexivity.
    + destruct (Z.eq_dec nx 0x0a) as [-> | Hnx].
      * exists t, (l + 1), 1.
        split; [lia|]. split; [lia|]. split; [right; eauto|]. apply walk_crlf.
      * exists ((j, nx) :: t), (l + 1), 1.
        split; [lia|]. split; [lia|]. split; [left; reflexivity|].
        apply walk_cr_other; exact Hnx.
  - exists rest, (fst (advance cp l c)), (snd (advance cp l c)).
    split; [|split; [|split; [left; reflexivity | apply walk_not_cr; exact Hcp]]];
      unfold advance; destruct ((cp =? 10) || (cp =? 8232) || (cp =? 8233))%Z; cbn; lia.
Qed.

Lemma walk_visit_in (cps : list (nat * Z)) l c v :
  In v (fst (fst (walk emit_visit cps l c))) ->
  In (visit_index v, visit_code_point v) cps /\
  (l < fst (visit_position v) \/ (l = fst (visit_position v) /\ c <= snd (visit_position v))) /\
  (1 <= c -> 1 <= snd (visit_position v)).
Proof.
  intros H. apply walk_visit in H as (a & i & cp & b & l1 & c1 & -> & -> & Hfp).
  unfold emit_visit, visit_index, visit_code_point, visit_position. cbn [fst snd].
  split; [apply in_elt|]. apply forward_pass_monotone in Hfp. exact Hfp.
Qed.

Lemma walk_visits_sorted : forall n (cps : list (nat * Z)) l c,
  length cps <= n ->
  StronglySorted lt (map fst cps) ->
  let records := fst (fst (walk emit_visit cps l c)) in
  StronglySorted position_lt (map visit_position records) /\
  StronglySorted lt (map visit_index records) /\
  Forall (fun v => position_lt (visit_position v)
                     (snd (fst (walk emit_visit cps l c)), snd (walk emit_visit cps l c)))
    records.
Proof.
  induction n as [|n IH]; intros cps l c Hlen Hsorted.
  - destruct cps; [|cbn in Hlen; lia]. cbn. repeat split; constructor.
  - destruct cps as [|[i cp] rest]; [cbn; repeat split; constructor|].
    destruct (walk_step emit_visit i cp rest l c) as (rest' & l' & c' & Hlt & _ & Hrest & ->).
    cbn [map fst] in Hsorted. apply StronglySorted_inv in Hsorted as [Hs_rest Hi].
    assert (Hin_rest : forall x, In x rest' -> In x rest).
    { intros x Hx. destruct Hrest as [-> | [y ->]]; [exact Hx | right; exact Hx]. }
    assert (Hs_rest' : StronglySorted lt (map fst rest')).
    { destruct Hrest as [-> | [y ->]]; [exact Hs_rest|].
      cbn [map] in Hs_rest. apply StronglySorted_inv in Hs_rest. tauto. }
    assert (Hlen' : length rest' <= n).
    { cbn [length] in Hlen. destruct Hrest as [-> | [y ->]]; cbn [length] in *; lia. }
    destruct (IH rest' l' c' Hlen' Hs_rest') as (IHpos & IHidx & IHend).
    pose proof (walk_position emit_visit rest' l' c') as Hfinal.
    pose proof (fun v => walk_visit_in rest' l' c' v) as Hvisit.
    destruct (walk emit_visit rest' l' c') as [[r lf] cf]. cbn [fst snd] in *.
    symmetry in Hfinal. apply forward_pass_monotone in Hfinal.
    unfold position_lt in *. cbn [fst snd] in *.
    cbv zeta. cbn [map]. repeat split.
    + constructor; [exact IHpos|].
      rewrite Forall_map, Forall_forall. intros v Hv. apply Hvisit in Hv.
      change (visit_position (emit_visit i cp l c)) with (l, c). cbn [fst snd]. lia.
    + constructor; [exact IHidx|].
      rewrite Forall_map, Forall_forall. intros v Hv. apply Hvisit in Hv as [Hv _].
      change (visit_index (emit_visit i cp l c)) with i.
      rewrite Forall_forall in Hi. apply Hi.
      apply Hin_rest in Hv. apply (in_map fst) in Hv. exact Hv.
    + constructor; [|exact IHend].
      change (visit_position (emit_visit i cp l c)) with (l, c). cbn [fst snd]. lia.
Qed.

Lemma codePointsFrom_indices (s : jsstring) : forall k,
  StronglySorted lt (map fst (codePointsFrom k s)) /\
  Forall (fun p => k <= fst p) (codePointsFrom k s).
Proof.
  induction s as [| u | u v t IHt IHvt] using jsstring_ind2; intros k.
  - split; constructor.
  - cbn. split; repeat constructor.
  - destruct (is_high_surrogate u && is_low_surrogate v) eqn:E.
    + rewrite codePointsFrom_pair by exact E. destruct (IHt (k + 2)) as [Hs Hge].
      cbn [map fst]. split; constructor; cbn [fst]; auto.
      * rewrite Forall_map. eapply Forall_impl; [|exact Hge]. cbv beta. intros; lia.
      * eapply Forall_impl; [|exact Hge]. cbv beta. intros; lia.
    + rewrite codePointsFrom_lone by (intros ? ? [= <- <-]; exact E).
      destruct (IHvt (k + 1)) as [Hs Hge].
      cbn [map fst]. split; constructor; cbn [fst]; auto.
      * rewrite Forall_map. eapply Forall_impl; [|exact Hge]. cbv beta. intros; lia.
      * eapply Forall_impl; [|exact Hge]. cbv beta. intros; lia.
Qed.

(** What follows a decoded code point is the decoding of the text from its
    index on. *)
Lemma codePointsFrom_suffix (s : jsstring) : forall k a i cp b,
  codePointsFrom k s = a ++ (i, cp) :: b ->
  k <= i /\ codePointsFrom i (skipn (i - k) s) = (i, cp) :: b.
Proof.
  induction s as [| u | u v t IHt IHvt] using jsstring_ind2; intros k a i cp b H.
  - cbn in H. destruct a; discriminate.
  - cbn in H. destruct a as [|x a'].
    + injection H as <- <- <-. rewrite Nat.sub_diag. split; [lia | reflexivity].
    + injection H as _ H. destruct a'; discriminate.
  - destruct (is_high_surrogate u && is_low_surrogate v) eqn:E.
    + rewrite codePointsFrom_pair in H by exact E. destruct a as [|x a'].
      * injection H as <- <- <-. rewrite Nat.sub_diag. split; [lia|].
        cbn [skipn]. apply codePointsFrom_pair. exact E.
      * injection H as _ H. destruct (IHt _ _ _ _ _ H) as [Hle Hsuf]. split; [lia|].
        replace (i - k) with (S (S (i - (k + 2)))) by lia. exact Hsuf.
    + rewrite codePointsFrom_lone in H by (intros ? ? [= <- <-]; exact E).
      destruct a as [|x a'].
      * injection H as <- <- <-. rewrite Nat.sub_diag. split; [lia|].
        cbn [skipn]. apply codePointsFrom_lone. intros ? ? [= <- <-]. exact E.
      * injection H as _ H. destruct (IHvt _ _ _ _ _ H) as [Hle Hsuf]. split; [lia|].
        replace (i - k) with (S (i - (k + 1))) by lia. exact Hsuf.
Qed.

(** A decoded code point is what [codePointAt] reads at its index, and
    [String.fromCodePoint] gives back the code units it occupies. *)
Lemma codePointsFrom_In_decode s i cp :
  wf_jsstring s = true -> In (i, cp) (codePointsFrom 0 s) ->
  codePointAt s i = Some cp /\
  fromCodePoint cp = firstn (length (fromCodePoint cp)) (skipn i s) /\
  i + length (fromCodePoint cp) <= length s.
Proof.
  intros Hwf Hin. apply in_split in Hin as (a & b & Hsplit).
  apply codePointsFrom_suffix in Hsplit as [_ Hsuf]. rewrite Nat.sub_0_r in Hsuf.
  assert (Hi : i < length s).
  { destruct (Nat.lt_ge_cases i (length s)) as [Hi | Hi]; [exact Hi|].
    rewrite skipn_all2 in Hsuf by exact Hi. discriminate. }
  destruct (decode_at s i Hwf Hi) as (cp' & Hcp & _ & Hlen & Hch & Hcps & _).
  rewrite Hcps in Hsuf. injection Hsuf as -> _. auto.
Qed.

(** Without a CARRIAGE RETURN, LINE FEED pair every code point is visited. *)
Lemma walk_visits_all (cps : list (nat * Z)) : forall l c,
  no_crlf (map snd cps) ->
  map (fun v => (visit_index v, visit_code_point v)) (fst (fst (walk emit_visit cps l c))) = cps.
Proof.
  induction cps as [| [i cp] | [i cp] [j nx] t IHt IHnt] using list_ind2; intros l c H.
  - reflexivity.
  - destruct (walk_step emit_visit i cp [] l c) as (rest' & l' & c' & _ & _ & Hrest & ->).
    destruct Hrest as [-> | [x Hx]]; [|discriminate]. reflexivity.
  - destruct (Z.eq_dec cp 0x0d) as [-> | Hcp].
    + assert (Hnx : nx <> 0x0a%Z).
      { intros ->. apply (H [] (map snd t)). reflexivity. }
      rewrite walk_cr_other by exact Hnx.
      specialize (IHnt (l + 1) 1 (no_crlf_tail _ _ H)).
      destruct (walk emit_visit ((j, nx) :: t) (l + 1) 1) as [[r lf] cf].
      cbn [fst map] in *. rewrite IHnt. reflexivity.
    + rewrite walk_not_cr by exact Hcp.
      specialize (IHnt (fst (advance cp l c)) (snd (advance cp l c)) (no_crlf_tail _ _ H)).
      destruct (walk emit_visit ((j, nx) :: t) _ _) as [[r lf] cf].
      cbn [fst map] in *. rewrite IHnt. reflexivity.
Qed.

Lemma visit_decode input v :
  wf_jsstring input = true -> In v (visits input) ->
  codePointAt input (visit_index v) = Some (visit_code_point v) /\
  fromCodePoint (visit_code_point v) =
    firstn (length (fromCodePoint (visit_code_point v))) (skipn (visit_index v) input) /\
  visit_index v + length (fromCodePoint (visit_code_point v)) <= length input /\
  1 <= fst (visit_position v) /\ 1 <= snd (visit_position v).
Proof.
  intros Hwf Hv. unfold visits in Hv. apply walk_visit_in in Hv as (Hin & Hpos & Hcol).
  destruct (codePointsFrom_In_decode input _ _ Hwf Hin) as (H1 & H2 & H3).
  repeat split; auto; lia.
Qed.

Lemma visits_sorted input :
  StronglySorted position_lt (map visit_position (visits input)) /\
  StronglySorted lt (map visit_index (visits input)) /\
  Forall (fun v => position_lt (visit_position v) (spec_forward_pass (codePoints input) 1 1))
    (visits input).
Proof.
  unfold visits.
  destruct (walk_visits_sorted (length (codePointsFrom 0 input)) (codePointsFrom 0 input) 1 1
              (le_n _) (proj1 (codePointsFrom_indices input 0))) as (H1 & H2 & H3).
  cbv zeta in *. rewrite (walk_position emit_visit), codePoints_from in H3. auto.
Qed.

(** An ordered list stays ordered when each element is kept, under its key,
    or dropped. *)
Lemma flat_map_sorted {A B K : Type} (R : K -> K -> Prop) (key : A -> K) (key' : B -> K)
  (f : A -> list B) (l : list A) :
  (forall x, f x = [] \/ exists y, f x = [y] /\ key' y = key x) ->
  StronglySorted R (map key l) -> StronglySorted R (map key' (flat_map f l)).
Proof.
  intros Hf. induction l as [|x l IH]; intros Hs; [constructor|].
  cbn [map] in Hs. apply StronglySorted_inv in Hs as [Hs Hx]. specialize (IH Hs).
  cbn [flat_map]. destruct (Hf x) as [-> | (y & -> & Hy)]; [exact IH|].
  cbn [app map]. constructor; [exact IH|].
  rewrite Hy. rewrite Forall_map, Forall_forall in *. intros z Hz.
  apply in_flat_map in Hz as (x' & Hx' & Hz).
  destruct (Hf x') as [E | (y' & E & Hy')]; rewrite E in Hz; [contradiction|].
  destruct Hz as [<- | []]. rewrite Hy'. apply Hx. exact Hx'.
Qed.

(** Encoding the code points of a well-formed text gives the text back. *)
Lemma encode_decode (s : jsstring) :
  wf_jsstring s = true -> flat_map fromCodePoint (codePoints s) = s.
Proof.
  unfold codePoints. generalize 0.
  induction s as [| u | u v t IHt IHvt] using jsstring_ind2; intros n Hwf.
  - reflexivity.
  - apply wf_cons in Hwf as [Hu _]. cbn. rewrite (fromCodePoint_unit u Hu). reflexivity.
  - pose proof Hwf as Hwf0. apply wf_cons in Hwf0 as [Hu Hvt].
    destruct (is_high_surrogate u && is_low_surrogate v) eqn:E.
    + rewrite codePointsFrom_pair by exact E. cbn [map snd flat_map].
      apply andb_true_iff in E as [Eh El]. rewrite (fromCodePoint_pair u v Eh El).
      rewrite IHt by (apply wf_cons in Hvt; tauto). reflexivity.
    + rewrite codePointsFrom_lone by (intros ? ? [= <- <-]; exact E). cbn [map snd flat_map].
      rewrite (fromCodePoint_unit u Hu), IHvt by exact Hvt. reflexivity.
Qed.

Lemma filter_nil {A : Type} (f : A -> bool) (l : list A) :
  filter f l = [] -> Forall (fun x => f x = false) l.
Proof.
  induction l as [|x l IH]; [constructor|]. cbn [filter].
  destruct (f x) eqn:E; [discriminate|]. intros H. constructor; auto.
Qed.

Section ScannerFacts.

Variable general_category : Z -> GeneralCategory.

(** The positioned scan pushes, at each visited code point of the class, the
    occurrence of that code point. *)
Lemma scan_visits input :
  wf_jsstring input = true ->
  findNonPrintableWithPositions general_category input =
  flat_map (fun v => emit_scan general_category (visit_index v) (visit_code_point v)
                       (fst (visit_position v)) (snd (visit_position v)))
    (visits input).
Proof.
  intros Hwf. unfold findNonPrintableWithPositions. rewrite scan_run_walk by exact Hwf.
  change (walk (emit_scan general_category))
    with (walk (fun i cp l c =>
                  (fun v => emit_scan general_category (visit_index v) (visit_code_point v)
                              (fst (visit_position v)) (snd (visit_position v)))
                    (emit_visit i cp l c))).
  rewrite walk_map. unfold visits.
  destruct (walk emit_visit (codePointsFrom 0 input) 1 1) as [[es l] c].
  cbn [fst]. symmetry. apply flat_map_concat_map.
Qed.

Lemma scan_occurrence_visit input m :
  wf_jsstring input = true ->
  In m (findNonPrintableWithPositions general_category input) ->
  exists v, In v (visits input) /\
    isNonPrintable general_category (visit_code_point v) = true /\
    m = mkPositioned
          (mkMatch (visit_index v) (fromCodePoint (visit_code_point v)) (visit_code_point v)
             (name_of (visit_code_point v)) (category_of (visit_code_point v)))
          (fst (visit_position v)) (snd (visit_position v)).
Proof.
  intros Hwf Hm. rewrite (scan_visits input Hwf) in Hm.
  apply in_flat_map in Hm as (v & Hv & Hm). exists v. split; [exact Hv|].
  unfold emit_scan in Hm.
  destruct (isNonPrintable general_category (visit_code_point v)); [|contradiction].
  destruct Hm as [<- | []]. auto.
Qed.

Lemma emit_scan_cases v :
  emit_scan general_category (visit_index v) (visit_code_point v)
    (fst (visit_position v)) (snd (visit_position v)) = [] \/
  exists m,
    emit_scan general_category (visit_index v) (visit_code_point v)
      (fst (visit_position v)) (snd (visit_position v)) = [m] /\
    index (pm_match m) = visit_index v /\ (line m, column m) = visit_position v.
Proof.
  unfold emit_scan. destruct (isNonPrintable general_category (visit_code_point v)).
  - right. eexists. split; [reflexivity|]. cbn. split; [reflexivity|].
    destruct v as [[[i cp] l] c]. reflexivity.
  - left. reflexivity.
Qed.

(** X1: every occurrence the positioned scan reports is a code point of the
    class that stands in the text at the reported index, with the text it
    occupies, its name and category from the table, and a line and a column
    of 1 or more. *)
Theorem scan_occurrence_sound input m :
  wf_jsstring input = true ->
  In m (findNonPrintableWithPositions general_category input) ->
  codePointAt input (index (pm_match m)) = Some (codePoint (pm_match m)) /\
  isNonPrintable general_category (codePoint (pm_match m)) = true /\
  char (pm_match m) = fromCodePoint (codePoint (pm_match m)) /\
  firstn (length (char (pm_match m))) (skipn (index (pm_match m)) input) = char (pm_match m) /\
  index (pm_match m) + length (char (pm_match m)) <= length input /\
  name (pm_match m) = name_of (codePoint (pm_match m)) /\
  category (pm_match m) = category_of (codePoint (pm_match m)) /\
  1 <= line m /\ 1 <= column m.
Proof.
  intros Hwf Hm.
  destruct (scan_occurrence_visit input m Hwf Hm) as (v & Hv & Hnp & ->).
  destruct (visit_decode input v Hwf Hv) as (H1 & H2 & H3 & H4 & H5).
  cbn [pm_match index codePoint char name category line column].
  repeat split; auto.
Qed.

(** X2: the positioned scan reports its occurrences from left to right: indices
    grow strictly, and so do positions. *)
Theorem scan_ordered input :
  wf_jsstring input = true ->
  StronglySorted lt
    (map (fun m => index (pm_match m)) (findNonPrintableWithPositions general_category input)) /\
  StronglySorted position_lt
    (map (fun m => (line m, column m)) (findNonPrintableWithPositions general_category input)).
Proof.
  intros Hwf. rewrite (scan_visits input Hwf).
  destruct (visits_sorted input) as (Hpos & Hidx & _). split.
  - apply (flat_map_sorted lt visit_index); [|exact Hidx].
    intros v. destruct (emit_scan_cases v) as [E | (m & E & Hi & Hp)]; [left; exact E|].
    right. exists m. auto.
  - apply (flat_map_sorted position_lt visit_position); [|exact Hpos].
    intros v. destruct (emit_scan_cases v) as [E | (m & E & Hi & Hp)]; [left; exact E|].
    right. exists m. auto.
Qed.

(** X3: the positioned scan never reports what the flat list does not have. *)
Theorem scan_within_flat_list input :
  wf_jsstring input = true ->
  incl (map pm_match (findNonPrintableWithPositions general_category input))
    (findNonPrintable general_category input).
Proof.
  intros Hwf m Hm. apply in_map_iff in Hm as (pm & <- & Hpm).
  destruct (scan_occurrence_visit input pm Hwf Hpm) as (v & Hv & Hnp & ->).
  cbn [pm_match]. rewrite (findNonPrintable_flat general_category input Hwf).
  apply in_flat_map. exists (visit_index v, visit_code_point v). split.
  - unfold visits in Hv. apply walk_visit_in in Hv. tauto.
  - unfold match_at. cbn [fst snd]. rewrite Hnp. left. reflexivity.
Qed.

(** X8: the number [visualizeWithTokens] returns is the number of occurrences
    the positioned scan reports. *)
Theorem visualize_count_is_scan_length input :
  wf_jsstring input = true ->
  snd (visualizeWithTokens general_category input) =
  length (findNonPrintableWithPositions general_category input).
Proof.
  intros Hwf. rewrite (scan_visits input Hwf).
  unfold visualizeWithTokens. rewrite visualize_from_walk by exact Hwf.
  change (walk (emit_visualize general_category))
    with (walk (fun i cp l c =>
                  (fun v => emit_visualize general_category (visit_index v) (visit_code_point v)
                              (fst (visit_position v)) (snd (visit_position v)))
                    (emit_visit i cp l c))).
  rewrite walk_map. unfold visits.
  destruct (walk emit_visit (codePointsFrom 0 input) 1 1) as [[es l] c].
  cbn [fst snd]. rewrite map_map, length_flat_map. f_equal.
  apply map_ext. intros v. unfold emit_visualize, emit_scan.
  destruct (isNonPrintable general_category (visit_code_point v)); reflexivity.
Qed.

End ScannerFacts.

(* ------------------------------------------------------------------ *)
(** ** From a line and a column back to an index *)

Lemma positionToIndex_loop_visits line column : forall fuel src i l c,
  wf_jsstring src = true -> length src - i <= fuel ->
  positionToIndex_loop fuel src line column i l c =
  match find (visit_at line column)
          (fst (fst (walk emit_visit (codePointsFrom i (skipn i src)) l c))) with
  | Some v => visit_index v
  | None => length src
  end.
Proof.
  induction fuel as [|fuel IH]; intros src i l c Hwf Hfuel.
  - cbn. rewrite skipn_all2 by lia. reflexivity.
  - cbn [positionToIndex_loop]. destruct (Nat.ltb_spec i (length src)) as [Hi | Hi].
    + destruct (decode_at src i Hwf Hi) as (cp & Hcp & Hn1 & Hn2 & _ & Hcps & _).
      rewrite Hcp, Hcps.
      assert (Hfind : forall (r : list (nat * Z * nat * nat)) (lf cf : nat),
                 find (visit_at line column)
                   (fst (fst (emit_visit i cp l c :: r, lf, cf))) =
                 if ((Z.of_nat l =? line) && (Z.of_nat c =? column))%Z
                 then Some (emit_visit i cp l c)
                 else find (visit_at line column) r).
      { intros r lf cf. reflexivity. }
      cbn [walk]. cbv zeta.
      destruct (Z.eqb_spec cp 0x0d) as [-> | Hcr].
      * change (length (fromCodePoint 13)) with 1 in *.
        change (length (fromCodePoint 10)) with 1.
        destruct (lookahead src (i + 1) Hwf) as [[Hlf Hrest] | [Hlf [Hrest | (cp' & rest'' & Hrest & Hne)]]];
          rewrite Hlf, Hrest.
        -- rewrite Z.eqb_refl. replace (i + (1 + 1)) with (i + 1 + 1) by lia.
           rewrite IH by (auto; lia).
           destruct (walk emit_visit _ (l + 1) 1) as [[r lf] cf]. rewrite Hfind.
           destruct ((Z.of_nat l =? line) && (Z.of_nat c =? column))%Z; reflexivity.
        -- rewrite IH by (auto; lia). rewrite Hrest. cbn [walk]. rewrite Hfind.
           destruct ((Z.of_nat l =? line) && (Z.of_nat c =? column))%Z; reflexivity.
        -- rewrite Hne. rewrite IH by (auto; lia). rewrite Hrest.
           destruct (walk emit_visit _ (l + 1) 1) as [[r lf] cf]. rewrite Hfind.
           destruct ((Z.of_nat l =? line) && (Z.of_nat c =? column))%Z; reflexivity.
      * destruct ((cp =? 10) || (cp =? 8232) || (cp =? 8233))%Z;
          rewrite IH by (auto; lia);
          destruct (walk emit_visit _ _ _) as [[r lf] cf]; rewrite Hfind;
          destruct ((Z.of_nat l =? line) && (Z.of_nat c =? column))%Z; reflexivity.
    + rewrite skipn_all2 by lia. reflexivity.
Qed.

(** [positionToIndex] returns the index of the first visited code point at
    the line and column it is given, and the length of the text when there is
    none. *)
Lemma positionToIndex_visits src line column :
  wf_jsstring src = true -> (1 <= line)%Z -> (1 <= column)%Z ->
  positionToIndex src line column =
  match find (visit_at line column) (visits src) with
  | Some v => visit_index v
  | None => length src
  end.
Proof.
  intros Hwf Hl Hc. unfold positionToIndex.
  destruct (Z.ltb_spec line 1); [lia|]. destruct (Z.ltb_spec column 1); [lia|].
  cbn [orb]. rewrite positionToIndex_loop_visits by (auto; lia).
  rewrite skipn_O. reflexivity.
Qed.

Lemma find_visit (l : list (nat * Z * nat * nat)) v :
  StronglySorted position_lt (map visit_position l) -> In v l ->
  find (visit_at (Z.of_nat (fst (visit_position v))) (Z.of_nat (snd (visit_position v)))) l =
  Some v.
Proof.
  induction l as [|h l IH]; intros Hs Hin; [contradiction|].
  cbn [map] in Hs. apply StronglySorted_inv in Hs as [Hs Hh]. cbn [find].
  destruct Hin as [-> | Hin].
  - destruct v as [[[i cp] lv] cv]. cbn. rewrite !Z.eqb_refl. reflexivity.
  - assert (Hlt : position_lt (visit_position h) (visit_position v)).
    { rewrite Forall_map, Forall_forall in Hh. apply Hh. exact Hin. }
    specialize (IH Hs Hin).
    assert (Hno : visit_at (Z.of_nat (fst (visit_position v)))
                    (Z.of_nat (snd (visit_position v))) h = false).
    { destruct h as [[[ih cph] lh] ch]. destruct v as [[[i cp] lv] cv].
      unfold position_lt, visit_position in Hlt. cbn [fst snd visit_position visit_at] in *.
      apply andb_false_iff.
      destruct (Z.eqb_spec (Z.of_nat lh) (Z.of_nat lv)); [|left; reflexivity].
      destruct (Z.eqb_spec (Z.of_nat ch) (Z.of_nat cv)); [|right; reflexivity]. lia. }
    rewrite Hno. exact IH.
Qed.

Lemma find_visit_none (l : list (nat * Z * nat * nat)) line column :
  Forall (fun v => Z.of_nat (fst (visit_position v)) <> line \/
                   Z.of_nat (snd (visit_position v)) <> column) l ->
  find (visit_at line column) l = None.
Proof.
  induction 1 as [|v l Hv Hl IH]; [reflexivity|]. cbn [find].
  destruct v as [[[i cp] lv] cv]. cbn [visit_at visit_position fst snd] in *.
  destruct (Z.eqb_spec (Z.of_nat lv) line); destruct (Z.eqb_spec (Z.of_nat cv) column);
    cbn [andb]; try exact IH. lia.
Qed.

Section Navigation.

Variable general_category : Z -> GeneralCategory.

(** X10: the line and column the positioned scan reports for an occurrence lead
    [positionToIndex] back to the occurrence's index. *)
Theorem positionToIndex_of_occurrence src m :
  wf_jsstring src = true ->
  In m (findNonPrintableWithPositions general_category src) ->
  positionToIndex src (Z.of_nat (line m)) (Z.of_nat (column m)) = index (pm_match m).
Proof.
  intros Hwf Hm.
  destruct (scan_occurrence_visit general_category src m Hwf Hm) as (v & Hv & _ & ->).
  destruct (visit_decode src v Hwf Hv) as (_ & _ & _ & Hl & Hc).
  cbn [line column pm_match index].
  rewrite positionToIndex_visits by (auto; lia).
  rewrite (find_visit (visits src) v (proj1 (visits_sorted src)) Hv). reflexivity.
Qed.

(** X11: the [Jump] button of an occurrence selects exactly the code units of
    the occurrence: the range given to [setSelectionRange] starts at its
    index, is as long as its text, and holds its text. *)
Theorem jumpToIndex_selects_occurrence text m :
  wf_jsstring text = true ->
  In m (findNonPrintableWithPositions general_category text) ->
  let '(start, end_) :=
    jumpToIndex (length text) (Z.of_nat (index (pm_match m)))
      (Z.of_nat (length (char (pm_match m)))) in
  start = Z.of_nat (index (pm_match m)) /\
  end_ = Z.of_nat (index (pm_match m) + length (char (pm_match m))) /\
  firstn (Z.to_nat (end_ - start)) (skipn (Z.to_nat start) text) = char (pm_match m).
Proof.
  intros Hwf Hm.
  destruct (scan_occurrence_visit general_category text m Hwf Hm) as (v & Hv & _ & ->).
  destruct (visit_decode text v Hwf Hv) as (_ & Hch & Hlen & _ & _).
  cbn [pm_match index char]. unfold jumpToIndex. cbv zeta.
  rewrite Z.min_l by lia. rewrite Z.max_r by lia.
  rewrite Z.min_l by lia. rewrite Z.max_r by lia.
  split; [reflexivity|]. split; [lia|].
  replace (Z.of_nat (visit_index v) + Z.of_nat (length (fromCodePoint (visit_code_point v)))
           - Z.of_nat (visit_index v))%Z
    with (Z.of_nat (length (fromCodePoint (visit_code_point v)))) by lia.
  rewrite !Nat2Z.id. symmetry. exact Hch.
Qed.

End Navigation.

(** X12: [positionToIndex] clamps: its result is an index of the text or its
    length; a line or a column below 1 gives 0; a position at or after the
    one the text ends at gives the length of the text. *)
Theorem positionToIndex_clamps src line column :
  wf_jsstring src = true ->
  positionToIndex src line column <= length src /\
  ((line < 1)%Z \/ (column < 1)%Z -> positionToIndex src line column = 0) /\
  ((1 <= line)%Z -> (1 <= column)%Z ->
   (Z.of_nat (fst (spec_forward_pass (codePoints src) 1 1)) < line \/
    Z.of_nat (fst (spec_forward_pass (codePoints src) 1 1)) = line /\
    Z.of_nat (snd (spec_forward_pass (codePoints src) 1 1)) <= column)%Z ->
   positionToIndex src line column = length src).
Proof.
  intros Hwf. split; [|split].
  - unfold positionToIndex. destruct ((line <? 1) || (column <? 1))%Z; [lia|].
    rewrite positionToIndex_loop_visits by (auto; lia). rewrite skipn_O.
    destruct (find _ _) as [v|] eqn:E; [|lia].
    apply find_some in E as [Hv _]. fold (visits src) in Hv.
    destruct (visit_decode src v Hwf Hv) as (_ & _ & Hlen & _).
    pose proof (fromCodePoint_length (visit_code_point v)). lia.
  - intros H. unfold positionToIndex.
    destruct (Z.ltb_spec line 1); destruct (Z.ltb_spec column 1); cbn [orb]; try reflexivity.
    lia.
  - intros Hl Hc Hpast. rewrite positionToIndex_visits by assumption.
    rewrite find_visit_none; [reflexivity|].
    destruct (visits_sorted src) as (_ & _ & Hend).
    eapply Forall_impl; [|exact Hend]. cbv beta. intros v Hv.
    unfold position_lt in Hv.
    destruct (spec_forward_pass (codePoints src) 1 1) as [lf cf]. cbn [fst snd] in *. lia.
Qed.

(* ------------------------------------------------------------------ *)
(** ** Stripping *)

Lemma replace_matches_skip i (ms : list (nat * jsstring)) replacement (pre s : jsstring) :
  Forall (fun m => i + length pre <= fst m) ms ->
  replace_matches i ms replacement (pre ++ s) =
  pre ++ replace_matches (i + length pre) ms replacement s.
Proof.
  intros H. destruct ms as [|[k text] ms']; [reflexivity|].
  apply Forall_inv in H. cbn [fst] in H. cbn [replace_matches].
  rewrite firstn_app, skipn_app.
  rewrite (firstn_all2 (n := k - i) pre) by lia.
  rewrite (skipn_all2 (n := k - i + length text) pre) by lia.
  cbn [app]. rewrite <- app_assoc.
  replace (k - i - length pre) with (k - (i + length pre)) by lia.
  replace (k - i + length text - length pre) with (k - (i + length pre) + length text) by lia.
  reflexivity.
Qed.

Section Stripping.

Variable general_category : Z -> GeneralCategory.

Lemma matchAll_from_indices (s : jsstring) : forall i,
  Forall (fun m => i <= fst m) (matchAll_from general_category i s).
Proof.
  induction s as [| u | u v t IHt IHvt] using jsstring_ind2; intros i.
  - constructor.
  - cbn. destruct (isNonPrintable general_category u); repeat constructor.
  - destruct (is_high_surrogate u && is_low_surrogate v) eqn:E.
    + rewrite matchAll_from_pair by exact E. apply Forall_app. split.
      * destruct (isNonPrintable general_category _); repeat constructor.
      * eapply Forall_impl; [|apply (IHt (i + 2))]. cbv beta. intros; lia.
    + rewrite matchAll_from_lone by (intros ? ? [= <- <-]; exact E). apply Forall_app. split.
      * destruct (isNonPrintable general_category _); repeat constructor.
      * eapply Forall_impl; [|apply (IHvt (i + 1))]. cbv beta. intros; lia.
Qed.

Lemma replace_matches_pieces (s : jsstring) : forall i,
  wf_jsstring s = true ->
  replace_matches i (matchAll_from general_category i s) [] s =
  flat_map (fun cp => if isNonPrintable general_category cp then [] else fromCodePoint cp)
    (map snd (codePointsFrom i s)).
Proof.
  induction s as [| u | u v t IHt IHvt] using jsstring_ind2; intros i Hwf.
  - reflexivity.
  - apply wf_cons in Hwf as [Hu _].
    cbn [matchAll_from codePointsFrom map snd flat_map].
    destruct (isNonPrintable general_category u).
    + cbn [replace_matches length]. rewrite Nat.sub_diag. reflexivity.
    + rewrite (fromCodePoint_unit u Hu). reflexivity.
  - pose proof Hwf as Hwf0. apply wf_cons in Hwf0 as [Hu Hvt].
    destruct (is_high_surrogate u && is_low_surrogate v) eqn:E.
    + rewrite matchAll_from_pair, codePointsFrom_pair by exact E.
      cbn [map snd flat_map]. rewrite <- IHt by (apply wf_cons in Hvt; tauto).
      destruct (isNonPrintable general_category (surrogate_pair_value u v)).
      * cbn [app replace_matches length]. rewrite Nat.sub_diag. reflexivity.
      * apply andb_true_iff in E as [Eh El]. rewrite (fromCodePoint_pair u v Eh El).
        cbn [app]. apply (replace_matches_skip i _ [] [u; v] t).
        eapply Forall_impl; [|apply (matchAll_from_indices t (i + 2))].
        cbv beta. cbn [length]. intros; lia.
    + rewrite matchAll_from_lone, codePointsFrom_lone by (intros ? ? [= <- <-]; exact E).
      cbn [map snd flat_map]. rewrite <- IHvt by exact Hvt.
      destruct (isNonPrintable general_category u).
      * cbn [app replace_matches length]. rewrite Nat.sub_diag. reflexivity.
      * rewrite (fromCodePoint_unit u Hu).
        cbn [app]. apply (replace_matches_skip i _ [] [u] (v :: t)).
        eapply Forall_impl; [|apply (matchAll_from_indices (v :: t) (i + 1))].
        cbv beta. cbn [length]. intros; lia.
Qed.

Lemma strip_pieces input :
  wf_jsstring input = true ->
  stripNonPrintable general_category input =
  flat_map fromCodePoint
    (filter (fun cp => negb (isNonPrintable general_category cp)) (codePoints input)).
Proof.
  intros Hwf. unfold stripNonPrintable, matchAll.
  rewrite replace_matches_pieces by exact Hwf. rewrite codePoints_from.
  induction (codePoints input) as [|cp cps IH]; [reflexivity|].
  cbn [flat_map filter]. rewrite IH.
  destruct (isNonPrintable general_category cp); reflexivity.
Qed.

Lemma strip_length input :
  wf_jsstring input = true ->
  length input =
  length (stripNonPrintable general_category input) +
  list_sum (map (fun m => length (char m)) (findNonPrintable general_category input)).
Proof.
  intros Hwf. rewrite (strip_pieces input Hwf).
  rewrite (findNonPrintable_flat general_category input Hwf).
  rewrite <- (encode_decode input Hwf) at 1.
  rewrite <- (codePoints_from 0 input).
  induction (codePointsFrom 0 input) as [|[i cp] L IH]; [reflexivity|].
  cbn [map snd flat_map filter]. unfold match_at at 1. cbn [fst snd].
  rewrite length_app, IH.
  destruct (isNonPrintable general_category cp); cbn [negb flat_map app map char];
    rewrite ?length_app; unfold list_sum; cbn [fold_right]; lia.
Qed.

(** X13: [stripNonPrintable] keeps the code points of the text that are not in
    the class, in order, and nothing else. *)
Theorem stripNonPrintable_keeps_the_rest input :
  wf_jsstring input = true ->
  stripNonPrintable general_category input =
  flat_map fromCodePoint
    (filter (fun cp => negb (isNonPrintable general_category cp)) (codePoints input)).
Proof. apply strip_pieces. Qed.

(** X14: the code units [stripNonPrintable] removes are those of the matches of
    the flat list: the lengths add up. *)
Theorem stripNonPrintable_length input :
  wf_jsstring input = true ->
  length input =
  length (stripNonPrintable general_category input) +
  list_sum (map (fun m => length (char m)) (findNonPrintable general_category input)).
Proof. apply strip_length. Qed.

(** X15: [stripNonPrintable] leaves a text unchanged exactly when the flat list
    finds nothing in it. *)
Theorem stripNonPrintable_fixed_iff_nothing_found input :
  wf_jsstring input = true ->
  stripNonPrintable general_category input = input <->
  findNonPrintable general_category input = [].
Proof.
  intros Hwf. split.
  - intros Hfix. pose proof (strip_length input Hwf) as Hlen. rewrite Hfix in Hlen.
    pose proof (findNonPrintable_flat general_category input Hwf) as Hflat.
    destruct (findNonPrintable general_category input) as [|m ms]; [reflexivity|].
    exfalso.
    assert (Hm : In m (flat_map (match_at general_category) (codePointsFrom 0 input)))
      by (rewrite <- Hflat; left; reflexivity).
    apply in_flat_map in Hm as ([i cp] & _ & Hm). unfold match_at in Hm. cbn [fst snd] in Hm.
    destruct (isNonPrintable general_category cp); [|contradiction].
    destruct Hm as [<- | []]. cbn [map char list_sum fold_right] in Hlen.
    unfold list_sum in Hlen. cbn [fold_right] in Hlen.
    pose proof (fromCodePoint_length cp). lia.
  - intros Hnone. rewrite (strip_pieces input Hwf).
    pose proof (findNonPrintable_code_points general_category input) as Hocc.
    rewrite Hnone in Hocc. cbn [map] in Hocc. symmetry in Hocc.
    unfold occurrences in Hocc. apply filter_nil in Hocc.
    rewrite <- (encode_decode input Hwf) at 2. f_equal.
    induction Hocc as [|cp cps Hcp Hcps IH]; [reflexivity|].
    cbn [filter]. rewrite Hcp. cbn [negb]. f_equal. exact IH.
Qed.

End Stripping.

(** A code point decoded from a well-formed text is a code unit of the text
    or the value of a surrogate pair. *)
Lemma codePoints_kinds (s : jsstring) :
  wf_jsstring s = true ->
  Forall (fun cp => is_code_unit cp = true \/
                    exists u v, is_high_surrogate u = true /\ is_low_surrogate v = true /\
                                cp = surrogate_pair_value u v)
    (codePoints s).
Proof.
  unfold codePoints. generalize 0.
  induction s as [| u | u v t IHt IHvt] using jsstring_ind2; intros n Hwf.
  - constructor.
  - apply wf_cons in Hwf as [Hu _]. cbn. constructor; [left; exact Hu | constructor].
  - pose proof Hwf as Hwf0. apply wf_cons in Hwf0 as [Hu Hvt].
    destruct (is_high_surrogate u && is_low_surrogate v) eqn:E.
    + rewrite codePointsFrom_pair by exact E. cbn [map snd].
      apply andb_true_iff in E as [Eh El]. constructor.
      * right. exists u, v. auto.
      * apply IHt. apply wf_cons in Hvt. tauto.
    + rewrite codePointsFrom_lone by (intros ? ? [= <- <-]; exact E). cbn [map snd].
      constructor; [left; exact Hu | apply IHvt; exact Hvt].
Qed.

Lemma surrogate_ranges_disjoint v : is_low_surrogate v = true -> is_high_surrogate v = false.
Proof.
  unfold is_low_surrogate, is_high_surrogate. intros H. apply andb_true_iff in H.
  apply andb_false_iff. right. apply Z.leb_gt. lia.
Qed.

Lemma surrogate_is_code_unit u :
  is_high_surrogate u || is_low_surrogate u = true -> is_code_unit u = true.
Proof.
  unfold is_high_surrogate, is_low_surrogate, is_code_unit. intros H.
  apply orb_true_iff in H. apply andb_true_iff.
  destruct H as [H | H]; apply andb_true_iff in H; split; apply Z.leb_le; lia.
Qed.

(** Decoding the encoding of code points that are no lone surrogates gives
    the code points back, and the encoding is a well-formed text. *)
Lemma decode_encode (cps : list Z) :
  Forall (fun cp => (is_code_unit cp = true /\
                     is_high_surrogate cp || is_low_surrogate cp = false) \/
                    exists u v, is_high_surrogate u = true /\ is_low_surrogate v = true /\
                                cp = surrogate_pair_value u v) cps ->
  codePoints (flat_map fromCodePoint cps) = cps /\
  wf_jsstring (flat_map fromCodePoint cps) = true.
Proof.
  induction 1 as [|cp cps Hcp Hcps [IH IHwf]]; [split; reflexivity|].
  cbn [flat_map].
  assert (Hpiece : codePoints (fromCodePoint cp) = [cp] /\
                   wf_jsstring (fromCodePoint cp) = true /\
                   no_pair_straddle (fromCodePoint cp) (flat_map fromCodePoint cps)).
  { destruct Hcp as [[Hu Hns] | (u & v & Hu & Hv & ->)].
    - rewrite (fromCodePoint_unit cp Hu). split; [reflexivity|]. split.
      + cbn. rewrite Hu. reflexivity.
      + intros a' x y b' Ha _. destruct a' as [|z a'].
        * injection Ha as <-. apply orb_false_iff in Hns as [-> _]. reflexivity.
        * injection Ha as _ Ha. destruct a'; discriminate.
    - rewrite (fromCodePoint_pair u v Hu Hv). split; [|split].
      + unfold codePoints. rewrite codePointsFrom_pair by (rewrite Hu, Hv; reflexivity).
        reflexivity.
      + cbn. rewrite !surrogate_is_code_unit; [reflexivity | |];
          [rewrite Hv; apply orb_true_r | rewrite Hu; reflexivity].
      + intros a' x y b' Ha _. destruct a' as [|z [|z' a']].
        * discriminate.
        * injection Ha as _ <-. rewrite (surrogate_ranges_disjoint v Hv). reflexivity.
        * injection Ha as _ _ Ha. destruct a'; discriminate. }
  destruct Hpiece as (Hdec & Hwf & Hstr). split.
  - unfold codePoints in *. rewrite codePointsFrom_app by exact Hstr.
    rewrite map_app, Hdec, (codePoints_from _ (flat_map fromCodePoint cps)).
    unfold codePoints. rewrite IH. reflexivity.
  - apply wf_app. auto.
Qed.

Lemma filter_all {A : Type} (f : A -> bool) (l : list A) :
  Forall (fun x => f x = true) l -> filter f l = l.
Proof.
  induction 1 as [|x l Hx Hl IH]; [reflexivity|]. cbn [filter]. rewrite Hx, IH. reflexivity.
Qed.

Section StrippingTwice.

Variable general_category : Z -> GeneralCategory.
Hypothesis surrogates : surrogates_are_Cs general_category.

Lemma kept_code_points input :
  wf_jsstring input = true ->
  let kept := filter (fun cp => negb (isNonPrintable general_category cp)) (codePoints input) in
  codePoints (stripNonPrintable general_category input) = kept /\
  wf_jsstring (stripNonPrintable general_category input) = true.
Proof.
  intros Hwf kept. rewrite (strip_pieces general_category input Hwf). apply decode_encode.
  apply Forall_forall. intros cp Hcp. apply filter_In in Hcp as [Hin Hnp].
  pose proof (codePoints_kinds input Hwf) as Hk. rewrite Forall_forall in Hk.
  destruct (Hk cp Hin) as [Hu | Hpair]; [|right; exact Hpair].
  left. split; [exact Hu|].
  destruct (is_high_surrogate cp || is_low_surrogate cp) eqn:Es; [|reflexivity].
  exfalso. unfold isNonPrintable in Hnp. rewrite (surrogates cp Es) in Hnp. discriminate.
Qed.

(** X16: after [stripNonPrintable] the flat list finds nothing, and stripping
    again changes nothing. *)
Theorem stripNonPrintable_leaves_nothing input :
  wf_jsstring input = true ->
  findNonPrintable general_category (stripNonPrintable general_category input) = [] /\
  stripNonPrintable general_category (stripNonPrintable general_category input) =
    stripNonPrintable general_category input.
Proof.
  intros Hwf. destruct (kept_code_points input Hwf) as [Hkept Hwf'].
  assert (Hall : Forall (fun cp => negb (isNonPrintable general_category cp) = true)
                   (codePoints (stripNonPrintable general_category input))).
  { rewrite Hkept. apply Forall_forall. intros cp Hcp. apply filter_In in Hcp. tauto. }
  split.
  - apply (map_eq_nil codePoint). rewrite findNonPrintable_code_points. unfold occurrences.
    clear Hkept Hwf'.
    induction Hall as [|cp cps Hcp Hcps IH]; [reflexivity|].
    cbn [filter]. apply negb_true_iff in Hcp. rewrite Hcp. exact IH.
  - rewrite (strip_pieces general_category _ Hwf') at 1.
    rewrite (filter_all _ _ Hall).
    apply encode_decode. exact Hwf'.
Qed.

End StrippingTwice.

Lemma range_lookup_skip cp lo hi c rs :
  (hi < cp)%Z -> range_lookup cp ((lo, hi, c) :: rs) = range_lookup cp rs.
Proof.
  intros H. cbn [range_lookup].
  replace (cp <=? hi)%Z with false by (symmetry; apply Z.leb_gt; exact H).
  rewrite andb_false_r. reflexivity.
Qed.

Lemma ucd_excerpt_surrogates : surrogates_are_Cs ucd_excerpt.
Proof.
  intros u Hu.
  assert (Hr : (0xD800 <= u <= 0xDFFF)%Z).
  { unfold is_high_surrogate, is_low_surrogate in Hu. apply orb_true_iff in Hu.
    destruct Hu as [H | H]; apply andb_true_iff in H; lia. }
  unfold ucd_excerpt, ucd_excerpt_ranges.
  repeat (rewrite range_lookup_skip by (apply Z.lt_le_trans with (2 := proj1 Hr); reflexivity)).
  cbn [range_lookup].
  replace (0xD800 <=? u)%Z with true by (symmetry; apply Z.leb_le; lia).
  replace (u <=? 0xDFFF)%Z with true by (symmetry; apply Z.leb_le; lia).
  reflexivity.
Qed.

Lemma stripNonPrintable_leaves_nothing_witness :
  wf_jsstring [0xD83D; 0x200B; 0xDE00; 0x41; 0x0d; 0x0a]%Z = true /\
  findNonPrintable ucd_excerpt
    (stripNonPrintable ucd_excerpt [0xD83D; 0x200B; 0xDE00; 0x41; 0x0d; 0x0a]%Z) = [] /\
  stripNonPrintable ucd_excerpt
    (stripNonPrintable ucd_excerpt [0xD83D; 0x200B; 0xDE00; 0x41; 0x0d; 0x0a]%Z) =
  stripNonPrintable ucd_excerpt [0xD83D; 0x200B; 0xDE00; 0x41; 0x0d; 0x0a]%Z.
Proof.
  split; [reflexivity|].
  apply (stripNonPrintable_leaves_nothing ucd_excerpt ucd_excerpt_surrogates
           [0xD83D; 0x200B; 0xDE00; 0x41; 0x0d; 0x0a]%Z).
  reflexivity.
Defined.

(* ------------------------------------------------------------------ *)
(** ** What [cleanText] leaves in its output *)

Lemma lookup_absent {A : Type} (key : Z) (table : list (Z * A)) :
  Forall (fun kv => fst kv <> key) table -> lookup key table = None.
Proof.
  induction 1 as [|[k v] rest Hk Hrest IH]; [reflexivity|].
  cbn [lookup]. cbn [fst] in Hk. apply Z.eqb_neq in Hk. rewrite Hk. exact IH.
Qed.

Ltac absent := apply lookup_absent; unfold NAMED, DASH_MAP, QUOTE_MAP;
               repeat constructor; cbn [fst]; lia.

(** A code point decoded from a text is a code unit of the text or the
    value of a surrogate pair of the text. *)
Lemma codePoints_kinds_in (s : jsstring) :
  Forall (fun cp => In cp s \/
                    exists u v, is_high_surrogate u = true /\ is_low_surrogate v = true /\
                                In u s /\ In v s /\ cp = surrogate_pair_value u v)
    (codePoints s).
Proof.
  unfold codePoints. generalize 0.
  induction s as [| u | u v t IHt IHvt] using jsstring_ind2; intros n.
  - constructor.
  - cbn. constructor; [left; left; reflexivity | constructor].
  - destruct (is_high_surrogate u && is_low_surrogate v) eqn:E.
    + rewrite codePointsFrom_pair by exact E. cbn [map snd].
      apply andb_true_iff in E as [Eh El]. constructor.
      * right. exists u, v. cbn [In]. auto 8.
      * eapply Forall_impl; [|apply (IHt (n + 2))].
        intros cp [Hin | (a & b & Ha & Hb & Hia & Hib & ->)].
        -- left. right. right. exact Hin.
        -- right. exists a, b. cbn [In]. auto 10.
    + rewrite codePointsFrom_lone by (intros ? ? [= <- <-]; exact E). cbn [map snd].
      constructor; [left; left; reflexivity|].
      eapply Forall_impl; [|apply (IHvt (n + 1))].
      intros cp [Hin | (a & b & Ha & Hb & Hia & Hib & ->)].
      * left. right. exact Hin.
      * right. exists a, b. cbn [In]. auto 10.
Qed.

Lemma wf_In s u : wf_jsstring s = true -> In u s -> is_code_unit u = true.
Proof. unfold wf_jsstring. rewrite forallb_forall. auto. Qed.

Lemma surrogate_bounds u :
  is_high_surrogate u || is_low_surrogate u = true -> (0xD800 <= u <= 0xDFFF)%Z.
Proof.
  unfold is_high_surrogate, is_low_surrogate. intros H. apply orb_true_iff in H.
  destruct H as [H | H]; apply andb_true_iff in H; lia.
Qed.

Lemma surrogate_pair_bounds u v :
  is_high_surrogate u = true -> is_low_surrogate v = true ->
  (0x10000 <= surrogate_pair_value u v)%Z.
Proof.
  unfold is_high_surrogate, is_low_surrogate, surrogate_pair_value. intros Hu Hv.
  apply andb_true_iff in Hu, Hv. lia.
Qed.

Section CleanOutput.

Variable general_category : Z -> GeneralCategory.
Variable options : CleanOptions.

(** A code point outside the three tables is copied, whatever the engine
    and the options say. *)
Lemma clean_piece_plain cp :
  lookup cp NAMED = None -> lookup cp DASH_MAP = None -> lookup cp QUOTE_MAP = None ->
  clean_piece general_category options cp = fromCodePoint cp.
Proof.
  intros Hnamed Hdash Hquote.
  destruct (isNonPrintable general_category cp) eqn:Hnp.
  - apply clean_piece_unnamed; assumption.
  - unfold clean_piece. rewrite Hnp, Hdash, Hquote. cbn [truthy]. rewrite !andb_false_r.
    assert (Hne : forall k v, lookup k NAMED = Some v -> (cp =? k)%Z = false).
    { intros k v Hk. destruct (Z.eqb_spec cp k) as [-> | _]; [congruence | reflexivity]. }
    rewrite (Hne 0xa0%Z _ eq_refl), (Hne 0x200b%Z _ eq_refl). rewrite !andb_false_r.
    reflexivity.
Qed.

Lemma clean_piece_cases cp :
  clean_piece general_category options cp = lit " " \/
  clean_piece general_category options cp = lit "-" \/
  clean_piece general_category options cp = lit "'" \/
  clean_piece general_category options cp = [34%Z] \/
  clean_piece general_category options cp = [] \/
  clean_piece general_category options cp = fromCodePoint cp.
Proof.
  unfold clean_piece.
  destruct (nbspToSpace options && (cp =? 160)%Z); [auto|].
  destruct (normalizeDashes options && truthy (lookup cp DASH_MAP)) eqn:Ed.
  { apply andb_true_iff in Ed as [_ Ed]. rewrite (DASH_MAP_value cp Ed). auto. }
  destruct (normalizeQuotes options && truthy (lookup cp QUOTE_MAP)) eqn:Eq.
  { apply andb_true_iff in Eq as [_ Eq]. destruct (QUOTE_MAP_value cp Eq) as [-> | ->]; auto. }
  destruct (removeZWSP options && (cp =? 8203)%Z); [auto 6|].
  destruct (isNonPrintable general_category cp); [|auto 6].
  destruct ((cp =? 9)%Z && preserveTab options); [auto 6|].
  destruct ((cp =? 10)%Z && preserveLF options); [auto 6|].
  destruct ((cp =? 13)%Z && preserveCR options); [auto 6|].
  cbv zeta.
  match goal with |- context [negb ?b] => destruct b end; cbn [negb]; auto 6.
Qed.

(** Every code unit of a piece is a code unit [cleanText] copies. *)
Lemma clean_piece_units cp u :
  is_code_unit cp = true \/
  (exists a b, is_high_surrogate a = true /\ is_low_surrogate b = true /\
               cp = surrogate_pair_value a b) ->
  In u (clean_piece general_category options cp) ->
  is_code_unit u = true /\ clean_piece general_category options u = [u].
Proof.
  intros Hkind Hin.
  assert (Hascii : (0x20 <= u <= 0x7E)%Z ->
                   is_code_unit u = true /\ clean_piece general_category options u = [u]).
  { intros Hu.
    assert (Hcu : is_code_unit u = true).
    { unfold is_code_unit. apply andb_true_iff. split; apply Z.leb_le; lia. }
    split; [exact Hcu|].
    rewrite clean_piece_plain by absent. apply fromCodePoint_unit. exact Hcu. }
  destruct (clean_piece_cases cp) as [H | [H | [H | [H | [H | H]]]]]; rewrite H in Hin.
  - destruct Hin as [<- | []]. apply Hascii. cbn. lia.
  - destruct Hin as [<- | []]. apply Hascii. cbn. lia.
  - destruct Hin as [<- | []]. apply Hascii. cbn. lia.
  - destruct Hin as [<- | []]. apply Hascii. lia.
  - destruct Hin.
  - destruct Hkind as [Hcu | (a & b & Ha & Hb & ->)].
    + rewrite (fromCodePoint_unit cp Hcu) in H, Hin. destruct Hin as [<- | []]. auto.
    + rewrite (fromCodePoint_pair a b Ha Hb) in Hin.
      assert (Hs : is_high_surrogate u || is_low_surrogate u = true).
      { destruct Hin as [<- | [<- | []]]; [rewrite Ha | rewrite Hb, orb_true_r]; reflexivity. }
      pose proof (surrogate_bounds u Hs) as Hr.
      pose proof (surrogate_is_code_unit u Hs) as Hcu.
      split; [exact Hcu|].
      rewrite clean_piece_plain by absent. apply fromCodePoint_unit. exact Hcu.
Qed.

(** The code units of the output of [cleanText] are code units it copies. *)
Lemma cleanText_units input u :
  wf_jsstring input = true ->
  In u (cleanText general_category input options) ->
  is_code_unit u = true /\ clean_piece general_category options u = [u].
Proof.
  intros Hwf Hin. rewrite (cleanText_pieces general_category input options Hwf) in Hin.
  apply in_flat_map in Hin as (cp & Hcp & Hu).
  pose proof (codePoints_kinds input Hwf) as Hk. rewrite Forall_forall in Hk.
  exact (clean_piece_units cp u (Hk cp Hcp) Hu).
Qed.

Lemma cleanText_wf input :
  wf_jsstring input = true ->
  wf_jsstring (cleanText general_category input options) = true.
Proof.
  intros Hwf. unfold wf_jsstring. apply forallb_forall. intros u Hu.
  apply (cleanText_units input u Hwf Hu).
Qed.

(** [cleanText] changes nothing in a text made of code units it copies. *)
Lemma cleanText_settled (s : jsstring) :
  wf_jsstring s = true ->
  (forall u, In u s -> clean_piece general_category options u = [u]) ->
  cleanText general_category s options = s.
Proof.
  intros Hwf Hs. rewrite (cleanText_pieces general_category s options Hwf).
  rewrite <- (encode_decode s Hwf) at 2.
  pose proof (codePoints_kinds_in s) as Hk.
  induction Hk as [|cp cps Hcp Hcps IH]; [reflexivity|].
  cbn [flat_map]. rewrite IH. f_equal.
  destruct Hcp as [Hin | (a & b & Ha & Hb & _ & _ & ->)].
  - rewrite (Hs cp Hin). symmetry. apply fromCodePoint_unit. exact (wf_In s cp Hwf Hin).
  - pose proof (surrogate_pair_bounds a b Ha Hb).
    apply clean_piece_plain; absent.
Qed.

(** X17: cleaning a cleaned text changes nothing: for every text, every choice
    of options and every engine table. *)
Theorem cleanText_twice input :
  wf_jsstring input = true ->
  cleanText general_category (cleanText general_category input options) options =
  cleanText general_category input options.
Proof.
  intros Hwf. apply cleanText_settled.
  - apply cleanText_wf. exact Hwf.
  - intros u Hu. apply (cleanText_units input u Hwf Hu).
Qed.

End CleanOutput.

Section CleanRules.

Variable general_category : Z -> GeneralCategory.
Variable options : CleanOptions.

(** X18: each replacement rule that is switched on is complete: the output of
    [cleanText] has no NO-BREAK SPACE, no dash variant, no quote variant and
    no ZERO WIDTH SPACE left, respectively. *)
Theorem cleanText_rules_complete input u :
  wf_jsstring input = true ->
  In u (cleanText general_category input options) ->
  (nbspToSpace options = true -> u <> 0x00a0%Z) /\
  (normalizeDashes options = true -> is_dash_variant u = false) /\
  (normalizeQuotes options = true -> is_quote_variant u = false) /\
  (removeZWSP options = true -> u <> 0x200b%Z).
Proof.
  intros Hwf Hin.
  destruct (cleanText_units general_category options input u Hwf Hin) as [_ Hfix].
  split; [|split; [|split]].
  - intros Hflag ->. unfold clean_piece in Hfix. rewrite Hflag in Hfix. discriminate.
  - intros Hflag. destruct (is_dash_variant u) eqn:Ev; [exfalso | reflexivity].
    unfold is_dash_variant in Ev.
    repeat (apply orb_true_iff in Ev as [Ev | Ev]);
      apply Z.eqb_eq in Ev; subst u; unfold clean_piece in Hfix; rewrite Hflag in Hfix;
      cbn in Hfix; rewrite ?andb_false_r in Hfix; discriminate.
  - intros Hflag. destruct (is_quote_variant u) eqn:Ev; [exfalso | reflexivity].
    unfold is_quote_variant in Ev.
    repeat (apply orb_true_iff in Ev as [Ev | Ev]);
      apply Z.eqb_eq in Ev; subst u; unfold clean_piece in Hfix; rewrite Hflag in Hfix;
      cbn in Hfix; rewrite ?andb_false_r in Hfix; discriminate.
  - intros Hflag ->. unfold clean_piece in Hfix. rewrite Hflag in Hfix.
    cbn in Hfix. rewrite ?andb_false_r in Hfix. discriminate.
Qed.

(** X19: with every rule switched off, [cleanText] returns its input. *)
Theorem cleanText_no_rule input :
  wf_jsstring input = true ->
  no_rule options = true ->
  cleanText general_category input options = input.
Proof.
  intros Hwf Hno. unfold no_rule in Hno.
  repeat (apply andb_true_iff in Hno as [Hno ?]).
  repeat match goal with H : negb _ = true |- _ => apply negb_true_iff in H end.
  rewrite (cleanText_pieces general_category input options Hwf).
  rewrite <- (encode_decode input Hwf) at 2.
  induction (codePoints input) as [|cp cps IH]; [reflexivity|].
  cbn [flat_map]. rewrite IH. f_equal.
  unfold clean_piece.
  repeat match goal with H : _ options = false |- _ => rewrite H; clear H end.
  cbn [andb orb negb]. rewrite !andb_false_r. cbn [orb negb].
  destruct (isNonPrintable general_category cp); [|reflexivity].
  destruct ((cp =? 9)%Z && preserveTab options); [reflexivity|].
  destruct ((cp =? 10)%Z && preserveLF options); [reflexivity|].
  destruct ((cp =? 13)%Z && preserveCR options); reflexivity.
Qed.

(** X20: [cleanText] works piece by piece: the cleaning of a concatenation that
    splits no surrogate pair is the concatenation of the cleanings. *)
Theorem cleanText_app a b :
  wf_jsstring a = true -> wf_jsstring b = true ->
  no_pair_straddle a b ->
  cleanText general_category (a ++ b) options =
  cleanText general_category a options ++ cleanText general_category b options.
Proof.
  intros Ha Hb Hstr.
  rewrite !cleanText_pieces by (try apply wf_app; auto).
  unfold codePoints. rewrite (codePointsFrom_app a 0 b Hstr).
  rewrite map_app, flat_map_app.
  rewrite (codePoints_from (0 + length a) b). reflexivity.
Qed.

(** X21: with [removeCc] and [removeCf] set and an engine whose class has the
    control and format code points of the name table, none of them is left
    in the output, TAB, LINE FEED and CARRIAGE RETURN under their preserve
    flags apart. *)
Theorem cleanText_removes_named input u :
  wf_jsstring input = true ->
  named_are_hidden general_category = true ->
  removeCc options = true -> removeCf options = true ->
  In u (cleanText general_category input options) ->
  named_control_or_format u = true ->
  (u = 0x09%Z /\ preserveTab options = true) \/
  (u = 0x0a%Z /\ preserveLF options = true) \/
  (u = 0x0d%Z /\ preserveCR options = true).
Proof.
  intros Hwf Hhid Hcc Hcf Hin Hnamed.
  destruct (cleanText_units general_category options input u Hwf Hin) as [_ Hfix].
  unfold named_are_hidden in Hhid. rewrite forallb_forall in Hhid.
  assert (Hkey : exists named, In (u, named) NAMED /\ lookup u NAMED = Some named).
  { unfold named_control_or_format in Hnamed.
    destruct (lookup u NAMED) as [named|] eqn:El; [|discriminate].
    exists named. split; [|reflexivity]. clear -El.
    induction NAMED as [|[k v] rest IH]; [discriminate|].
    cbn [lookup] in El. destruct (Z.eqb_spec k u) as [-> | Hne].
    - injection El as ->. left. reflexivity.
    - right. exact (IH El). }
  destruct Hkey as (named & Hmem & Hlook).
  pose proof (Hhid (u, named) Hmem) as Hnp. cbn [fst] in Hnp. rewrite Hnamed in Hnp.
  cbn [negb orb] in Hnp.
  unfold clean_piece, category_of in Hfix. rewrite Hnp in Hfix.
  unfold named_control_or_format in Hnamed. rewrite Hlook in Hnamed, Hfix.
  rewrite Hcc, Hcf in Hfix.
  unfold NAMED in Hmem. cbn [In] in Hmem.
  repeat (destruct Hmem as [Hmem | Hmem];
          [injection Hmem as <- <-; cbn in Hnamed; try discriminate Hnamed;
           cbn in Hfix; rewrite ?andb_false_r in Hfix; cbn in Hfix;
           destruct (removeZWSP options), (preserveTab options), (preserveLF options),
             (preserveCR options); cbn in Hfix; try discriminate Hfix; auto |]).
  destruct Hmem.
Qed.

End CleanRules.

(* ------------------------------------------------------------------ *)
(** ** HTML escaping *)

Lemma escape_app a b : escape (a ++ b) = escape a ++ escape b.
Proof. unfold escape, replaceAll. rewrite !flat_map_app. reflexivity. Qed.

Lemma escape_single u : escape [u] = escape_unit u.
Proof.
  unfold escape, escape_unit, replaceAll. cbn [flat_map]. rewrite !app_nil_r.
  destruct (Z.eqb_spec u 38) as [-> | H38]; [reflexivity|].
  cbn [flat_map]. rewrite !app_nil_r.
  destruct (Z.eqb_spec u 60) as [-> | H60]; [reflexivity|].
  cbn [flat_map]. rewrite !app_nil_r.
  destruct (Z.eqb_spec u 62) as [-> | H62]; reflexivity.
Qed.

(** The three replacements of [escape], one after the other, amount to one
    pass that rewrites each code unit on its own. *)
Lemma escape_flat s : escape s = flat_map escape_unit s.
Proof.
  induction s as [|u s IH]; [reflexivity|].
  change (u :: s) with ([u] ++ s). rewrite escape_app, escape_single, IH. reflexivity.
Qed.

Lemma escape_markup_free s :
  forallb markup_free s = true -> escape s = s.
Proof.
  rewrite escape_flat. induction s as [|u s IH]; [reflexivity|].
  cbn [forallb flat_map]. intros H. apply andb_true_iff in H as [Hu Hs].
  rewrite (IH Hs). unfold markup_free in Hu. apply negb_true_iff in Hu.
  repeat (apply orb_false_iff in Hu as [Hu ?]).
  unfold escape_unit.
  repeat match goal with H : (u =? _)%Z = false |- _ => rewrite H; clear H end.
  reflexivity.
Qed.

Lemma escape_unit_cases u :
  (u = 38%Z /\ escape_unit u = [38; 97; 109; 112; 59]%Z) \/
  (u = 60%Z /\ escape_unit u = [38; 108; 116; 59]%Z) \/
  (u = 62%Z /\ escape_unit u = [38; 103; 116; 59]%Z) \/
  (u <> 38%Z /\ u <> 60%Z /\ u <> 62%Z /\ escape_unit u = [u]).
Proof.
  unfold escape_unit.
  destruct (Z.eqb_spec u 38) as [-> | H38]; [left; split; reflexivity|].
  destruct (Z.eqb_spec u 60) as [-> | H60]; [right; left; split; reflexivity|].
  destruct (Z.eqb_spec u 62) as [-> | H62]; [right; right; left; split; reflexivity|].
  right; right; right. auto.
Qed.

(** X22: the escaped text has no angle bracket. *)
Theorem escape_no_angle_bracket s :
  forallb (fun u => negb ((u =? 60) || (u =? 62))%Z) (escape s) = true.
Proof.
  rewrite escape_flat. induction s as [|u s IH]; [reflexivity|].
  cbn [flat_map]. rewrite forallb_app, IH, andb_true_r.
  destruct (escape_unit_cases u) as [[_ ->] | [[_ ->] | [[_ ->] | (_ & H60 & H62 & ->)]]];
    try reflexivity.
  cbn [forallb]. apply Z.eqb_neq in H60, H62. rewrite H60, H62. reflexivity.
Qed.

(** X23: two different texts never escape to the same markup. *)
Theorem escape_injective a b :
  escape a = escape b -> a = b.
Proof.
  rewrite !escape_flat. revert b.
  induction a as [|u a IH]; intros [|v b] H.
  - reflexivity.
  - exfalso. cbn [flat_map] in H.
    destruct (escape_unit_cases v) as [[_ E] | [[_ E] | [[_ E] | (_ & _ & _ & E)]]];
      rewrite E in H; discriminate.
  - exfalso. cbn [flat_map] in H.
    destruct (escape_unit_cases u) as [[_ E] | [[_ E] | [[_ E] | (_ & _ & _ & E)]]];
      rewrite E in H; discriminate.
  - cbn [flat_map] in H.
    destruct (escape_unit_cases u) as [[-> E] | [[-> E] | [[-> E] | (U1 & U2 & U3 & E)]]];
      rewrite E in H; clear E;
      (destruct (escape_unit_cases v)
         as [[-> E] | [[-> E] | [[-> E] | (V1 & V2 & V3 & E)]]]);
      rewrite E in H; clear E; cbn [app] in H; try discriminate H;
      try (injection H as H; f_equal; apply IH; exact H);
      try (injection H as Hh H; exfalso; congruence).
    injection H as -> H. f_equal. apply IH. exact H.
Qed.

(* ------------------------------------------------------------------ *)
(** ** Labels: [hex], the tooltip and the token class *)

Lemma digits_aux_units fuel r : forall n acc u,
  (0 < r)%Z -> (0 <= n)%Z ->
  In u (digits_aux fuel r n acc) ->
  In u acc \/ exists d, (0 <= d < r)%Z /\ u = digit_unit d.
Proof.
  induction fuel as [|fuel IH]; intros n acc u Hr Hn Hin.
  - cbn [digits_aux] in Hin. destruct Hin as [<- | Hin]; [|left; exact Hin].
    right. exists (n mod r)%Z. split; [apply Z.mod_pos_bound; exact Hr | reflexivity].
  - cbn [digits_aux] in Hin. destruct (Z.ltb_spec n r) as [Hlt | Hge].
    + destruct Hin as [<- | Hin]; [|left; exact Hin].
      right. exists n. split; [lia | reflexivity].
    + apply IH in Hin; [|exact Hr | apply Z.div_pos; lia].
      destruct Hin as [[<- | Hin] | Hd]; [| left; exact Hin | right; exact Hd].
      right. exists (n mod r)%Z. split; [apply Z.mod_pos_bound; exact Hr | reflexivity].
Qed.

Lemma decimal_units n u :
  In u (nat_to_jsstring n) -> (48 <= u <= 57)%Z.
Proof.
  unfold nat_to_jsstring, toStringRadix. intros Hin.
  apply digits_aux_units in Hin; [|lia|lia].
  destruct Hin as [[] | (d & Hd & ->)]. unfold digit_unit.
  destruct (Z.ltb_spec d 10); lia.
Qed.

Lemma hex_digit_roundtrip d :
  (0 <= d < 16)%Z ->
  is_upper_hex_digit (toUpperCase_unit (digit_unit d)) = true /\
  hex_digit_value (toUpperCase_unit (digit_unit d)) = d.
Proof.
  intros Hd.
  assert (Hcases : (d = 0 \/ d = 1 \/ d = 2 \/ d = 3 \/ d = 4 \/ d = 5 \/ d = 6 \/ d = 7 \/
                    d = 8 \/ d = 9 \/ d = 10 \/ d = 11 \/ d = 12 \/ d = 13 \/ d = 14 \/
                    d = 15)%Z) by lia.
  repeat (destruct Hcases as [-> | Hcases]; [split; reflexivity|]).
  subst d. split; reflexivity.
Qed.

Lemma hex_digits_units cp u :
  (0 <= cp)%Z ->
  In u (toUpperCase (toStringRadix 16 cp)) -> is_upper_hex_digit u = true.
Proof.
  intros Hcp Hin. unfold toUpperCase in Hin. apply in_map_iff in Hin as (x & <- & Hx).
  unfold toStringRadix in Hx. apply digits_aux_units in Hx; [|lia|exact Hcp].
  destruct Hx as [[] | (d & Hd & ->)]. apply hex_digit_roundtrip. exact Hd.
Qed.

(** Reading the digits [toString(16)] produces gives the number back. *)
Lemma hex_digits_value fuel : forall n acc,
  (0 <= n < 16 ^ (Z.of_nat fuel + 1))%Z ->
  fold_left (fun a u => (a * 16 + hex_digit_value u)%Z)
    (toUpperCase (digits_aux fuel 16 n acc)) 0%Z =
  fold_left (fun a u => (a * 16 + hex_digit_value u)%Z) (toUpperCase acc) n.
Proof.
  induction fuel as [|fuel IH]; intros n acc Hn.
  - cbn [digits_aux toUpperCase map fold_left]. change (16 ^ (Z.of_nat 0 + 1))%Z with 16%Z in Hn.
    rewrite Z.mod_small by exact Hn.
    rewrite (proj2 (hex_digit_roundtrip n Hn)). reflexivity.
  - cbn [digits_aux]. destruct (Z.ltb_spec n 16) as [Hlt | Hge].
    + cbn [toUpperCase map fold_left].
      rewrite (proj2 (hex_digit_roundtrip n (conj (proj1 Hn) Hlt))). reflexivity.
    + rewrite IH.
      * cbn [toUpperCase map fold_left].
        rewrite (proj2 (hex_digit_roundtrip (n mod 16) (Z.mod_pos_bound n 16 eq_refl))).
        f_equal. pose proof (Z.div_mod n 16). lia.
      * split; [apply Z.div_pos; lia|].
        apply Z.div_lt_upper_bound; [lia|].
        replace (Z.of_nat (S fuel) + 1)%Z with (Z.succ (Z.of_nat fuel + 1)) in Hn by lia.
        rewrite Z.pow_succ_r in Hn by lia. lia.
Qed.

Lemma parse_hex_zeros k s : parse_hex (repeat 48%Z k ++ s) = parse_hex s.
Proof.
  unfold parse_hex. induction k as [|k IH]; [reflexivity|].
  cbn [repeat app fold_left]. exact IH.
Qed.

Lemma log2_fuel n : (0 <= n)%Z -> (n < 16 ^ (Z.of_nat (Z.to_nat (Z.log2 n)) + 1))%Z.
Proof.
  intros Hn. rewrite Z2Nat.id by apply Z.log2_nonneg.
  destruct (Z.eq_dec n 0) as [-> | Hne]; [reflexivity|].
  pose proof (Z.log2_spec n ltac:(lia)) as [_ Hup].
  apply Z.lt_le_trans with (1 := Hup).
  pose proof (Z.log2_nonneg n).
  replace (Z.succ (Z.log2 n)) with (Z.log2 n + 1)%Z by lia.
  apply Z.pow_le_mono_l. lia.
Qed.

Lemma hex_shape cp :
  (0 <= cp)%Z ->
  firstn 2 (hex cp) = lit "U+" /\
  4 <= length (skipn 2 (hex cp)) /\
  forallb is_upper_hex_digit (skipn 2 (hex cp)) = true /\
  parse_hex (skipn 2 (hex cp)) = cp.
Proof.
  intros Hcp. unfold hex.
  change (lit "U+") with [85; 43]%Z. cbn [app firstn skipn].
  split; [reflexivity|]. unfold padStart. split; [|split].
  - rewrite length_app, repeat_length. lia.
  - apply forallb_forall. intros u Hu. apply in_app_or in Hu as [Hu | Hu].
    + apply repeat_spec in Hu. subst u. reflexivity.
    + apply (hex_digits_units cp u Hcp Hu).
  - rewrite parse_hex_zeros. unfold parse_hex, toStringRadix.
    rewrite hex_digits_value by (split; [exact Hcp | apply log2_fuel; exact Hcp]).
    reflexivity.
Qed.

(** X24: the label [hex] gives a code point: U+, then four or more upper-case
    hexadecimal digits whose value is the code point.  Different code
    points get different labels. *)
Theorem hex_reads_back cp :
  (0 <= cp)%Z ->
  firstn 2 (hex cp) = lit "U+" /\
  4 <= length (skipn 2 (hex cp)) /\
  forallb is_upper_hex_digit (skipn 2 (hex cp)) = true /\
  parse_hex (skipn 2 (hex cp)) = cp.
Proof. apply hex_shape. Qed.

Lemma forallb_app_intro {A : Type} (f : A -> bool) a b :
  forallb f a = true -> forallb f b = true -> forallb f (a ++ b) = true.
Proof. intros Ha Hb. rewrite forallb_app, Ha, Hb. reflexivity. Qed.

Lemma upper_hex_markup_free u : is_upper_hex_digit u = true -> markup_free u = true.
Proof.
  unfold is_upper_hex_digit, markup_free. intros H.
  apply orb_true_iff in H. apply negb_true_iff. repeat (apply orb_false_iff; split);
    apply Z.eqb_neq; destruct H as [H | H]; apply andb_true_iff in H; lia.
Qed.

Lemma hex_markup_free cp : (0 <= cp)%Z -> forallb markup_free (hex cp) = true.
Proof.
  intros Hcp. destruct (hex_shape cp Hcp) as (Hpre & _ & Hdig & _).
  rewrite <- (firstn_skipn 2 (hex cp)). apply forallb_app_intro.
  - rewrite Hpre. reflexivity.
  - apply forallb_forall. intros u Hu. rewrite forallb_forall in Hdig.
    apply upper_hex_markup_free. exact (Hdig u Hu).
Qed.

Lemma decimal_markup_free n : forallb markup_free (nat_to_jsstring n) = true.
Proof.
  apply forallb_forall. intros u Hu. apply decimal_units in Hu.
  unfold markup_free. apply negb_true_iff. repeat (apply orb_false_iff; split);
    apply Z.eqb_neq; lia.
Qed.

Lemma name_of_markup_free cp : (0 <= cp)%Z -> forallb markup_free (name_of cp) = true.
Proof.
  intros Hcp. unfold name_of. destruct (lookup cp NAMED) as [named|] eqn:El.
  - apply lookup_Some_In in El. unfold NAMED in El. cbn [In] in El.
    repeat (destruct El as [El | El]; [injection El as _ <-; reflexivity|]).
    destruct El.
  - apply hex_markup_free. exact Hcp.
Qed.

Lemma category_of_markup_free cp : forallb markup_free (category_of cp) = true.
Proof.
  unfold category_of. destruct (lookup cp NAMED) as [named|] eqn:El; [|reflexivity].
  apply lookup_Some_In in El. unfold NAMED in El. cbn [In] in El.
  repeat (destruct El as [El | El]; [injection El as _ <-; reflexivity|]).
  destruct El.
Qed.

(** X25: the tooltip of a placeholder has no double quote, ampersand or angle
    bracket, so [escape] leaves it as it is and it cannot end the
    attribute it is written in. *)
Theorem token_title_markup_free cp line column :
  (0 <= cp)%Z ->
  forallb markup_free (token_title cp line column) = true /\
  escape (token_title cp line column) = token_title cp line column.
Proof.
  intros Hcp.
  assert (H : forallb markup_free (token_title cp line column) = true).
  { unfold token_title.
    repeat (apply forallb_app_intro;
            [first [ apply name_of_markup_free; exact Hcp
                   | apply hex_markup_free; exact Hcp
                   | apply category_of_markup_free
                   | apply decimal_markup_free
                   | reflexivity ] |]).
    apply decimal_markup_free. }
  split; [exact H | apply escape_markup_free; exact H].
Qed.

(** X26: the class of a placeholder is one of six: the classes for surrogate,
    private-use and unassigned code points are never given, and a code
    point the name table does not list gets the format class. *)
Theorem classifyToken_classes cp :
  In (classifyToken cp (category_of cp))
     [lit "token-zwsp"; lit "token-nbsp"; lit "token-soft"; lit "token-bidi";
      lit "token-cc"; lit "token-cf"] /\
  (lookup cp NAMED = None -> classifyToken cp (category_of cp) = lit "token-cf").
Proof.
  assert (Hnone : lookup cp NAMED = None ->
                  classifyToken cp (category_of cp) = lit "token-cf").
  { intros El. unfold category_of. rewrite El.
    assert (Hne : forall k v, lookup k NAMED = Some v -> (cp =? k)%Z = false).
    { intros k v Hk. destruct (Z.eqb_spec cp k) as [-> | _]; [congruence | reflexivity]. }
    unfold classifyToken.
    rewrite (Hne 0x200b%Z _ eq_refl), (Hne 0xa0%Z _ eq_refl), (Hne 0xad%Z _ eq_refl),
      (Hne 0x200e%Z _ eq_refl), (Hne 0x200f%Z _ eq_refl), (Hne 0x202a%Z _ eq_refl),
      (Hne 0x202b%Z _ eq_refl), (Hne 0x202c%Z _ eq_refl), (Hne 0x202d%Z _ eq_refl),
      (Hne 0x202e%Z _ eq_refl), (Hne 0x2066%Z _ eq_refl), (Hne 0x2067%Z _ eq_refl),
      (Hne 0x2068%Z _ eq_refl), (Hne 0x2069%Z _ eq_refl).
    reflexivity. }
  split; [|exact Hnone].
  destruct (lookup cp NAMED) as [named|] eqn:El.
  - unfold category_of. rewrite El. apply lookup_Some_In in El. unfold NAMED in El. cbn [In] in El.
    repeat (destruct El as [El | El];
            [injection El as <- <-; vm_compute; tauto|]).
    destruct El.
  - rewrite (Hnone eq_refl). cbn [In]. tauto.
Qed.

(* ------------------------------------------------------------------ *)
(** ** The views on a text with nothing hidden, and the flat list *)

Section PlainText.

Variable general_category : Z -> GeneralCategory.

Lemma walk_visualize_plain (cps : list (nat * Z)) : forall l c,
  no_crlf (map snd cps) ->
  Forall (fun cp => isNonPrintable general_category cp = false) (map snd cps) ->
  concat (map fst (fst (fst (walk (emit_visualize general_category) cps l c)))) =
    flat_map (fun cp => escape (fromCodePoint cp)) (map snd cps) /\
  list_sum (map snd (fst (fst (walk (emit_visualize general_category) cps l c)))) = 0.
Proof.
  assert (Hemit : forall i cp l c,
            isNonPrintable general_category cp = false ->
            emit_visualize general_category i cp l c = (escape (fromCodePoint cp), 0)).
  { intros i cp l c H. unfold emit_visualize. rewrite H. reflexivity. }
  induction cps as [| [i cp] | [i cp] [j nx] t IHt IHnt] using list_ind2; intros l c H Hall.
  - split; reflexivity.
  - assert (E : fst (fst (walk (emit_visualize general_category) [(i, cp)] l c)) =
                [emit_visualize general_category i cp l c]).
    { destruct (Z.eq_dec cp 0x0d) as [-> | Hcp]; [reflexivity|].
      rewrite walk_not_cr by exact Hcp. reflexivity. }
    rewrite E. cbn [map snd] in Hall. inversion Hall as [|? ? Hcp _]; subst.
    rewrite (Hemit i cp l c Hcp). split; reflexivity.
  - assert (Hnot : ~ (cp = 0x0d%Z /\ nx = 0x0a%Z)).
    { intros [-> ->]. apply (H [] (map snd t)). reflexivity. }
    assert (E : exists l' c',
               fst (fst (walk (emit_visualize general_category)
                           ((i, cp) :: (j, nx) :: t) l c)) =
               emit_visualize general_category i cp l c
                 :: fst (fst (walk (emit_visualize general_category) ((j, nx) :: t) l' c'))).
    { destruct (Z.eq_dec cp 0x0d) as [-> | Hcp].
      - assert (Hnx : nx <> 0x0a%Z) by (intros ->; apply Hnot; split; reflexivity).
        rewrite walk_cr_other by exact Hnx. exists (l + 1), 1.
        destruct (walk _ ((j, nx) :: t) _ _) as [[r l'] c']. reflexivity.
      - rewrite walk_not_cr by exact Hcp.
        exists (fst (advance cp l c)), (snd (advance cp l c)).
        destruct (walk _ ((j, nx) :: t) _ _) as [[r l'] c']. reflexivity. }
    destruct E as (l' & c' & ->).
    change (map snd ((i, cp) :: (j, nx) :: t)) with (cp :: map snd ((j, nx) :: t)) in *.
    inversion Hall as [|? ? Hcp Hrest]; subst.
    destruct (IHnt l' c' (no_crlf_tail cp _ H) Hrest) as [IH1 IH2].
    rewrite (Hemit i cp l c Hcp).
    cbn [map fst snd concat list_sum fold_right flat_map] in *.
    rewrite IH1. split; [reflexivity|]. exact IH2.
Qed.

Lemma escape_pieces (cps : list Z) :
  flat_map (fun cp => escape (fromCodePoint cp)) cps = escape (flat_map fromCodePoint cps).
Proof.
  induction cps as [|cp cps IH]; [reflexivity|].
  cbn [flat_map]. rewrite escape_app, IH. reflexivity.
Qed.

(** X9: a text in which nothing is found, and no CARRIAGE RETURN stands before
    a LINE FEED, is rendered as its HTML-escaped self with a count of 0. *)
Theorem visualize_plain_text input :
  wf_jsstring input = true ->
  no_crlf (codePoints input) ->
  findNonPrintable general_category input = [] ->
  visualizeWithTokens general_category input = (escape input, 0).
Proof.
  intros Hwf Hno Hnone.
  assert (Hall : Forall (fun cp => isNonPrintable general_category cp = false)
                   (codePoints input)).
  { apply filter_nil. fold (occurrences general_category input).
    rewrite <- findNonPrintable_code_points, Hnone. reflexivity. }
  unfold visualizeWithTokens. rewrite (visualize_from_walk general_category input 1 1 Hwf).
  rewrite <- (codePoints_from 0 input) in Hno, Hall.
  destruct (walk_visualize_plain (codePointsFrom 0 input) 1 1 Hno Hall) as [H1 H2].
  destruct (walk _ _ _ _) as [[es l] c]. cbn [fst] in H1, H2.
  rewrite H1, H2, escape_pieces, codePoints_from, (encode_decode input Hwf). reflexivity.
Qed.

(** X5: every match of the flat list is a code point of the class that stands
    in the text at the reported index, with the text it occupies and its
    name and category from the table; indices grow strictly. *)
Theorem findNonPrintable_sound input :
  wf_jsstring input = true ->
  Forall (fun m =>
            codePointAt input (index m) = Some (codePoint m) /\
            isNonPrintable general_category (codePoint m) = true /\
            char m = fromCodePoint (codePoint m) /\
            firstn (length (char m)) (skipn (index m) input) = char m /\
            name m = name_of (codePoint m) /\
            category m = category_of (codePoint m))
    (findNonPrintable general_category input) /\
  StronglySorted lt (map index (findNonPrintable general_category input)).
Proof.
  intros Hwf. rewrite (findNonPrintable_flat general_category input Hwf). split.
  - apply Forall_forall. intros m Hm. apply in_flat_map in Hm as ([i cp] & Hin & Hm).
    unfold match_at in Hm. cbn [fst snd] in Hm.
    destruct (isNonPrintable general_category cp) eqn:Hnp; [|destruct Hm].
    destruct Hm as [<- | []]. cbn [index codePoint char name category].
    destruct (codePointsFrom_In_decode input i cp Hwf Hin) as (H1 & H2 & _).
    repeat split; auto.
  - pose proof (proj1 (codePointsFrom_indices input 0)) as Hsorted.
    apply (flat_map_sorted lt fst); [|exact Hsorted].
    intros [i cp]. unfold match_at. cbn [fst snd].
    destruct (isNonPrintable general_category cp); [right | left; reflexivity].
    eexists. split; [reflexivity|]. reflexivity.
Qed.

(** X6: the flat list misses nothing: its code points are the code points of
    the class in the text, once per occurrence and in text order. *)
Theorem findNonPrintable_complete input :
  map codePoint (findNonPrintable general_category input) =
  filter (isNonPrintable general_category) (codePoints input).
Proof. apply findNonPrintable_code_points. Qed.

(** X7: the counts of the frequency table add up to the length of the flat
    list. *)
Theorem summarize_total_is_flat_length input :
  total_count (summarizeNonPrintable general_category input) =
  length (findNonPrintable general_category input).
Proof. apply summarize_counts_flat_list. Qed.

(** X4: on a text in which no CARRIAGE RETURN stands before a LINE FEED the
    positioned scan and the flat list report the same matches. *)
Theorem scan_is_flat_list_without_crlf input :
  wf_jsstring input = true ->
  no_crlf (codePoints input) ->
  map pm_match (findNonPrintableWithPositions general_category input) =
  findNonPrintable general_category input.
Proof.
  intros Hwf Hno. symmetry. apply flat_list_is_stripped_scan_without_crlf; assumption.
Qed.

End PlainText.

(* ------------------------------------------------------------------ *)
(** ** The placeholder of a CARRIAGE RETURN before a LINE FEED *)

(** The element [visualizeWithTokens] appends for a CARRIAGE RETURN at line
    [l], column [c]: class [token-cc], the tooltip with name, label,
    category and position, and the placeholder glyph. *)
Lemma token_span_carriage_return l c :
  token_span 0x0d l c =
  lit "<span class=" ++ [34%Z] ++ lit "token token-cc" ++ [34%Z] ++ lit " title=" ++ [34%Z]
    ++ lit "CARRIAGE RETURN (U+000D) " ++ [0x2014%Z] ++ lit " Category Cc " ++ [0x2014%Z]
    ++ lit " at " ++ nat_to_jsstring l ++ lit ":" ++ nat_to_jsstring c
    ++ [34%Z] ++ lit ">&#9676;</span>".
Proof.
  assert (Ht : token_title 0x0d l c =
               lit "CARRIAGE RETURN (U+000D) " ++ [0x2014%Z] ++ lit " Category Cc "
                 ++ [0x2014%Z] ++ lit " at " ++ nat_to_jsstring l ++ lit ":"
                 ++ nat_to_jsstring c).
  { unfold token_title.
    change (name_of 13) with (lit "CARRIAGE RETURN").
    change (hex 13) with (lit "U+000D").
    change (category_of 13) with (lit "Cc").
    reflexivity. }
  assert (He : escape (token_title 0x0d l c) = token_title 0x0d l c).
  { apply escape_markup_free. rewrite Ht.
    repeat (apply forallb_app_intro;
            [first [apply decimal_markup_free | reflexivity] |]).
    apply decimal_markup_free. }
  unfold token_span. rewrite He, Ht.
  change (classifyToken 13 (category_of 13)) with (lit "token-cc").
  rewrite <- !app_assoc. reflexivity.
Qed.

(** C10: where a CARRIAGE RETURN is immediately followed by a LINE FEED,
    the markup of [visualizeWithTokens] is the markup of the text before
    them, the placeholder element of the CARRIAGE RETURN (a [span] of class
    [token-cc] with its tooltip and the glyph [&#9676;]), and the markup of
    the text after them, started on the next line; the count is the count
    before, one for the CARRIAGE RETURN, and the count after.  Nothing is
    emitted or counted for the LINE FEED. *)
Theorem visualize_drops_line_feed_after_carriage_return general_category pre post :
  wf_jsstring (pre ++ [0x0d; 0x0a]%Z ++ post) = true ->
  general_category 0x0d%Z = Cc ->
  let '(h1, n1, l, c) := visualize_from general_category pre 1 1 in
  let '(h2, n2, _, _) := visualize_from general_category post (l + 1) 1 in
  visualizeWithTokens general_category (pre ++ [0x0d; 0x0a]%Z ++ post) =
  (h1
   ++ (lit "<span class=" ++ [34%Z] ++ lit "token token-cc" ++ [34%Z] ++ lit " title=" ++ [34%Z]
       ++ lit "CARRIAGE RETURN (U+000D) " ++ [0x2014%Z] ++ lit " Category Cc " ++ [0x2014%Z]
       ++ lit " at " ++ nat_to_jsstring l ++ lit ":" ++ nat_to_jsstring c
       ++ [34%Z] ++ lit ">&#9676;</span>")
   ++ h2,
   n1 + 1 + n2).
Proof.
  intros Hwf Hcr.
  pose proof (visualize_crlf_split general_category pre post Hwf Hcr) as H.
  destruct (visualize_from general_category pre 1 1) as [[[h1 n1] l] c].
  destruct (visualize_from general_category post (l + 1) 1) as [[[h2 n2] l2] c2].
  rewrite H, token_span_carriage_return. reflexivity.
Qed.

Lemma visualize_drops_line_feed_after_carriage_return_witness :
  wf_jsstring ([0x3c; 0x0d]%Z ++ [0x0d; 0x0a]%Z ++ [0x200b; 0x41]%Z) = true /\
  ucd_excerpt 0x0d%Z = Cc /\
  let '(h1, n1, l, c) := visualize_from ucd_excerpt [0x3c; 0x0d]%Z 1 1 in
  let '(h2, n2, _, _) := visualize_from ucd_excerpt [0x200b; 0x41]%Z (l + 1) 1 in
  visualizeWithTokens ucd_excerpt ([0x3c; 0x0d]%Z ++ [0x0d; 0x0a]%Z ++ [0x200b; 0x41]%Z) =
  (h1
   ++ (lit "<span class=" ++ [34%Z] ++ lit "token token-cc" ++ [34%Z] ++ lit " title=" ++ [34%Z]
       ++ lit "CARRIAGE RETURN (U+000D) " ++ [0x2014%Z] ++ lit " Category Cc " ++ [0x2014%Z]
       ++ lit " at " ++ nat_to_jsstring l ++ lit ":" ++ nat_to_jsstring c
       ++ [34%Z] ++ lit ">&#9676;</span>")
   ++ h2,
   n1 + 1 + n2).
Proof.
  split; [reflexivity|]. split; [reflexivity|].
  apply (visualize_drops_line_feed_after_carriage_return ucd_excerpt
           [0x3c; 0x0d]%Z [0x200b; 0x41]%Z); reflexivity.
Defined.

(* ------------------------------------------------------------------ *)
(** ** The selection of [jumpToIndex] *)

(** X27: whatever index and length it is called with, [jumpToIndex] selects
    a range inside the text: the start is between 0 and the length of the
    text, and the end between the start and the length of the text. *)
Theorem jumpToIndex_in_bounds text_length index length :
  let '(start, end_) := jumpToIndex text_length index length in
  (0 <= start <= end_)%Z /\ (end_ <= Z.of_nat text_length)%Z.
Proof. unfold jumpToIndex. lia. Qed.

(* ------------------------------------------------------------------ *)
(** ** The properties above on concrete texts *)

Lemma sample_no_crlf : no_crlf (codePoints (lit "a<b & c")).
Proof.
  unfold no_crlf.
  let l := eval vm_compute in (codePoints (lit "a<b & c")) in
  change (codePoints (lit "a<b & c")) with l.
  intros a b H.
  repeat (destruct a as [|? a]; [discriminate H | injection H as _ H]).
  destruct a; discriminate H.
Qed.

Lemma scan_occurrence_sound_witness :
  wf_jsstring sample_text = true /\
  In sample_match (findNonPrintableWithPositions ucd_excerpt sample_text) /\
  codePointAt sample_text 1 = Some 0x200b%Z /\
  isNonPrintable ucd_excerpt 0x200b = true /\
  [0x200b%Z] = fromCodePoint 0x200b /\
  firstn 1 (skipn 1 sample_text) = [0x200b%Z] /\
  1 + 1 <= length sample_text /\
  lit "ZERO WIDTH SPACE" = name_of 0x200b /\
  lit "Cf" = category_of 0x200b /\
  1 <= 1 /\ 1 <= 2.
Proof.
  split; [reflexivity|]. split; [left; reflexivity|].
  apply (scan_occurrence_sound ucd_excerpt sample_text sample_match);
    [reflexivity | left; reflexivity].
Defined.

Lemma scan_ordered_witness :
  wf_jsstring sample_text = true /\
  StronglySorted lt
    (map (fun m => index (pm_match m)) (findNonPrintableWithPositions ucd_excerpt sample_text)) /\
  StronglySorted position_lt
    (map (fun m => (line m, column m)) (findNonPrintableWithPositions ucd_excerpt sample_text)).
Proof.
  split; [reflexivity|]. apply (scan_ordered ucd_excerpt sample_text). reflexivity.
Defined.

Lemma scan_within_flat_list_witness :
  wf_jsstring sample_text = true /\
  incl (map pm_match (findNonPrintableWithPositions ucd_excerpt sample_text))
    (findNonPrintable ucd_excerpt sample_text).
Proof.
  split; [reflexivity|]. apply (scan_within_flat_list ucd_excerpt sample_text). reflexivity.
Defined.

Lemma visualize_count_is_scan_length_witness :
  wf_jsstring sample_text = true /\
  snd (visualizeWithTokens ucd_excerpt sample_text) =
  length (findNonPrintableWithPositions ucd_excerpt sample_text).
Proof.
  split; [reflexivity|].
  apply (visualize_count_is_scan_length ucd_excerpt sample_text). reflexivity.
Defined.

Lemma positionToIndex_of_occurrence_witness :
  wf_jsstring sample_text = true /\
  In sample_match (findNonPrintableWithPositions ucd_excerpt sample_text) /\
  positionToIndex sample_text 1 2 = 1.
Proof.
  split; [reflexivity|]. split; [left; reflexivity|].
  apply (positionToIndex_of_occurrence ucd_excerpt sample_text sample_match);
    [reflexivity | left; reflexivity].
Defined.

Lemma jumpToIndex_selects_occurrence_witness :
  wf_jsstring sample_text = true /\
  In sample_match (findNonPrintableWithPositions ucd_excerpt sample_text) /\
  let '(start, end_) := jumpToIndex (length sample_text) 1 1 in
  start = 1%Z /\ end_ = 2%Z /\
  firstn (Z.to_nat (end_ - start)) (skipn (Z.to_nat start) sample_text) = [0x200b%Z].
Proof.
  split; [reflexivity|]. split; [left; reflexivity|].
  apply (jumpToIndex_selects_occurrence ucd_excerpt sample_text sample_match);
    [reflexivity | left; reflexivity].
Defined.

Lemma positionToIndex_clamps_witness :
  wf_jsstring sample_text = true /\
  positionToIndex sample_text 2 1 <= length sample_text /\
  positionToIndex sample_text 0 5 = 0 /\
  positionToIndex sample_text 7 1 = length sample_text.
Proof.
  split; [reflexivity|]. split; [|split].
  - apply (positionToIndex_clamps sample_text 2 1). reflexivity.
  - apply (positionToIndex_clamps sample_text 0 5); [reflexivity | left; lia].
  - apply (positionToIndex_clamps sample_text 7 1); [reflexivity | lia | lia |].
    left. vm_compute. reflexivity.
Defined.

Lemma stripNonPrintable_keeps_the_rest_witness :
  wf_jsstring sample_text = true /\
  stripNonPrintable ucd_excerpt sample_text =
  flat_map fromCodePoint
    (filter (fun cp => negb (isNonPrintable ucd_excerpt cp)) (codePoints sample_text)).
Proof.
  split; [reflexivity|].
  apply (stripNonPrintable_keeps_the_rest ucd_excerpt sample_text). reflexivity.
Defined.

Lemma stripNonPrintable_length_witness :
  wf_jsstring sample_text = true /\
  length sample_text =
  length (stripNonPrintable ucd_excerpt sample_text) +
  list_sum (map (fun m => length (char m)) (findNonPrintable ucd_excerpt sample_text)).
Proof.
  split; [reflexivity|].
  apply (stripNonPrintable_length ucd_excerpt sample_text). reflexivity.
Defined.

Lemma stripNonPrintable_fixed_iff_nothing_found_witness :
  wf_jsstring (lit "a<b & c") = true /\
  (stripNonPrintable ucd_excerpt (lit "a<b & c") = lit "a<b & c" <->
   findNonPrintable ucd_excerpt (lit "a<b & c") = []).
Proof.
  split; [reflexivity|].
  apply (stripNonPrintable_fixed_iff_nothing_found ucd_excerpt (lit "a<b & c")). reflexivity.
Defined.

Lemma cleanText_twice_witness :
  wf_jsstring [0xD83D; 0x200B; 0xDE00; 0x2014; 0x07; 0x41]%Z = true /\
  cleanText ucd_excerpt
    (cleanText ucd_excerpt [0xD83D; 0x200B; 0xDE00; 0x2014; 0x07; 0x41]%Z defaultCleanOptions)
    defaultCleanOptions =
  cleanText ucd_excerpt [0xD83D; 0x200B; 0xDE00; 0x2014; 0x07; 0x41]%Z defaultCleanOptions.
Proof.
  split; [reflexivity|].
  apply (cleanText_twice ucd_excerpt defaultCleanOptions
           [0xD83D; 0x200B; 0xDE00; 0x2014; 0x07; 0x41]%Z).
  reflexivity.
Defined.

Lemma cleanText_rules_complete_witness :
  wf_jsstring [0xa0; 0x2014; 0x201c; 0x200b; 0x41]%Z = true /\
  In 0x2d%Z (cleanText ucd_excerpt [0xa0; 0x2014; 0x201c; 0x200b; 0x41]%Z defaultCleanOptions) /\
  0x2d%Z <> 0x00a0%Z /\ is_dash_variant 0x2d = false /\ is_quote_variant 0x2d = false /\
  0x2d%Z <> 0x200b%Z.
Proof.
  split; [reflexivity|]. split; [right; left; reflexivity|].
  destruct (cleanText_rules_complete ucd_excerpt defaultCleanOptions
              [0xa0; 0x2014; 0x201c; 0x200b; 0x41]%Z 0x2d%Z eq_refl
              (or_intror (or_introl eq_refl))) as (H1 & H2 & H3 & H4).
  exact (conj (H1 eq_refl) (conj (H2 eq_refl) (conj (H3 eq_refl) (H4 eq_refl)))).
Defined.

Lemma cleanText_no_rule_witness :
  wf_jsstring [0xa0; 0x2014; 0x201c; 0x200b; 0x07; 0x41]%Z = true /\
  no_rule no_rules = true /\
  cleanText ucd_excerpt [0xa0; 0x2014; 0x201c; 0x200b; 0x07; 0x41]%Z no_rules =
  [0xa0; 0x2014; 0x201c; 0x200b; 0x07; 0x41]%Z.
Proof.
  split; [reflexivity|]. split; [reflexivity|].
  apply (cleanText_no_rule ucd_excerpt no_rules
           [0xa0; 0x2014; 0x201c; 0x200b; 0x07; 0x41]%Z); reflexivity.
Defined.

Lemma cleanText_app_witness :
  wf_jsstring [0x2014; 0xD83D]%Z = true /\ wf_jsstring [0x41; 0xDE00]%Z = true /\
  cleanText ucd_excerpt ([0x2014; 0xD83D]%Z ++ [0x41; 0xDE00]%Z) defaultCleanOptions =
  cleanText ucd_excerpt [0x2014; 0xD83D]%Z defaultCleanOptions
    ++ cleanText ucd_excerpt [0x41; 0xDE00]%Z defaultCleanOptions.
Proof.
  split; [reflexivity|]. split; [reflexivity|].
  apply (cleanText_app ucd_excerpt defaultCleanOptions [0x2014; 0xD83D]%Z [0x41; 0xDE00]%Z);
    [reflexivity | reflexivity |].
  intros a' u v b' _ Hb. injection Hb as <- _. apply andb_false_r.
Defined.

Lemma cleanText_removes_named_witness :
  wf_jsstring [0x09; 0x200d; 0x00; 0x41]%Z = true /\
  named_are_hidden ucd_excerpt = true /\
  In 0x09%Z (cleanText ucd_excerpt [0x09; 0x200d; 0x00; 0x41]%Z defaultCleanOptions) /\
  named_control_or_format 0x09 = true /\
  ((0x09%Z = 0x09%Z /\ preserveTab defaultCleanOptions = true) \/
   (0x09%Z = 0x0a%Z /\ preserveLF defaultCleanOptions = true) \/
   (0x09%Z = 0x0d%Z /\ preserveCR defaultCleanOptions = true)).
Proof.
  split; [reflexivity|]. split; [reflexivity|]. split; [left; reflexivity|].
  split; [reflexivity|].
  apply (cleanText_removes_named ucd_excerpt defaultCleanOptions [0x09; 0x200d; 0x00; 0x41]%Z);
    [reflexivity | reflexivity | reflexivity | reflexivity | left; reflexivity | reflexivity].
Defined.

Lemma escape_injective_witness :
  escape (lit "a<b & c") = escape (lit "a<b & c") /\ lit "a<b & c" = lit "a<b & c".
Proof.
  split; [reflexivity|].
  apply (escape_injective (lit "a<b & c") (lit "a<b & c")). reflexivity.
Defined.

Lemma hex_reads_back_witness :
  (0 <= 0x1F600)%Z /\
  firstn 2 (hex 0x1F600) = lit "U+" /\
  4 <= length (skipn 2 (hex 0x1F600)) /\
  forallb is_upper_hex_digit (skipn 2 (hex 0x1F600)) = true /\
  parse_hex (skipn 2 (hex 0x1F600)) = 0x1F600%Z.
Proof.
  split; [lia|]. apply (hex_reads_back 0x1F600). lia.
Defined.

Lemma token_title_markup_free_witness :
  (0 <= 0x07)%Z /\
  forallb markup_free (token_title 0x07 2 2) = true /\
  escape (token_title 0x07 2 2) = token_title 0x07 2 2.
Proof.
  split; [lia|]. apply (token_title_markup_free 0x07 2 2). lia.
Defined.

Lemma classifyToken_classes_witness :
  lookup 0x07%Z NAMED = None /\
  classifyToken 0x07 (category_of 0x07) = lit "token-cf".
Proof.
  split; [reflexivity|]. apply (classifyToken_classes 0x07). reflexivity.
Defined.

Lemma visualize_plain_text_witness :
  wf_jsstring (lit "a<b & c") = true /\
  findNonPrintable ucd_excerpt (lit "a<b & c") = [] /\
  visualizeWithTokens ucd_excerpt (lit "a<b & c") = (escape (lit "a<b & c"), 0).
Proof.
  split; [reflexivity|]. split; [reflexivity|].
  apply (visualize_plain_text ucd_excerpt (lit "a<b & c"));
    [reflexivity | exact sample_no_crlf | reflexivity].
Defined.

Lemma findNonPrintable_sound_witness :
  wf_jsstring sample_text = true /\
  Forall (fun m =>
            codePointAt sample_text (index m) = Some (codePoint m) /\
            isNonPrintable ucd_excerpt (codePoint m) = true /\
            char m = fromCodePoint (codePoint m) /\
            firstn (length (char m)) (skipn (index m) sample_text) = char m /\
            name m = name_of (codePoint m) /\
            category m = category_of (codePoint m))
    (findNonPrintable ucd_excerpt sample_text) /\
  StronglySorted lt (map index (findNonPrintable ucd_excerpt sample_text)).
Proof.
  split; [reflexivity|]. apply (findNonPrintable_sound ucd_excerpt sample_text). reflexivity.
Defined.

Lemma scan_is_flat_list_without_crlf_witness :
  wf_jsstring [0x41; 0x200b; 0x0d; 0x3c; 0x0a; 0x07]%Z = true /\
  map pm_match (findNonPrintableWithPositions ucd_excerpt [0x41; 0x200b; 0x0d; 0x3c; 0x0a; 0x07]%Z) =
  findNonPrintable ucd_excerpt [0x41; 0x200b; 0x0d; 0x3c; 0x0a; 0x07]%Z.
Proof.
  split; [reflexivity|].
  apply (scan_is_flat_list_without_crlf ucd_excerpt [0x41; 0x200b; 0x0d; 0x3c; 0x0a; 0x07]%Z);
    [reflexivity|].
  unfold no_crlf.
  let l := eval vm_compute in (codePoints [0x41; 0x200b; 0x0d; 0x3c; 0x0a; 0x07]%Z) in
  change (codePoints [0x41; 0x200b; 0x0d; 0x3c; 0x0a; 0x07]%Z) with l.
  intros a b H.
  repeat (destruct a as [|? a]; [discriminate H | injection H as _ H]).
  destruct a; discriminate H.
Defined.
